(** * SPH-EXA: rung time-steps, the N-body step, density and momentum drivers

    A shallow embedding of

    - [sph/include/sph/ts_rungs.hpp]      (module [Rungs]),
    - the N-body propagator [NbodyProp]    (module [Nbody]),
    - [sph/include/sph/hydro_std/density.hpp] (module [Density]),
    - the task loop [MomentumSquarePatch]  (module [Momentum]).

    Conventions of the embedding.

    - A [float] or [double] of the source is the rational number it denotes
      ([Q]).  Where the source divides, multiplies, adds or converts in
      floating point, the result is rounded to the nearest number of the
      format, ties to even: [round32] for binary32, [round64] for
      binary64.  The minimum, the comparisons and the product of a
      [float] with a power of two are exact.  A value that is not a
      finite number of the source type (a quotient by zero, a result
      beyond the largest finite number, the logarithm of a non-positive
      number) is [None], and so is whatever C++ leaves undefined: the
      conversion of such a value to [int], a read or write outside a
      buffer, the read of an uninitialised variable.
    - [int] is [Z]; where the source shifts, the 32-bit wrap-around is
      written out.  [size_t] and [LocalIndex] are [nat].
    - A device or host buffer is a [list]; [l !! i] reads it and
      [<[i:=x]> l] writes it.
    - A collective (all-reduce, reduce) is a function of the values that
      all ranks contribute. *)

From Stdlib Require Import QArith Qround Qminmax Qabs Qpower Lqa Lia ZArith.
From stdpp Require Import base option list sorting.

Open Scope Q_scope.

(** ** Numbers *)

(** [a < b] on [float], as a boolean. *)
Definition Qltb (a b : Q) : bool := negb (Qle_bool b a).

(** The value of an [int] expression that left the 32-bit range. *)
Definition wrap_int (z : Z) : Z := ((z + 2 ^ 31) mod 2 ^ 32 - 2 ^ 31)%Z.

(** [1 << rung] on [int]. *)
Definition shl1 (rung : nat) : Z := wrap_int (Z.shiftl 1 (Z.of_nat rung)).

(** *** Binary floating point

    [2^e] for any whole [e]. *)
Definition pow2 (e : Z) : Q := 2 ^ e.

(** The whole part of the binary logarithm of a positive number: the [e]
    with [2^e <= x < 2^(e+1)]. *)
Definition Qlog2 (x : Q) : Z :=
  if Qle_bool 1 x then Z.log2 (Qfloor x)
  else (- Z.log2_up (Qceiling (/ x)))%Z.

(** The nearest whole number, the even one of two that are equally
    near. *)
Definition round_half_even (y : Q) : Z :=
  let f := Qfloor y in
  match Qcompare (y - inject_Z f) (1 # 2) with
  | Lt => f
  | Eq => if Z.even f then f else (f + 1)%Z
  | Gt => (f + 1)%Z
  end.

(** The exponent of the unit in the last place at [x], in the format with
    [prec] significant bits whose least normal exponent is [emin]: below
    [2^emin] the numbers of the format are equally spaced. *)
Definition ulp_exp (prec emin : Z) (x : Q) : Z :=
  (Z.max (Qlog2 (Qabs x)) emin - (prec - 1))%Z.

(** Rounding to the nearest number of the format, ties to even; the
    fraction is given in lowest terms.  The largest exponent is not
    looked at here: see [bin32_overflow] and [bin64_overflow]. *)
Definition round_to (prec emin : Z) (x : Q) : Q :=
  if Qeq_bool x 0 then 0
  else
    let u := ulp_exp prec emin x in
    Qred (inject_Z (round_half_even (x / pow2 u)) * pow2 u).

(** binary32 ([float]) and binary64 ([double]). *)
Definition round32 : Q -> Q := round_to 24 (-126).
Definition round64 : Q -> Q := round_to 53 (-1022).

(** The least magnitudes that round to an infinity: half a unit in the
    last place above the largest finite number, [(2 - 2^-24) * 2^127]
    for binary32 and [(2 - 2^-53) * 2^1023] for binary64. *)
Definition bin32_overflow : Q := inject_Z ((2 ^ 25 - 1) * 2 ^ 103).
Definition bin64_overflow : Q := inject_Z ((2 ^ 54 - 1) * 2 ^ 970).

(** A number with a significand of 24 bits: every finite [float] is one. *)
Definition is_bin32 (x : Q) : Prop :=
  exists m e, (Z.abs m < 2 ^ 24)%Z /\ x == inject_Z m * pow2 e.

(** A whole number below [2^24] written with a significand of 24 bits. *)
Ltac bin32_whole :=
  match goal with
  | |- is_bin32 ?x =>
      exists (Qnum x), 0%Z; split; [reflexivity|vm_compute; reflexivity]
  end.

(** [a / b] on [float]: the quotient rounded to binary32.  No finite
    number when [b] is zero (an infinity or a NaN) or when the quotient
    rounds to an infinity. *)
Definition float_div (a b : Q) : option Q :=
  if Qeq_bool b 0 then None
  else if Qle_bool bin32_overflow (Qabs (a / b)) then None
  else Some (round32 (a / b)).

(** [a + b] on [double]: the sum rounded to binary64; no finite number
    when it rounds to an infinity. *)
Definition double_add (a b : Q) : option Q :=
  if Qle_bool bin64_overflow (Qabs (a + b)) then None
  else Some (round64 (a + b)).

(** [int(log2(x))]: the logarithm truncated towards zero.  There is no
    such [int] when [x <= 0] (the logarithm is minus infinity or a NaN). *)
Definition int_log2 (x : Q) : option Z :=
  if Qle_bool x 0 then None
  else if Qle_bool 1 x then Some (Z.log2 (Qfloor x))
  else Some (- Z.log2 (Qfloor (/ x)))%Z.

(** The index of the first element of [l] that satisfies [p], [length l]
    when there is none. *)
Fixpoint find_index {A} (p : A -> bool) (l : list A) : nat :=
  match l with
  | [] => 0
  | x :: l' => if p x then 0 else S (find_index p l')
  end.

(** The least element of a list of numbers that starts with [x]. *)
Definition list_min (x : Q) (l : list Q) : Q := foldl Qmin x l.

(** Ascending order, by positions. *)
Definition ascending (a : list Q) : Prop :=
  forall i j x y, (i <= j)%nat -> a !! i = Some x -> a !! j = Some y -> x <= y.

(** The order of (key, value) pairs by their keys. *)
Definition key_le (a b : Q * nat) : Prop := a.1 <= b.1.

Module Rungs.

(** ** The helpers of cstone *)

(** Modelled from the spec: [cstone::sortByKeyGpu]
    (cstone/primitives/primitives_gpu.h) is not among the sources.  The
    spec has the scheduler stable-sort the groups by [perGroupDt]
    ascending, keeping the permutation: the pairs (key, value) are sorted
    by key, a pair staying in front of the later pairs of the same key. *)
Fixpoint insert_by_key (kv : Q * nat) (l : list (Q * nat)) : list (Q * nat) :=
  match l with
  | [] => [kv]
  | kv' :: l' =>
      if Qle_bool kv.1 kv'.1 then kv :: l else kv' :: insert_by_key kv l'
  end.

Definition sortByKeyGpu (l : list (Q * nat)) : list (Q * nat) :=
  foldr insert_by_key [] l.

(** The loop of the binary search over [first, first + count): an
    element that does not exceed [value] moves [first] behind it, an
    element that exceeds [value] keeps the left half.  [fuel] bounds the
    number of rounds. *)
Fixpoint search_loop (fuel : nat) (a : list Q) (value : Q)
    (first count : nat) : nat :=
  match fuel with
  | O => first
  | S fuel' =>
      if (count =? 0)%nat then first
      else
        let step := (count / 2)%nat in
        let it := (first + step)%nat in
        match a !! it with
        | Some x =>
            if Qle_bool x value
            then search_loop fuel' a value (S it) (count - (step + 1))
            else search_loop fuel' a value first step
        | None => first
        end
  end.

(** Modelled from the spec: [cstone::lowerBoundGpu]
    (cstone/primitives/primitives_gpu.h) is not among the sources.  It is
    the search of the spec's step 4 over the first [n] elements of the
    sorted buffer: a binary search for the first index whose value
    exceeds [value].  Every round at least halves [count], so [n] rounds
    are enough. *)
Definition lowerBoundGpu (a : list Q) (n : nat) (value : Q) : nat :=
  search_loop n (take n a) value 0 n.

(** Modelled from the spec: [mpiAllreduce] with [MPI_MIN] (cstone's MPI
    wrappers are not among the sources) leaves on every rank the
    element-wise minimum of the arrays of all ranks: the spec's
    min-of-minima and min-of-fast-fraction.  [peers] are the arrays of the
    other ranks. *)
Definition mpiAllreduce_min (mine : Q * Q) (peers : list (Q * Q)) : Q * Q :=
  (list_min mine.1 peers.*1, list_min mine.2 peers.*2).

(** ** ts_rungs.hpp *)

(** [sortGroupDt]: [sequenceGpu] writes 0, 1, ... into the first
    [numGroups] indices, [sortByKeyGpu] sorts the first [numGroups] keys
    and moves the indices with them.  What lies behind [numGroups] in the
    two buffers stays.  The scratch buffer is resized and restored; it
    carries nothing over. *)
Definition sortGroupDt (groupDt : list Q) (groupIndices : list nat)
    (numGroups : nat) : option (list Q * list nat) :=
  if decide (numGroups <= length groupDt /\ numGroups <= length groupIndices)%nat
  then
    let kv := sortByKeyGpu (zip (take numGroups groupDt) (seq 0 numGroups)) in
    Some (kv.*1 ++ drop numGroups groupDt, kv.*2 ++ drop numGroups groupIndices)
  else None.

(** [LocalIndex(fastFraction * numGroups)]: [numGroups] is converted to
    [float], the product is taken in [float], and the product is
    truncated; a negative product has no [LocalIndex].  Both roundings
    are to binary32. *)
Definition fastIndex (fastFraction : Q) (numGroups : nat) : option nat :=
  let p := round32 (fastFraction * round32 (inject_Z (Z.of_nat numGroups))) in
  if Qle_bool 0 p then Some (Z.to_nat (Qfloor p)) else None.

(** [timestepRangeGpu]: one element is copied from [groupDt] and one from
    [groupDt + LocalIndex(fastFraction * numGroups)], whatever
    [numGroups] is. *)
Definition timestepRangeGpu (groupDt : list Q) (numGroups : nat)
    (fastFraction : Q) : option (Q * Q) :=
  a ← groupDt !! 0%nat;
  k ← fastIndex fastFraction numGroups;
  b ← groupDt !! k;
  Some (a, b).

(** The literal [0.4] as the [float] parameter receives it. *)
Definition fastFraction_0_4 : Q := 13421773 # 33554432.

(** Modelled from the spec: [Timestep] (sph/timestep.h) is not among the
    sources.  The spec lists its fields: [minDt], [numRungs], [substep],
    the group-count boundaries [rungRanges] and the per-rung [dt_drift]. *)
Record Timestep := mkTimestep {
  minDt : Q;
  numRungs : Z;
  substep : Z;
  rungRanges : list nat;
  dt_drift : list Q
}.

Section MaxNumRungs.

(** [Timestep::maxNumRungs] (sph/timestep.h is not among the sources): the
    fixed ceiling of the rung count.  [rungRanges] has [maxNumRungs + 1]
    entries and [dt_drift] has [maxNumRungs]. *)
Variable maxNumRungs : nat.

(** The rung loop [for (rung = 1; rung < numRungs; ++rung)].  Every
    [rung] it reaches is below [numRungs <= maxNumRungs], an index of
    [rungRanges].  The product of the [float] [minDt] with the power of
    two is exact; where it leaves the finite numbers the search among
    finite timesteps finds the index that it finds for the infinity. *)
Definition rungLoop (groupDt : list Q) (numGroups : nat) (minDt0 : Q)
    (numRungs0 : Z) (rungRanges0 : list nat) : list nat :=
  foldl
    (fun rr rung =>
       let maxDtRung := inject_Z (shl1 rung) * minDt0 in
       <[rung := lowerBoundGpu groupDt numGroups maxDtRung]> rr)
    rungRanges0
    (seq 1 (Z.to_nat numRungs0 - 1)).

(** [computeRungTimestep] on one rank; [peers] are the arrays that the
    other ranks hand to the all-reduce.  [IsDeviceVector] is the
    compile-time switch of the source; without it nothing is sorted and
    [minGroupDt] reaches the all-reduce uninitialised.  The result is the
    [Timestep] with the two buffers as the call leaves them. *)
Definition computeRungTimestep (IsDeviceVector : bool) (peers : list (Q * Q))
    (numGroups : nat) (groupDt : list Q) (groupIndices : list nat)
    : option (Timestep * list Q * list nat) :=
  '(minGroupDt, groupDt', groupIndices') ←
    (if IsDeviceVector
     then
       '(dt', idx') ← sortGroupDt groupDt groupIndices numGroups;
       r ← timestepRangeGpu dt' numGroups fastFraction_0_4;
       Some (r, dt', idx')
     else None);
  let minDtGlobal := mpiAllreduce_min minGroupDt peers in
  q ← float_div minDtGlobal.2 minDtGlobal.1;
  k ← int_log2 q;
  let numRungs0 := Z.min (k + 1) (Z.of_nat maxNumRungs) in
  let rungRanges0 := 0%nat :: replicate maxNumRungs numGroups in
  let rungRanges1 :=
    if IsDeviceVector
    then rungLoop groupDt' numGroups minDtGlobal.1 numRungs0 rungRanges0
    else rungRanges0 in
  Some ({| minDt := minDtGlobal.1;
           numRungs := numRungs0;
           substep := 0;
           rungRanges := rungRanges1;
           dt_drift := replicate maxNumRungs 0 |},
        groupDt', groupIndices').

(** One rank of the run: the group count of its [GroupView] and its two
    device buffers. *)
Record Rank := mkRank {
  numGroups : nat;
  groupDt : list Q;
  groupIndices : list nat
}.

(** What a rank hands to the all-reduce (device instantiation). *)
Definition localRange (rk : Rank) : option (Q * Q) :=
  '(dt', _) ← sortGroupDt (groupDt rk) (groupIndices rk) (numGroups rk);
  timestepRangeGpu dt' (numGroups rk) fastFraction_0_4.

(** The array [minDtGlobal] on rank [k] after the all-reduce. *)
Definition minDtGlobal_at (ranks : list Rank) (k : nat) : option (Q * Q) :=
  rk ← ranks !! k;
  mine ← localRange rk;
  peers ← mapM localRange (delete k ranks);
  Some (mpiAllreduce_min mine peers).

(** All ranks call [computeRungTimestep] together; this is the call of
    rank [k]. *)
Definition computeRungTimestep_at (ranks : list Rank) (k : nat)
    : option (Timestep * list Q * list nat) :=
  rk ← ranks !! k;
  peers ← mapM localRange (delete k ranks);
  computeRungTimestep true peers (numGroups rk) (groupDt rk) (groupIndices rk).

(** The call of rank [k] with what it leaves: its [Timestep] and its rank
    with the buffers as they are after the call. *)
Definition call_of (ranks : list Rank) (k : nat) : option (Timestep * Rank) :=
  rk ← ranks !! k;
  '(ts, dt', idx') ← computeRungTimestep_at ranks k;
  Some (ts, mkRank (numGroups rk) dt' idx').

(** The call on every rank. *)
Definition computeRungTimestep_all (ranks : list Rank)
    : option (list (Timestep * Rank)) :=
  mapM (call_of ranks) (seq 0 (length ranks)).

End MaxNumRungs.

(** ** Words of the claims *)

(** A rank with at least one group, its buffers holding all its groups. *)
Definition has_groups (rk : Rank) : Prop :=
  (1 <= numGroups rk <= length (groupDt rk))%nat /\
  (numGroups rk <= length (groupIndices rk))%nat.

(** The timesteps of the groups of a rank are positive. *)
Definition positive_dt (rk : Rank) : Prop :=
  Forall (fun x => 0 < x) (take (numGroups rk) (groupDt rk)).

(** The timesteps of the groups of all ranks, one rank after the other. *)
Definition all_groups (ranks : list Rank) : list Q :=
  mjoin ((fun rk => take (numGroups rk) (groupDt rk)) <$> ranks).

(** The first index of [a] whose value exceeds [value]. *)
Definition first_exceeding (a : list Q) (value : Q) : nat :=
  find_index (fun x => Qltb value x) a.

(** The quotient of any two timesteps of the run is a finite [float]:
    no timestep reaches [bin32_overflow] times another one. *)
Definition finite_quotients (ranks : list Rank) : Prop :=
  Forall (fun v => Forall (fun w => v < bin32_overflow * w) (all_groups ranks))
    (all_groups ranks).


(** The timesteps of the groups of all ranks are [float]s. *)
Definition binary32_dt (ranks : list Rank) : Prop :=
  Forall is_bin32 (all_groups ranks).

End Rungs.

(** ** Buffers and loops *)

(** [v[i] = x]: a write outside the buffer is undefined. *)
Definition store {A} (v : list A) (i : nat) (x : A) : option (list A) :=
  if decide (i < length v)%nat then Some (<[i := x]> v) else None.

(** [n] rounds of a loop body from index [i] on; a round that is undefined
    leaves the loop undefined. *)
Fixpoint for_loop {St} (n i : nat) (body : nat -> St -> option St) (s : St)
    : option St :=
  match n with
  | O => Some s
  | S n' => s' ← body i s; for_loop n' (S i) body s'
  end.

(** [for (i = first; i < last; i++) body]. *)
Definition for_range {St} (first last : nat) (body : nat -> St -> option St)
    (s : St) : option St :=
  for_loop (last - first) first body s.



(** None of these additions rounds. *)
Fixpoint exact_sums (x : Q) (l : list Q) : Prop :=
  match l with
  | [] => True
  | y :: l' => round64 (x + y) == x + y /\ exact_sums (x + y) l'
  end.

Module Nbody.

(** The fields of the particle data that [step] itself reads and writes:
    the masses, the accelerations and the potential energy. *)
Record ParticlesData := mkData {
  m : list Q;
  ax : list Q;
  ay : list Q;
  az : list Q;
  egrav : Q
}.

(** What [step] asks of the domain. *)
Record Domain := mkDomain {
  nParticlesWithHalos : nat;
  startIndex : nat;
  endIndex : nat
}.

(** The four counters of [readStats]. *)
Record Stats := mkStats {
  numP2P : Z;
  maxP2P : Z;
  numM2P : Z;
  maxM2P : Z
}.

(** Modelled from the spec: [ParticlesData::resize]
    (sph/particles_data.hpp) is not among the sources.  The spec has it
    grow the per-particle arrays to the halo-inclusive length: every
    field gets [size] elements, the new ones zero as in a
    [std::vector]. *)
Definition resizeData (size : nat) (d : ParticlesData) : ParticlesData :=
  {| m := resize size 0 (m d);
     ax := resize size 0 (ax d);
     ay := resize size 0 (ay d);
     az := resize size 0 (az d);
     egrav := egrav d |}.

(** Modelled from the spec: [fill(v, first, last, value)] of cstone is not
    among the sources.  It fills the slots of [v] from [first] up to, not
    including, [last] with [value], as the spec's padding does; a range
    that is not inside [v] is undefined. *)
Definition fill {A} (v : list A) (first last : nat) (value : A)
    : option (list A) :=
  if decide (first <= last <= length v)%nat
  then for_range first last (fun i v => store v i value) v
  else None.

(** [MPI_Reduce(send, recv, 1, type, op, root, MPI_COMM_WORLD)]: on the
    root the receive buffer gets the values that the ranks send, combined
    in rank order; on every other rank it stays as it was.  [None] is a
    buffer that nothing wrote yet.  MPI leaves the order in which a
    library combines the values open; the order of the ranks is its
    canonical one. *)
Definition MPI_Reduce {A} (op : A -> A -> A) (sends : list A)
    (root rank : nat) (recv : option A) : option A :=
  if decide (rank = root) then
    match sends with
    | [] => recv
    | x :: l => Some (foldl op x l)
    end
  else recv.

(** [MPI_SUM] on [MPI_DOUBLE]: the sum of two values in [double];
    [None] is a value that is no finite number, and stays none. *)
Definition MPI_SUM (a b : option Q) : option Q :=
  x ← a; y ← b; double_add x y.

Definition rootRank : nat := 0.

Section Step.

(** The collaborators of the propagator, which the step only calls: the
    domain synchronisation and the multipole holder. *)
Variable MHolder : Type.
Variable syncGrav : Domain -> ParticlesData -> Domain * ParticlesData.
Variable upsweep : MHolder -> ParticlesData -> Domain -> MHolder.
Variable traverse : MHolder -> ParticlesData -> Domain -> MHolder * ParticlesData.
Variable readStats : MHolder -> Stats.

(** Resize and pad: [d.resize], then the mass of the first owned particle
    into the slots before [first] and from [last] on.  [transferToHost]
    copies that one mass to the host; here host and device are one
    array. *)
Definition resizeAndPad (domain : Domain) (d : ParticlesData)
    : option ParticlesData :=
  let d1 := resizeData (nParticlesWithHalos domain) d in
  let first := startIndex domain in
  let last := endIndex domain in
  m_first ← m d1 !! first;
  m1 ← fill (m d1) 0 first m_first;
  m_first' ← m1 !! first;
  m2 ← fill m1 last (nParticlesWithHalos domain) m_first';
  Some {| m := m2; ax := ax d1; ay := ay d1; az := az d1; egrav := egrav d1 |}.

(** Reset of the accelerations over the owned range. *)
Definition resetAccelerations (domain : Domain) (d : ParticlesData)
    : option ParticlesData :=
  let first := startIndex domain in
  let last := endIndex domain in
  ax1 ← fill (ax d) first last 0;
  ay1 ← fill (ay d) first last 0;
  az1 ← fill (az d) first last 0;
  Some {| m := m d; ax := ax1; ay := ay1; az := az1; egrav := egrav d |}.

(** The state of one rank: its domain, its data and its holder. *)
Definition RankState : Type := Domain * ParticlesData * MHolder.

(** [step] up to the first reduction: sync, resize and pad, reset,
    upsweep, (barrier,) traverse. *)
Definition stepLocal (s : RankState) : option RankState :=
  let '(domain, d, mHolder) := s in
  let '(domain1, d1) := syncGrav domain d in
  d2 ← resizeAndPad domain1 d1;
  d3 ← resetAccelerations domain1 d2;
  let mHolder1 := upsweep mHolder d3 domain1 in
  let '(mHolder2, d4) := traverse mHolder1 d3 domain1 in
  Some (domain1, d4, mHolder2).

(** The line that the rank with [startIndex() == 0] prints:
    [stats[0] / n], [stats[1]], [stats[2] / n], [stats[3]] and
    [maxP2Pglobal].  The quotient by [n = 0] and the read of a
    [maxP2Pglobal] that nothing wrote are undefined. *)
Definition diagnostics (domain : Domain) (stats : Stats)
    (maxP2Pglobal : option Z) : option (option (Z * Z * Z * Z * Z)) :=
  if decide (startIndex domain = 0)%nat then
    let n := Z.of_nat (endIndex domain - startIndex domain) in
    if decide (n = 0)%Z then None
    else
      g ← maxP2Pglobal;
      Some (Some ((numP2P stats / n)%Z, maxP2P stats,
                  (numM2P stats / n)%Z, maxM2P stats, g))
  else Some None.

(** [step] on rank [rank] of the ranks [world]: what it leaves is the
    state of the rank, the variable [maxP2Pglobal] and the printed
    line.  The timer calls are left out.  A [globalEnergy] that is no
    finite number has no place in [egrav]: the step is [None] then. *)
Definition step (world : list RankState) (rank : nat)
    : option (RankState * option Z * option (Z * Z * Z * Z * Z)) :=
  s ← world !! rank;
  '(domain1, d4, mHolder2) ← stepLocal s;
  locals ← mapM stepLocal world;
  globalEnergy ←
    mjoin (MPI_Reduce MPI_SUM ((fun l => Some (egrav l.1.2)) <$> locals)
             rootRank rank (Some (Some 0)));
  let d5 := {| m := m d4; ax := ax d4; ay := ay d4; az := az d4;
               egrav := globalEnergy |} in
  let stats := readStats mHolder2 in
  let maxP2Pglobal :=
    MPI_Reduce Z.max ((fun l => maxP2P (readStats l.2)) <$> locals)
      rootRank rank None in
  line ← diagnostics domain1 stats maxP2Pglobal;
  Some ((domain1, d5, mHolder2), maxP2Pglobal, line).

End Step.

(** ** A run to try the step on

    The collaborators do nothing: the synchronisation leaves the domain
    and the data, the holder is its [maxP2P] counter, and the traversal
    leaves the data, so that the [egrav] a rank starts with is its
    partial energy. *)
Definition idleSync (domain : Domain) (d : ParticlesData)
    : Domain * ParticlesData := (domain, d).
Definition idleUpsweep (mHolder : Z) (d : ParticlesData) (domain : Domain)
    : Z := mHolder.
Definition idleTraverse (mHolder : Z) (d : ParticlesData) (domain : Domain)
    : Z * ParticlesData := (mHolder, d).
Definition counterStats (mHolder : Z) : Stats := mkStats 0 mHolder 0 0.

(** A rank of three particles whose owned range is [first, 2), with the
    partial energy [e] and the counter [c]. *)
Definition rankOf (first : nat) (e : Q) (c : Z) : RankState Z :=
  (mkDomain 3 first 2, mkData [1; 1; 1] [0; 0; 0] [0; 0; 0] [0; 0; 0] e, c).

(** The masses of five halo particles and fifteen owned ones. *)
Definition twentyMasses : list Q :=
  [3; 1; 4; 1; 5] ++ [9; 2; 6; 5; 3; 5; 8; 9; 7; 9; 3; 2; 3; 8; 4].

Definition idleStep (world : list (RankState Z)) (rank : nat)
    : option (RankState Z * option Z * option (Z * Z * Z * Z * Z)) :=
  step Z idleSync idleUpsweep idleTraverse counterStats world rank.

End Nbody.

Module Density.

Section Density.

(** The number type [T] of the data set with its division. *)
Variable T : Type.
Variable div : T -> T -> T.

(** What [computeXMass] reads beside the masses: the positions, the
    smoothing lengths, the neighbours, the kernel tables and the box. *)
Variable Geometry : Type.

(** The x-mass of particle [i], the value that [computeXMass], called
    on the range [startIndex, endIndex), computes for it. *)
Variable xmass : Geometry -> list T -> nat -> nat -> nat -> T.

Record Dataset := mkDataset {
  geometry : Geometry;
  m : list T;
  xm : list T;
  rho : list T
}.

(** [swap(d.xm, d.rho)]. *)
Definition swap_xm_rho (d : Dataset) : Dataset :=
  {| geometry := geometry d; m := m d; xm := rho d; rho := xm d |}.

(** Modelled from the spec: [computeXMass] (sph/hydro_ve/xmass.hpp) is not
    among the sources, and the spec leaves the kernels to collaborators.
    As the swaps around its call and the loop after it (Convert XMass to
    rho) take it, it is the i-loop over [startIndex, endIndex) that
    stores the x-mass of particle [i] in [d.xm[i]] and writes nothing
    else. *)
Definition computeXMass (startIndex endIndex : nat) (d : Dataset)
    : option Dataset :=
  xm' ← for_range startIndex endIndex
          (fun i xm0 =>
             store xm0 i (xmass (geometry d) (m d) startIndex endIndex i))
          (xm d);
  Some {| geometry := geometry d; m := m d; xm := xm'; rho := rho d |}.

(** [computeDensity], the host branch.  The device branch does the same
    on the device arrays, its last loop being
    [cuda::convertXMassToDensity], which is not among the sources. *)
Definition computeDensity (startIndex endIndex : nat) (d : Dataset)
    : option Dataset :=
  let d1 := swap_xm_rho d in
  d2 ← computeXMass startIndex endIndex d1;
  let d3 := swap_xm_rho d2 in
  rho' ← for_range startIndex endIndex
           (fun i rho0 =>
              m_i ← m d3 !! i;
              rho_i ← rho0 !! i;
              store rho0 i (div m_i rho_i))
           (rho d3);
  Some {| geometry := geometry d3; m := m d3; xm := xm d3; rho := rho' |}.

End Density.

End Density.

Module Momentum.

Declare Scope T_scope.
Delimit Scope T_scope with T.

Section MomentumSquarePatch.

(** The number type [T] of the class, its literals and its operations,
    and the two kernel functions that [compute] calls. *)
Variable T : Type.
Variables zero one two : T.
Variables add sub mul div : T -> T -> T.
Variable neg : T -> T.
Variable ltb : T -> T -> bool.
Variables sqrt exp abs : T -> T.
Variable pow : T -> T -> T.
Variable artificial_viscosity : T -> T -> T -> T -> T -> T -> T -> T -> T.
Variable wharmonic_derivative : T -> T -> T -> T.

Local Infix "+" := add : T_scope.
Local Infix "-" := sub : T_scope.
Local Infix "*" := mul : T_scope.
Local Infix "/" := div : T_scope.
Local Notation "- a" := (neg a) : T_scope.

Record Params := mkParams {
  K : T;
  delta_x_i : T;
  A_i : T;
  ep1 : T;
  ep2 : T;
  mre : T;
  init_timesteps : Z
}.

(** The arrays that the task reads. *)
Record Particles := mkParticles {
  x : list T; y : list T; z : list T; h : list T;
  vx : list T; vy : list T; vz : list T;
  ro : list T; p : list T; c : list T; m : list T;
  neighbors : list (list Z)
}.

(** The arrays that the task writes. *)
Record Gradients := mkGradients {
  grad_P_x : list T;
  grad_P_y : list T;
  grad_P_z : list T
}.

(** [a[i]] with an [int] index. *)
Definition at_ {A} (a : list A) (i : Z) : option A :=
  if decide (0 <= i)%Z then a !! Z.to_nat i else None.

Definition gradh_i : T := one.
Definition gradh_j : T := one.

Open Scope T_scope.

(** One round of the loop over the neighbours of [i]: the momentum sums
    before it and after it.  [A_i0] is the local [A_i] of [compute]. *)
Definition neighbor_round (params : Params) (iteration : Z) (P : Particles)
    (i : Z) (ro_i p_i x_i y_i z_i vx_i vy_i vz_i h_i A_i0 : T)
    (momentum : T * T * T) (nid : Z) : option (T * T * T) :=
  let '(momentum_x, momentum_y, momentum_z) := momentum in
  if decide (nid = i) then Some momentum
  else
    ro_j ← at_ (ro P) nid;
    p_j ← at_ (p P) nid;
    x_j ← at_ (x P) nid;
    y_j ← at_ (y P) nid;
    z_j ← at_ (z P) nid;
    h_j ← at_ (h P) nid;
    m_j ← at_ (m P) nid;
    let r_ijx := x_i - x_j in
    let r_ijy := y_i - y_j in
    let r_ijz := z_i - z_j in
    vx_j ← at_ (vx P) nid;
    vy_j ← at_ (vy P) nid;
    vz_j ← at_ (vz P) nid;
    let v_ijx := vx_i - vx_j in
    let v_ijy := vy_i - vy_j in
    let v_ijz := vz_i - vz_j in
    let rv := r_ijx * v_ijx + r_ijy * v_ijy + r_ijz * v_ijz in
    let r_square := (r_ijx * r_ijx) + (r_ijy * r_ijy) + (r_ijz * r_ijz) in
    h_at_i ← at_ (h P) i;
    c_at_i ← at_ (c P) i;
    c_j ← at_ (c P) nid;
    let viscosity_ij :=
      artificial_viscosity ro_i ro_j h_at_i h_j c_at_i c_j rv r_square in
    let r_ij := sqrt r_square in
    let v_i := r_ij / h_i in
    let v_j := r_ij / h_j in
    let derivative_kernel_i := wharmonic_derivative v_i h_i (K params) in
    let derivative_kernel_j := wharmonic_derivative v_j h_j (K params) in
    let grad_v_kernel_x_i := r_ijx * derivative_kernel_i in
    let grad_v_kernel_x_j := r_ijx * derivative_kernel_j in
    let grad_v_kernel_y_i := r_ijy * derivative_kernel_i in
    let grad_v_kernel_y_j := r_ijy * derivative_kernel_j in
    let grad_v_kernel_z_i := r_ijz * derivative_kernel_i in
    let grad_v_kernel_z_j := r_ijz * derivative_kernel_j in
    let grad_v_kernel_x_i_j := (grad_v_kernel_x_i + grad_v_kernel_x_j) / two in
    let grad_v_kernel_y_i_j := (grad_v_kernel_y_i + grad_v_kernel_y_j) / two in
    let grad_v_kernel_z_i_j := (grad_v_kernel_z_i + grad_v_kernel_z_j) / two in
    let force_i_j_r := zero in
    let force_i_j_r :=
      exp (- (v_i * v_i)) * exp (delta_x_i params / (h_i * h_i)) in
    let A_j := if ltb p_j zero then one else zero in
    let delta_pos_i_j :=
      if ltb zero p_i && ltb zero p_j then one else zero in
    let R_i_j :=
      ep1 params * (A_i0 * abs p_i + A_j * abs p_j)
      + ep2 params * delta_pos_i_j * (abs p_i + abs p_j) in
    let r_force_i_j := R_i_j * pow force_i_j_r (mre params) in
    let partial_repulsive_force := (r_force_i_j / (ro_i * ro_j)) * m_j in
    let repulsive_force_x := partial_repulsive_force * grad_v_kernel_x_i_j in
    let repulsive_force_y := partial_repulsive_force * grad_v_kernel_y_i_j in
    let repulsive_force_z := partial_repulsive_force * grad_v_kernel_z_i_j in
    let force_i_j_r :=
      if (iteration <? init_timesteps params)%Z then zero else force_i_j_r in
    Some
      (momentum_x
       + ((p_i / (gradh_i * ro_i * ro_i) * grad_v_kernel_x_i)
          + (p_j / (gradh_j * ro_j * ro_j) * grad_v_kernel_x_j)
          + viscosity_ij * grad_v_kernel_x_i_j + repulsive_force_x),
       momentum_y
       + ((p_i / (gradh_i * ro_i * ro_i) * grad_v_kernel_y_i)
          + (p_j / (gradh_j * ro_j * ro_j) * grad_v_kernel_y_j)
          + viscosity_ij * grad_v_kernel_y_i_j + repulsive_force_y),
       momentum_z
       + ((p_i / (gradh_i * ro_i * ro_i) * grad_v_kernel_z_i)
          + (p_j / (gradh_j * ro_j * ro_j) * grad_v_kernel_z_j)
          + viscosity_ij * grad_v_kernel_z_i_j + repulsive_force_z)).

(** The loop [for (j = 0; j < neighbors[i].size(); j++)]. *)
Fixpoint neighbor_loop (round : T * T * T -> Z -> option (T * T * T))
    (momentum : T * T * T) (nids : list Z) : option (T * T * T) :=
  match nids with
  | [] => Some momentum
  | nid :: nids' =>
      momentum' ← round momentum nid;
      neighbor_loop round momentum' nids'
  end.

(** [a[i] = v] with an [int] index. *)
Definition store_at {A} (a : list A) (i : Z) (v : A) : option (list A) :=
  if decide (0 <= i)%Z then store a (Z.to_nat i) v else None.

(** [compute(i)], with the [iteration] that the task refers to. *)
Definition compute (params : Params) (iteration : Z) (P : Particles)
    (G : Gradients) (i : Z) : option Gradients :=
  ro_i ← at_ (ro P) i;
  p_i ← at_ (p P) i;
  x_i ← at_ (x P) i;
  y_i ← at_ (y P) i;
  z_i ← at_ (z P) i;
  vx_i ← at_ (vx P) i;
  vy_i ← at_ (vy P) i;
  vz_i ← at_ (vz P) i;
  h_i ← at_ (h P) i;
  let A_i0 := if ltb p_i zero then one else A_i params in
  nids ← at_ (neighbors P) i;
  '(momentum_x, momentum_y, momentum_z) ←
    neighbor_loop
      (neighbor_round params iteration P i
         ro_i p_i x_i y_i z_i vx_i vy_i vz_i h_i A_i0)
      (zero, zero, zero) nids;
  m_i ← at_ (m P) i;
  gx ← store_at (grad_P_x G) i (momentum_x * m_i);
  m_i ← at_ (m P) i;
  gy ← store_at (grad_P_y G) i (momentum_y * m_i);
  m_i ← at_ (m P) i;
  gz ← store_at (grad_P_z G) i (momentum_z * m_i);
  Some {| grad_P_x := gx; grad_P_y := gy; grad_P_z := gz |}.

Close Scope T_scope.

End MomentumSquarePatch.

(** ** A patch to try [compute] on

    Three particles on a line with whole numbers for [T]; the two kernel
    functions are stand-ins, as is [exp]. *)
Definition wholeCompute :=
  compute Z 0%Z 1%Z 2%Z Z.add Z.sub Z.mul Z.div Z.opp Z.ltb Z.sqrt
    (fun v => (v + 1)%Z) Z.abs Z.pow
    (fun ro_i ro_j h_i h_j c_i c_j rv r_square => (c_i + c_j)%Z)
    (fun v h0 K0 => (v + h0 + K0)%Z).

Definition wholeParams : Params Z := mkParams Z 1%Z 1%Z 0%Z 1%Z 1%Z 2%Z 15%Z.

Definition threeParticles : Particles Z :=
  mkParticles Z [0; 1; 3]%Z [0; 0; 0]%Z [0; 0; 0]%Z [1; 1; 1]%Z
    [0; 1; 0]%Z [0; 0; 0]%Z [0; 0; 0]%Z
    [1; 1; 1]%Z [2; 2; 2]%Z [1; 1; 1]%Z [1; 2; 1]%Z
    [[0; 1; 2]; [0; 1; 2]; [0; 1; 2]]%Z.

Definition sevens : Gradients Z :=
  mkGradients Z [7; 7; 7]%Z [7; 7; 7]%Z [7; 7; 7]%Z.

End Momentum.

(** * Facts about the numbers *)



Lemma Qle_bool_false a b : Qle_bool a b = false <-> b < a.
Proof.
  split.
  - intros H. apply Qnot_le_lt. intros Hle.
    apply Qle_bool_iff in Hle. congruence.
  - intros H. destruct (Qle_bool a b) eqn:E; [|reflexivity].
    apply Qle_bool_iff in E. lra.
Qed.

Lemma wrap_int_small z : (- 2 ^ 31 <= z < 2 ^ 31)%Z -> wrap_int z = z.
Proof.
  intros H. unfold wrap_int. rewrite Z.mod_small; lia.
Qed.

Lemma shl1_pow2 rung : (rung <= 30)%nat -> shl1 rung = (2 ^ Z.of_nat rung)%Z.
Proof.
  intros H. unfold shl1. rewrite Z.shiftl_1_l.
  apply wrap_int_small. split.
  - pose proof (Z.pow_pos_nonneg 2 (Z.of_nat rung)). lia.
  - apply Z.pow_lt_mono_r; lia.
Qed.

Lemma shl1_mono r s :
  (r <= s)%nat -> (s <= 30)%nat -> inject_Z (shl1 r) <= inject_Z (shl1 s).
Proof.
  intros Hrs Hs. rewrite !shl1_pow2 by lia. rewrite <- Zle_Qle.
  apply Z.pow_le_mono_r; lia.
Qed.

(** [floor (log2 x)] for [1 <= x]: the [k] with [2^k <= x < 2^(k+1)]. *)
Lemma Zlog2_Qfloor_spec x :
  1 <= x ->
  (0 <= Z.log2 (Qfloor x))%Z /\
  inject_Z (2 ^ Z.log2 (Qfloor x)) <= x < inject_Z (2 ^ (Z.log2 (Qfloor x) + 1)).
Proof.
  intros Hx.
  assert (Hf : (1 <= Qfloor x)%Z).
  { change 1%Z with (Qfloor 1). by apply Qfloor_resp_le. }
  destruct (Z.log2_spec (Qfloor x)) as [Hlo Hhi]; [lia|].
  split; [apply Z.log2_nonneg|]. split.
  - eapply Qle_trans; [|apply Qfloor_le]. by rewrite <- Zle_Qle.
  - eapply Qlt_le_trans; [apply Qlt_floor|].
    rewrite <- Zle_Qle. unfold Z.succ in Hhi. lia.
Qed.

Lemma int_log2_ge1 x :
  1 <= x -> int_log2 x = Some (Z.log2 (Qfloor x)).
Proof.
  intros Hx. unfold int_log2.
  destruct (Qle_bool x 0) eqn:E0.
  { apply Qle_bool_iff in E0. lra. }
  destruct (Qle_bool 1 x) eqn:E1; [done|].
  apply Qle_bool_false in E1. lra.
Qed.

(** * Facts about binary floating point *)

(** ** Powers of two *)

Lemma pow2_pos e : 0 < pow2 e.
Proof. apply Qpower_0_lt. reflexivity. Qed.

Lemma pow2_add a b : pow2 (a + b) == pow2 a * pow2 b.
Proof. apply Qpower_plus. discriminate. Qed.

Lemma pow2_sub a b : pow2 (a - b) == pow2 a / pow2 b.
Proof. apply Qpower_minus. discriminate. Qed.

Lemma pow2_Z e : (0 <= e)%Z -> pow2 e == inject_Z (2 ^ e).
Proof. intros H. unfold pow2. by rewrite (Zpower_Qpower 2 e H). Qed.

Lemma pow2_lt a b : (a < b)%Z -> pow2 a < pow2 b.
Proof. intros H. apply Qpower_lt_compat_l; [done|reflexivity]. Qed.

Lemma pow2_le a b : (a <= b)%Z -> pow2 a <= pow2 b.
Proof. intros H. apply Qpower_le_compat_l; [done|discriminate]. Qed.

Lemma pow2_lt_inv a b : pow2 a < pow2 b -> (a < b)%Z.
Proof. intros H. eapply Qpower_lt_compat_l_inv; [exact H|reflexivity]. Qed.

Lemma pow2_0 : pow2 0 == 1.
Proof. reflexivity. Qed.

Lemma pow2_succ e : pow2 (e + 1) == 2 * pow2 e.
Proof. rewrite pow2_add. change (pow2 1) with 2. ring. Qed.

(** ** The whole part of the binary logarithm *)

Lemma Qlog2_spec x : 0 < x -> pow2 (Qlog2 x) <= x < pow2 (Qlog2 x + 1).
Proof.
  intros Hx. unfold Qlog2. destruct (Qle_bool 1 x) eqn:E.
  - apply Qle_bool_iff in E.
    assert (H1 : (1 <= Qfloor x)%Z).
    { change 1%Z with (Qfloor 1). by apply Qfloor_resp_le. }
    destruct (Z.log2_spec (Qfloor x)) as [Hlo Hhi]; [lia|].
    pose proof (Z.log2_nonneg (Qfloor x)) as H0.
    rewrite !pow2_Z by lia. split.
    + eapply Qle_trans; [|apply Qfloor_le]. by rewrite <- Zle_Qle.
    + eapply Qlt_le_trans; [apply Qlt_floor|]. rewrite <- Zle_Qle.
      replace (Z.succ (Z.log2 (Qfloor x))) with (Z.log2 (Qfloor x) + 1)%Z in Hhi
        by lia. lia.
  - assert (Hlt : x < 1).
    { apply Qnot_le_lt. intros H. apply Qle_bool_iff in H. congruence. }
    assert (Hinv : 1 < / x).
    { apply Qlt_shift_inv_l; [done|]. lra. }
    set (c := Qceiling (/ x)).
    assert (Hc : (1 < c)%Z).
    { rewrite Zlt_Qlt. eapply Qlt_le_trans; [exact Hinv|apply Qle_ceiling]. }
    destruct (Z.log2_up_spec c Hc) as [Hlo Hhi].
    pose proof (Z.log2_up_nonneg c) as H0.
    set (k := Z.log2_up c) in *.
    assert (Hk : (0 < k)%Z) by (by apply Z.log2_up_pos).
    split.
    + unfold pow2. rewrite Qpower_opp. fold (pow2 k). rewrite pow2_Z by lia.
      assert (Hp : 0 < inject_Z (2 ^ k)).
      { change 0 with (inject_Z 0). rewrite <- Zlt_Qlt. lia. }
      apply Qle_shift_inv_r; [done|].
      assert (Hxc : / x <= inject_Z (2 ^ k)).
      { eapply Qle_trans; [apply Qle_ceiling|]. by rewrite <- Zle_Qle. }
      assert (Hm : x * / x == 1) by (field; lra).
      nra.
    + replace (- k + 1)%Z with (- (k - 1))%Z by lia.
      unfold pow2. rewrite Qpower_opp. fold (pow2 (k - 1)).
      rewrite pow2_Z by lia.
      assert (Hp : 0 < inject_Z (2 ^ (k - 1))).
      { change 0 with (inject_Z 0). rewrite <- Zlt_Qlt. lia. }
      apply Qlt_shift_inv_l; [done|].
      assert (Hcx : inject_Z (2 ^ (k - 1)) < / x).
      { replace (Z.pred k) with (k - 1)%Z in Hlo by lia.
        assert (Hle : (2 ^ (k - 1) <= c - 1)%Z) by lia.
        eapply Qle_lt_trans; [|apply Qceiling_lt]. fold c.
        by rewrite <- Zle_Qle. }
      assert (Hm : x * / x == 1) by (field; lra).
      nra.
Qed.

Lemma Qlog2_unique x e : pow2 e <= x < pow2 (e + 1) -> Qlog2 x = e.
Proof.
  intros [Hlo Hhi].
  assert (Hx : 0 < x) by (eapply Qlt_le_trans; [apply (pow2_pos e)|done]).
  destruct (Qlog2_spec x Hx) as [Hlo' Hhi'].
  assert (H1 : (e < Qlog2 x + 1)%Z).
  { apply pow2_lt_inv. eapply Qle_lt_trans; done. }
  assert (H2 : (Qlog2 x < e + 1)%Z).
  { apply pow2_lt_inv. eapply Qle_lt_trans; done. }
  lia.
Qed.

Lemma Qlog2_comp x y : x == y -> Qlog2 x = Qlog2 y.
Proof.
  intros H. unfold Qlog2.
  assert (E : Qle_bool 1 x = Qle_bool 1 y).
  { apply eq_true_iff_eq. rewrite !Qle_bool_iff. by rewrite H. }
  rewrite E, (Qfloor_comp x y H).
  assert (H' : / x == / y) by (by rewrite H).
  by rewrite (Qceiling_comp _ _ H').
Qed.

(** ** Rounding to the nearest integer, ties to even *)

Lemma round_half_even_cases y :
  (round_half_even y = Qfloor y /\ y - inject_Z (Qfloor y) <= 1 # 2) \/
  (round_half_even y = (Qfloor y + 1)%Z /\ 1 # 2 <= y - inject_Z (Qfloor y)).
Proof.
  unfold round_half_even.
  destruct (Qcompare_spec (y - inject_Z (Qfloor y)) (1 # 2)) as [H|H|H].
  - destruct (Z.even (Qfloor y)); [left|right]; (split; [done|lra]).
  - left. split; [done|lra].
  - right. split; [done|lra].
Qed.

Lemma round_half_even_near y :
  inject_Z (round_half_even y) - (1 # 2) <= y <=
  inject_Z (round_half_even y) + (1 # 2).
Proof.
  pose proof (Qfloor_le y) as Hlo. pose proof (Qlt_floor y) as Hhi.
  rewrite inject_Z_plus in Hhi. change (inject_Z 1) with 1 in Hhi.
  destruct (round_half_even_cases y) as [[-> H]|[-> H]].
  - lra.
  - rewrite inject_Z_plus. change (inject_Z 1) with 1. lra.
Qed.

Lemma round_half_even_ge y J : inject_Z J <= y -> (J <= round_half_even y)%Z.
Proof.
  intros H. assert (HJ : (J <= Qfloor y)%Z).
  { rewrite <- (Qfloor_Z J). by apply Qfloor_resp_le. }
  destruct (round_half_even_cases y) as [[-> _]|[-> _]]; lia.
Qed.

Lemma round_half_even_le y J : y <= inject_Z J -> (round_half_even y <= J)%Z.
Proof.
  intros H. pose proof (Qfloor_le y) as Hlo.
  destruct (round_half_even_cases y) as [[-> _]|[-> Hr]].
  - rewrite Zle_Qle. lra.
  - assert (Hlt : inject_Z (Qfloor y) < inject_Z J) by lra.
    rewrite <- Zlt_Qlt in Hlt. lia.
Qed.

Lemma round_half_even_comp x y :
  x == y -> round_half_even x = round_half_even y.
Proof.
  intros H. unfold round_half_even. rewrite (Qfloor_comp x y H).
  assert (E : x - inject_Z (Qfloor y) == y - inject_Z (Qfloor y))
    by (by rewrite H).
  by rewrite (Qcompare_comp _ _ E _ _ (Qeq_refl (1 # 2))).
Qed.

(** ** Rounding to a binary format *)

Section Rounding.
Variables prec emin : Z.
Hypothesis prec_pos : (1 <= prec)%Z.


Lemma round_to_pos x :
  0 < x ->
  round_to prec emin x ==
    inject_Z (round_half_even (x / pow2 (ulp_exp prec emin x)))
    * pow2 (ulp_exp prec emin x).
Proof.
  intros Hx. unfold round_to.
  destruct (Qeq_bool x 0) eqn:E; [|apply Qred_correct].
  apply Qeq_bool_iff in E. lra.
Qed.

Lemma round_to_comp x y : x == y -> round_to prec emin x = round_to prec emin y.
Proof.
  intros H. unfold round_to.
  assert (E : Qeq_bool x 0 = Qeq_bool y 0).
  { apply eq_true_iff_eq. rewrite !Qeq_bool_iff. by rewrite H. }
  rewrite E. destruct (Qeq_bool y 0); [done|].
  unfold ulp_exp. rewrite (Qlog2_comp _ _ (Qabs_wd _ _ H)).
  set (u := (Z.max (Qlog2 (Qabs y)) emin - (prec - 1))%Z).
  assert (E' : x / pow2 u == y / pow2 u) by (by rewrite H).
  by rewrite (round_half_even_comp _ _ E').
Qed.

(** Rounding does not pass a number of the grid of [x]. *)
Lemma round_to_grid_ge x J :
  0 < x -> inject_Z J * pow2 (ulp_exp prec emin x) <= x ->
  inject_Z J * pow2 (ulp_exp prec emin x) <= round_to prec emin x.
Proof.
  intros Hx H. rewrite (round_to_pos x Hx).
  pose proof (pow2_pos (ulp_exp prec emin x)) as Hp.
  apply Qmult_le_compat_r; [|lra].
  rewrite <- Zle_Qle. apply round_half_even_ge.
  apply Qle_shift_div_l; done.
Qed.

Lemma round_to_grid_le x J :
  0 < x -> x <= inject_Z J * pow2 (ulp_exp prec emin x) ->
  round_to prec emin x <= inject_Z J * pow2 (ulp_exp prec emin x).
Proof.
  intros Hx H. rewrite (round_to_pos x Hx).
  pose proof (pow2_pos (ulp_exp prec emin x)) as Hp.
  apply Qmult_le_compat_r; [|lra].
  rewrite <- Zle_Qle. apply round_half_even_le.
  apply Qle_shift_div_r; done.
Qed.

(** The error of rounding is at most half a unit of the last place. *)
Lemma round_to_near x :
  0 < x ->
  x - pow2 (ulp_exp prec emin x - 1) <= round_to prec emin x <= x + pow2 (ulp_exp prec emin x - 1).
Proof.
  intros Hx. rewrite (round_to_pos x Hx).
  pose proof (pow2_pos (ulp_exp prec emin x)) as Hp.
  destruct (round_half_even_near (x / pow2 (ulp_exp prec emin x))) as [Hlo Hhi].
  set (N := inject_Z (round_half_even (x / pow2 (ulp_exp prec emin x)))) in *.
  assert (Hh : pow2 (ulp_exp prec emin x - 1) == pow2 (ulp_exp prec emin x) * (1 # 2)).
  { rewrite pow2_sub. change (pow2 1) with 2. field. }
  assert (Hy : x == (x / pow2 (ulp_exp prec emin x)) * pow2 (ulp_exp prec emin x)).
  { field. lra. }
  set (y := x / pow2 (ulp_exp prec emin x)) in *.
  rewrite Hh. split; nra.
Qed.

(** In the normal range the rounded number stays in the binade of
    [x]. *)
Lemma round_to_binade x :
  0 < x -> (emin <= Qlog2 x)%Z ->
  pow2 (Qlog2 x) <= round_to prec emin x <= pow2 (Qlog2 x + 1).
Proof.
  intros Hx He. destruct (Qlog2_spec x Hx) as [Hlo Hhi].
  assert (Hu : ulp_exp prec emin x = (Qlog2 x - (prec - 1))%Z).
  { unfold ulp_exp.
    rewrite (Qlog2_comp _ _ (Qabs_pos x (Qlt_le_weak _ _ Hx))). lia. }
  assert (E1 : pow2 (Qlog2 x) == inject_Z (2 ^ (prec - 1)) * pow2 (ulp_exp prec emin x)).
  { rewrite Hu, <- pow2_Z by lia. rewrite <- pow2_add.
    by replace (prec - 1 + (Qlog2 x - (prec - 1)))%Z with (Qlog2 x) by lia. }
  assert (E2 : pow2 (Qlog2 x + 1) == inject_Z (2 ^ prec) * pow2 (ulp_exp prec emin x)).
  { rewrite Hu, <- pow2_Z by lia. rewrite <- pow2_add.
    by replace (prec + (Qlog2 x - (prec - 1)))%Z with (Qlog2 x + 1)%Z by lia. }
  split.
  - rewrite E1. apply round_to_grid_ge; [done|]. by rewrite <- E1.
  - rewrite E2. apply round_to_grid_le; [done|]. rewrite <- E2. lra.
Qed.

End Rounding.

Lemma ulp_exp_pos prec emin x :
  0 < x -> ulp_exp prec emin x = (Z.max (Qlog2 x) emin - (prec - 1))%Z.
Proof.
  intros Hx. unfold ulp_exp.
  by rewrite (Qlog2_comp _ _ (Qabs_pos x (Qlt_le_weak _ _ Hx))).
Qed.

(** ** binary32 *)

Lemma round32_comp x y : x == y -> round32 x = round32 y.
Proof. apply round_to_comp. Qed.


Lemma round32_ge1 x : 1 <= x -> 1 <= round32 x.
Proof.
  intros Hx. assert (H0 : 0 < x) by lra.
  destruct (Qlog2_spec x H0) as [Hlo Hhi].
  assert (He : (0 <= Qlog2 x)%Z).
  { assert (H : (0 < Qlog2 x + 1)%Z); [|lia].
    apply pow2_lt_inv. rewrite pow2_0. lra. }
  destruct (round_to_binade 24 (-126) ltac:(lia) x H0 ltac:(lia)) as [H _].
  eapply Qle_trans; [|exact H]. rewrite <- pow2_0. by apply pow2_le.
Qed.

(** A whole number below [2^24] is a binary32 number. *)
Lemma round32_int K :
  (0 <= K < 2 ^ 24)%Z -> round32 (inject_Z K) == inject_Z K.
Proof.
  intros HK. destruct (decide (K = 0)%Z) as [->|Hne]; [reflexivity|].
  assert (H0 : 0 < inject_Z K).
  { change 0 with (inject_Z 0). rewrite <- Zlt_Qlt. lia. }
  destruct (Qlog2_spec _ H0) as [Hlo Hhi].
  set (e := Qlog2 (inject_Z K)) in *.
  assert (He : (e < 24)%Z).
  { apply pow2_lt_inv. eapply Qle_lt_trans; [exact Hlo|].
    rewrite pow2_Z by lia. rewrite <- Zlt_Qlt. lia. }
  pose proof (ulp_exp_pos 24 (-126) _ H0) as Hu. fold e in Hu.
  set (u := ulp_exp 24 (-126) (inject_Z K)) in *.
  assert (Hu0 : (u <= 0)%Z) by lia.
  assert (E : inject_Z K == inject_Z (K * 2 ^ (- u)) * pow2 u).
  { rewrite inject_Z_mult, <- pow2_Z by lia.
    rewrite <- Qmult_assoc, <- pow2_add.
    replace (- u + u)%Z with 0%Z by lia. rewrite pow2_0. ring. }
  apply Qle_antisym.
  - rewrite E at 2. apply (round_to_grid_le 24 (-126)); [done|].
    fold u. rewrite <- E. apply Qle_refl.
  - rewrite E at 1. apply (round_to_grid_ge 24 (-126)); [done|].
    fold u. rewrite <- E. apply Qle_refl.
Qed.

(** Below [2^24] rounding does not pass a whole number. *)
Lemma round32_ge_int x K :
  0 < x -> x < inject_Z (2 ^ 24) -> (0 <= K)%Z -> inject_Z K <= x ->
  inject_Z K <= round32 x.
Proof.
  intros H0 Hx HK Hle.
  destruct (Qlog2_spec _ H0) as [Hlo Hhi].
  set (e := Qlog2 x) in *.
  assert (He : (e < 24)%Z).
  { apply pow2_lt_inv. eapply Qle_lt_trans; [exact Hlo|].
    by rewrite pow2_Z by lia. }
  pose proof (ulp_exp_pos 24 (-126) _ H0) as Hu. fold e in Hu.
  set (u := ulp_exp 24 (-126) x) in *.
  assert (Hu0 : (u <= 0)%Z) by lia.
  assert (E : inject_Z K == inject_Z (K * 2 ^ (- u)) * pow2 u).
  { rewrite inject_Z_mult, <- pow2_Z by lia.
    rewrite <- Qmult_assoc, <- pow2_add.
    replace (- u + u)%Z with 0%Z by lia. rewrite pow2_0. ring. }
  rewrite E. apply (round_to_grid_ge 24 (-126)); [done|].
  fold u. by rewrite <- E.
Qed.

(** The relative error in the normal range. *)
Lemma round32_rel x :
  0 < x -> (-126 <= Qlog2 x)%Z ->
  x * (1 - (1 # 16777216)) <= round32 x <= x * (1 + (1 # 16777216)).
Proof.
  intros H0 He. destruct (Qlog2_spec _ H0) as [Hlo _].
  destruct (round_to_near 24 (-126) x H0) as [H1 H2].
  rewrite (ulp_exp_pos 24 (-126) _ H0) in H1, H2.
  replace (Z.max (Qlog2 x) (-126) - (24 - 1) - 1)%Z with (Qlog2 x - 24)%Z
    in H1, H2 by lia.
  assert (E : pow2 (Qlog2 x - 24) == pow2 (Qlog2 x) * (1 # 16777216)).
  { rewrite pow2_sub. change (pow2 24) with (inject_Z 16777216). field. }
  rewrite E in H1, H2. fold round32 in H1, H2. split; nra.
Qed.

Lemma is_bin32_pos x :
  0 < x -> is_bin32 x ->
  exists m e, (0 < m < 2 ^ 24)%Z /\ x == inject_Z m * pow2 e.
Proof.
  intros Hx (m & e & Hm & E). exists m, e. split; [|done].
  pose proof (pow2_pos e) as Hp.
  assert (H0 : 0 < inject_Z m) by (rewrite E in Hx; nra).
  change 0 with (inject_Z 0) in H0. rewrite <- Zlt_Qlt in H0. lia.
Qed.

(** The quotient of two binary32 numbers that lies below a power of two
    lies below the binary32 number in front of that power. *)
Lemma bin32_quotient_gap a b k :
  0 < a -> 0 < b -> is_bin32 a -> is_bin32 b ->
  a / b < pow2 k ->
  a / b <= inject_Z (2 ^ 24 - 1) * pow2 (k - 24).
Proof.
  intros Ha Hb Ba Bb Hlt.
  destruct (is_bin32_pos a Ha Ba) as (ma & ea & Hma & Ea).
  destruct (is_bin32_pos b Hb Bb) as (mb & eb & Hmb & Eb).
  set (d := (ea - eb - k)%Z).
  pose proof (pow2_pos k) as Hk. pose proof (pow2_pos d) as Hd.
  pose proof (pow2_pos ea) as Hea. pose proof (pow2_pos eb) as Heb.
  assert (Qa : 0 < inject_Z ma).
  { change 0 with (inject_Z 0). rewrite <- Zlt_Qlt. lia. }
  assert (Qb : 0 < inject_Z mb).
  { change 0 with (inject_Z 0). rewrite <- Zlt_Qlt. lia. }
  assert (Ed : pow2 ea == pow2 d * pow2 eb * pow2 k).
  { rewrite <- !pow2_add. by replace (d + eb + k)%Z with ea by (unfold d; lia). }
  assert (Ex : a / b == inject_Z ma * pow2 d / inject_Z mb * pow2 k).
  { rewrite Ea, Eb, Ed. field. split; lra. }
  assert (Ek : pow2 (k - 24) == pow2 k / inject_Z (2 ^ 24)).
  { rewrite pow2_sub. by rewrite (pow2_Z 24). }
  rewrite Ex in Hlt. rewrite Ex, Ek.
  change (2 ^ 24 - 1)%Z with 16777215%Z.
  change (2 ^ 24)%Z with 16777216%Z in *.
  set (t := inject_Z ma * pow2 d) in *.
  set (M := inject_Z mb) in *.
  set (s := t / M) in *.
  assert (Es : s * M == t) by (unfold s; field; lra).
  assert (Hs : s < 1) by nra.
  assert (Ht : t < M) by nra.
  assert (Hz : t * inject_Z 16777216 <= M * inject_Z 16777215).
  { unfold t, M in *. destruct (Z_le_gt_dec 0 d) as [Hd0|Hd0].
    - rewrite (pow2_Z d Hd0) in *.
      rewrite <- !inject_Z_mult in *. rewrite <- Zlt_Qlt in Ht.
      rewrite <- Zle_Qle.
      assert (0 < 2 ^ d)%Z by lia.
      set (P := (ma * 2 ^ d)%Z) in *. lia.
    - assert (Ed' : pow2 d == / inject_Z (2 ^ (- d))).
      { replace d with (- (- d))%Z at 1 by lia. unfold pow2.
        rewrite Qpower_opp. fold (pow2 (- d)). by rewrite pow2_Z by lia. }
      assert (HD : 0 < inject_Z (2 ^ (- d))).
      { change 0 with (inject_Z 0). rewrite <- Zlt_Qlt. lia. }
      rewrite Ed' in Ht |- *.
      set (D := inject_Z (2 ^ (- d))) in *.
      assert (ED : / D * D == 1) by (field; lra).
      assert (Ht' : inject_Z ma < inject_Z mb * D) by nra.
      unfold D in Ht'. rewrite <- inject_Z_mult, <- Zlt_Qlt in Ht'.
      assert (Hg : inject_Z ma * inject_Z 16777216
                   <= inject_Z mb * D * inject_Z 16777215).
      { unfold D. rewrite <- !inject_Z_mult, <- Zle_Qle.
        set (P := (mb * 2 ^ (- d))%Z) in *. lia. }
      assert (Hv : 0 < / D) by (by apply Qinv_lt_0_compat).
      pose proof (Qmult_le_compat_r _ _ (/ D) Hg (Qlt_le_weak _ _ Hv)) as Hg'.
      assert (E1 : inject_Z mb * D * inject_Z 16777215 * / D
                   == inject_Z mb * inject_Z 16777215) by (field; lra).
      rewrite E1 in Hg'. lra. }
  change (inject_Z 16777216) with 16777216 in *.
  change (inject_Z 16777215) with 16777215 in *.
  assert (Hs' : s * 16777216 <= 16777215) by nra.
  assert (E2 : 16777215 * (pow2 k / 16777216)
               == (16777215 # 16777216) * pow2 k) by field.
  rewrite E2. apply Qmult_le_compat_r; lra.
Qed.

Lemma Qlog2_ge1 x : 1 <= x -> Qlog2 x = Z.log2 (Qfloor x).
Proof.
  intros H. unfold Qlog2. apply Qle_bool_iff in H. by rewrite H.
Qed.

Lemma Qlog2_nonneg x : 1 <= x -> (0 <= Qlog2 x)%Z.
Proof.
  intros H. rewrite (Qlog2_ge1 x H). apply Z.log2_nonneg.
Qed.

(** The binary32 quotient of two binary32 numbers has the binary
    logarithm of the exact quotient, as far as the whole part goes. *)
Lemma round32_quotient_log2 a b :
  0 < a -> 0 < b -> is_bin32 a -> is_bin32 b -> 1 <= a / b ->
  Z.log2 (Qfloor (round32 (a / b))) = Z.log2 (Qfloor (a / b)).
Proof.
  intros Ha Hb Ba Bb Hq.
  set (x := a / b) in *. assert (H0 : 0 < x) by lra.
  pose proof (Qlog2_nonneg x Hq) as He.
  destruct (Qlog2_spec x H0) as [Hlo Hhi].
  rewrite <- (Qlog2_ge1 x Hq), <- (Qlog2_ge1 _ (round32_ge1 x Hq)).
  apply Qlog2_unique.
  destruct (round_to_binade 24 (-126) ltac:(lia) x H0 ltac:(lia)) as [H1 _].
  split; [exact H1|].
  pose proof (bin32_quotient_gap a b (Qlog2 x + 1) Ha Hb Ba Bb Hhi) as Hgap.
  fold x in Hgap.
  assert (Hu : ulp_exp 24 (-126) x = (Qlog2 x + 1 - 24)%Z).
  { rewrite (ulp_exp_pos _ _ _ H0). lia. }
  rewrite <- Hu in Hgap.
  pose proof (round_to_grid_le 24 (-126) x _ H0 Hgap) as Hr.
  eapply Qle_lt_trans; [exact Hr|].
  assert (E : pow2 (Qlog2 x + 1)
              == inject_Z (2 ^ 24) * pow2 (ulp_exp 24 (-126) x)).
  { rewrite Hu, <- (pow2_Z 24) by lia. rewrite <- pow2_add.
    by replace (24 + (Qlog2 x + 1 - 24))%Z with (Qlog2 x + 1)%Z by lia. }
  rewrite E. apply Qmult_lt_compat_r; [apply pow2_pos|].
  rewrite <- Zlt_Qlt. lia.
Qed.

(** ** The quotient of two [float]s *)

Lemma float_div_pos a b :
  0 <= a -> 0 < b -> a < bin32_overflow * b ->
  float_div a b = Some (round32 (a / b)).
Proof.
  intros Ha Hb Hlt. unfold float_div.
  destruct (Qeq_bool b 0) eqn:E.
  { apply Qeq_bool_iff in E. lra. }
  assert (Hq : 0 <= a / b) by (apply Qle_shift_div_l; lra).
  assert (Hq' : a / b < bin32_overflow) by (apply Qlt_shift_div_r; lra).
  destruct (Qle_bool bin32_overflow (Qabs (a / b))) eqn:E'; [|done].
  apply Qle_bool_iff in E'. rewrite (Qabs_pos _ Hq) in E'. lra.
Qed.

Lemma float_div_inv a b q :
  float_div a b = Some q ->
  ~ b == 0 /\ Qabs (a / b) < bin32_overflow /\ q = round32 (a / b).
Proof.
  unfold float_div. destruct (Qeq_bool b 0) eqn:E; [done|].
  destruct (Qle_bool bin32_overflow (Qabs (a / b))) eqn:E'; [done|].
  intros [= <-]. split; [by apply Qeq_bool_neq|]. split; [|done].
  by apply Qle_bool_false.
Qed.


Lemma list_min_le_head x l : list_min x l <= x.
Proof.
  unfold list_min. revert x. induction l as [|y l IH]; intros x; simpl.
  - lra.
  - eapply Qle_trans; [apply IH|]. apply Q.le_min_l.
Qed.

Lemma list_min_le_elem x l y : y ∈ l -> list_min x l <= y.
Proof.
  unfold list_min. revert x. induction l as [|z l IH]; intros x Hy; simpl.
  - by apply elem_of_nil in Hy.
  - apply elem_of_cons in Hy as [->|Hy].
    + eapply Qle_trans; [apply (list_min_le_head (Qmin x z) l)|].
      apply Q.le_min_r.
    + by apply IH.
Qed.

Lemma Qmin_cases x z : Qmin x z = x \/ Qmin x z = z.
Proof.
  unfold Qmin, GenericMinMax.gmin. destruct (x ?= z); auto.
Qed.

Lemma list_min_elem x l : list_min x l = x \/ list_min x l ∈ l.
Proof.
  unfold list_min. revert x. induction l as [|z l IH]; intros x; simpl.
  - by left.
  - destruct (IH (Qmin x z)) as [E|E].
    + rewrite E. destruct (Qmin_cases x z) as [->| ->]; [by left|].
      right. apply elem_of_cons. by left.
    + right. apply elem_of_cons. by right.
Qed.

Lemma ascending_cons_inv x a : ascending (x :: a) -> ascending a.
Proof.
  intros H i j u v Hij Hi Hj. by apply (H (S i) (S j) u v); [lia|..].
Qed.

Lemma ascending_nil : ascending [].
Proof. intros i j x y _ Hi. by rewrite lookup_nil in Hi. Qed.

Lemma ascending_take n a : ascending a -> ascending (take n a).
Proof.
  intros H i j x y Hij Hi Hj.
  apply lookup_take_Some in Hi as [Hi _]. apply lookup_take_Some in Hj as [Hj _].
  by apply (H i j).
Qed.


Lemma find_index_le {A} (p : A -> bool) (l : list A) :
  (find_index p l <= length l)%nat.
Proof. induction l as [|y l IH]; simpl; [lia|]. destruct (p y); lia. Qed.

Lemma find_index_before {A} (p : A -> bool) (l : list A) i x :
  (i < find_index p l)%nat -> l !! i = Some x -> p x = false.
Proof.
  revert i. induction l as [|y l IH]; intros i Hi Hx; simpl in *; [lia|].
  destruct (p y) eqn:E; [lia|].
  destruct i as [|i]; simpl in Hx.
  - congruence.
  - apply (IH i); [lia|done].
Qed.

Lemma find_index_at {A} (p : A -> bool) (l : list A) x :
  l !! find_index p l = Some x -> p x = true.
Proof.
  induction l as [|y l IH]; simpl; [done|].
  destruct (p y) eqn:E; simpl; [congruence|done].
Qed.

(** * Facts about the helpers of cstone *)

Section Sorting.
Import Rungs.

Lemma insert_by_key_perm kv l : Permutation (insert_by_key kv l) (kv :: l).
Proof.
  induction l as [|y l IH]; simpl; [done|].
  destruct (Qle_bool kv.1 y.1); [done|].
  rewrite IH. apply Permutation_swap.
Qed.

Lemma sortByKeyGpu_perm l : Permutation (sortByKeyGpu l) l.
Proof.
  induction l as [|x l IH]; simpl; [done|].
  rewrite insert_by_key_perm. by constructor.
Qed.

Lemma sortByKeyGpu_length l : length (sortByKeyGpu l) = length l.
Proof. apply Permutation_length, sortByKeyGpu_perm. Qed.

Lemma insert_by_key_sorted kv l :
  StronglySorted key_le l -> StronglySorted key_le (insert_by_key kv l).
Proof.
  induction 1 as [|y l Hs IH Hall]; simpl.
  - repeat constructor.
  - destruct (Qle_bool kv.1 y.1) eqn:E.
    + apply Qle_bool_iff in E. constructor; [by constructor|].
      constructor; [done|].
      eapply Forall_impl; [exact Hall|]. unfold key_le. intros z Hz. lra.
    + apply Qle_bool_false in E. constructor; [done|].
      rewrite insert_by_key_perm. constructor; [|done].
      unfold key_le. lra.
Qed.

Lemma sortByKeyGpu_sorted l : StronglySorted key_le (sortByKeyGpu l).
Proof.
  induction l as [|x l IH]; simpl; [constructor|].
  by apply insert_by_key_sorted.
Qed.

(** Sorting what is sorted changes nothing. *)
Lemma sortByKeyGpu_id l : StronglySorted key_le l -> sortByKeyGpu l = l.
Proof.
  induction 1 as [|x l Hs IH Hall]; simpl; [done|].
  rewrite IH. destruct l as [|y l]; simpl; [done|].
  apply Forall_cons in Hall as [Hxy _].
  apply Qle_bool_iff in Hxy. by rewrite Hxy.
Qed.

Lemma key_sorted_ascending l : StronglySorted key_le l -> ascending (l.*1).
Proof.
  induction 1 as [|x l Hs IH Hall]; [apply ascending_nil|].
  intros i j u v Hij Hi Hj. destruct i as [|i], j as [|j]; simpl in *.
  - injection Hi as <-. injection Hj as <-. lra.
  - injection Hi as <-.
    apply list_lookup_fmap_Some in Hj as (z & -> & Hz).
    rewrite Forall_forall in Hall. apply Hall.
    by apply list_elem_of_lookup_2 in Hz.
  - lia.
  - apply (IH i j); [lia|done..].
Qed.

Lemma ascending_key_sorted a s :
  ascending a -> StronglySorted key_le (zip a (seq s (length a))).
Proof.
  revert s. induction a as [|x a IH]; intros s Ha; simpl; [constructor|].
  constructor.
  - apply IH. by eapply ascending_cons_inv.
  - apply Forall_forall. intros [k g] Hin.
    apply list_elem_of_lookup in Hin as [i Hi].
    apply lookup_zip_with_Some in Hi as (k' & g' & [= <- <-] & Hk & _).
    unfold key_le. simpl. by apply (Ha 0%nat (S i)); [lia|..].
Qed.

(** A pair of the sorted list carries the key its index had before. *)
Lemma sortByKeyGpu_tracks a n p k g :
  sortByKeyGpu (zip a (seq 0 n)) !! p = Some (k, g) ->
  a !! g = Some k /\ (g < n)%nat.
Proof.
  intros Hp. apply list_elem_of_lookup_2 in Hp.
  rewrite sortByKeyGpu_perm in Hp.
  apply list_elem_of_lookup in Hp as [i Hi].
  apply lookup_zip_with_Some in Hi as (k' & g' & [= <- <-] & Hk & Hg).
  apply lookup_seq in Hg as [-> Hlt]. simpl. done.
Qed.

(** ** The search *)

Lemma search_loop_spec fuel a v first count :
  ascending a ->
  (count <= fuel)%nat ->
  (first + count <= length a)%nat ->
  (forall i x, (i < first)%nat -> a !! i = Some x -> x <= v) ->
  (forall i x, (first + count <= i)%nat -> a !! i = Some x -> v < x) ->
  let r := search_loop fuel a v first count in
  (first <= r <= first + count)%nat /\
  (forall i x, (i < r)%nat -> a !! i = Some x -> x <= v) /\
  (forall i x, (r <= i)%nat -> a !! i = Some x -> v < x).
Proof.
  intros Ha. revert first count.
  induction fuel as [|fuel IH]; intros first count Hfuel Hlen Hlo Hhi;
    cbn [search_loop].
  - assert (count = 0)%nat as -> by lia.
    split; [lia|]. split; [done|].
    intros i x Hi. apply Hhi. lia.
  - destruct (count =? 0)%nat eqn:E0.
    { apply Nat.eqb_eq in E0 as ->. split; [lia|]. split; [done|].
      intros i x Hi. apply Hhi. lia. }
    apply Nat.eqb_neq in E0.
    pose proof (Nat.div_lt count 2 ltac:(lia) ltac:(lia)) as Hstep.
    destruct (a !! (first + count / 2)%nat) as [x|] eqn:Ex.
    2:{ apply lookup_ge_None in Ex. lia. }
    destruct (Qle_bool x v) eqn:Ev.
    + apply Qle_bool_iff in Ev.
      destruct (IH (S (first + count / 2)) (count - (count / 2 + 1))%nat)
        as (Hr & Hb & Ha'); [lia|lia| | |].
      * intros i y Hi Hy.
        destruct (decide (i < first)%nat) as [Hif|Hif]; [by eapply Hlo|].
        assert (y <= x) by (apply (Ha i (first + count / 2)%nat); [lia|done..]).
        lra.
      * intros i y Hi Hy. apply (Hhi i); [lia|done].
      * split; [lia|]. done.
    + apply Qle_bool_false in Ev.
      destruct (IH first (count / 2)%nat) as (Hr & Hb & Ha'); [lia|lia|done| |].
      * intros i y Hi Hy.
        assert (x <= y) by (apply (Ha (first + count / 2)%nat i); [lia|done..]).
        lra.
      * split; [lia|]. done.
Qed.

Lemma lowerBoundGpu_spec a n v :
  (n <= length a)%nat ->
  ascending (take n a) ->
  let r := lowerBoundGpu a n v in
  (r <= n)%nat /\
  (forall i x, (i < r)%nat -> a !! i = Some x -> x <= v) /\
  (forall i x, (r <= i < n)%nat -> a !! i = Some x -> v < x).
Proof.
  intros Hn Ha. unfold lowerBoundGpu.
  destruct (search_loop_spec n (take n a) v 0 n) as (Hr & Hb & Hc);
    [done|lia|rewrite length_take; lia|lia| |].
  { intros i x Hi Hx. apply lookup_take_Some in Hx. lia. }
  simpl. split; [lia|]. split.
  - intros i x Hi Hx. apply (Hb i); [done|].
    apply lookup_take_Some. split; [done|lia].
  - intros i x Hi Hx. apply (Hc i); [lia|].
    apply lookup_take_Some. split; [done|lia].
Qed.


Lemma lowerBoundGpu_mono a n v w :
  (n <= length a)%nat ->
  ascending (take n a) ->
  v <= w ->
  (lowerBoundGpu a n v <= lowerBoundGpu a n w)%nat.
Proof.
  intros Hn Ha Hvw.
  destruct (lowerBoundGpu_spec a n v Hn Ha) as (Hr & Hb & Hc).
  destruct (lowerBoundGpu_spec a n w Hn Ha) as (Hr' & Hb' & Hc').
  simpl in *.
  destruct (decide (lowerBoundGpu a n v <= lowerBoundGpu a n w)%nat)
    as [|Hlt]; [done|].
  destruct (lookup_lt_is_Some_2 a (lowerBoundGpu a n w)) as [x Hx]; [lia|].
  assert (x <= v) by (apply (Hb (lowerBoundGpu a n w) x); [lia|done]).
  assert (w < x) by (apply (Hc' (lowerBoundGpu a n w) x); [lia|done]).
  lra.
Qed.

End Sorting.

(** * Facts about ts_rungs.hpp *)

Section RungFacts.
Import Rungs.

Lemma sortGroupDt_Some dt idx n :
  (n <= length dt)%nat -> (n <= length idx)%nat ->
  sortGroupDt dt idx n =
    Some ((sortByKeyGpu (zip (take n dt) (seq 0 n))).*1 ++ drop n dt,
          (sortByKeyGpu (zip (take n dt) (seq 0 n))).*2 ++ drop n idx).
Proof.
  intros H1 H2. unfold sortGroupDt. by rewrite decide_True.
Qed.

Lemma sortGroupDt_inv dt idx n dt' idx' :
  sortGroupDt dt idx n = Some (dt', idx') ->
  (n <= length dt)%nat /\ (n <= length idx)%nat /\
  dt' = (sortByKeyGpu (zip (take n dt) (seq 0 n))).*1 ++ drop n dt /\
  idx' = (sortByKeyGpu (zip (take n dt) (seq 0 n))).*2 ++ drop n idx.
Proof.
  unfold sortGroupDt. case_decide as H; [|done].
  intros [= <- <-]. tauto.
Qed.

Lemma sorted_pairs_length dt n :
  (n <= length dt)%nat ->
  length (sortByKeyGpu (zip (take n dt) (seq 0 n))) = n.
Proof.
  intros H. rewrite sortByKeyGpu_length, length_zip_with, length_take, length_seq.
  lia.
Qed.

(** What [sortGroupDt] leaves in the buffers. *)
Lemma sortGroupDt_spec dt idx n dt' idx' :
  sortGroupDt dt idx n = Some (dt', idx') ->
  (n <= length dt')%nat /\ (n <= length idx')%nat /\
  ascending (take n dt') /\
  Permutation (take n dt') (take n dt) /\
  (forall p, (p < n)%nat ->
     exists k g, dt' !! p = Some k /\ idx' !! p = Some g /\
                 dt !! g = Some k /\ (g < n)%nat).
Proof.
  intros H. apply sortGroupDt_inv in H as (Hn & Hn' & -> & ->).
  pose proof (sorted_pairs_length dt n Hn) as Hlen.
  set (kv := sortByKeyGpu (zip (take n dt) (seq 0 n))) in *.
  assert (Htake : take n (kv.*1 ++ drop n dt) = kv.*1).
  { rewrite take_app_le; [|rewrite length_fmap; lia].
    apply take_ge. rewrite length_fmap. lia. }
  split; [rewrite length_app, length_fmap; lia|].
  split; [rewrite length_app, length_fmap; lia|].
  rewrite Htake. split; [apply key_sorted_ascending, sortByKeyGpu_sorted|].
  split.
  - unfold kv. rewrite sortByKeyGpu_perm.
    rewrite fst_zip; [done|]. rewrite length_take, length_seq. lia.
  - intros p Hp.
    destruct (lookup_lt_is_Some_2 kv p) as [[k g] Hkg]; [lia|].
    exists k, g.
    rewrite !lookup_app_l; [|rewrite length_fmap; lia..].
    rewrite !list_lookup_fmap, Hkg. simpl.
    apply sortByKeyGpu_tracks in Hkg as [Hk Hg].
    apply lookup_take_Some in Hk as [Hk _]. done.
Qed.

(** Sorting the sorted buffer again leaves it as it is. *)
Lemma sortGroupDt_again dt idx n dt' idx' :
  sortGroupDt dt idx n = Some (dt', idx') ->
  exists idx'', sortGroupDt dt' idx' n = Some (dt', idx'').
Proof.
  intros H. destruct (sortGroupDt_spec _ _ _ _ _ H) as (Hn & Hn' & Hasc & _).
  rewrite sortGroupDt_Some; [|done..]. eexists. f_equal. f_equal.
  assert (Hl : length (take n dt') = n) by (rewrite length_take; lia).
  pose proof (ascending_key_sorted (take n dt') 0 Hasc) as Hs.
  rewrite Hl in Hs. rewrite (sortByKeyGpu_id _ Hs).
  rewrite fst_zip; [|rewrite length_seq; lia].
  apply take_drop.
Qed.

Lemma fastIndex_lt n :
  (1 <= n)%nat ->
  exists k, fastIndex fastFraction_0_4 n = Some k /\ (k < n)%nat.
Proof.
  intros Hn. unfold fastIndex, fastFraction_0_4.
  set (N := inject_Z (Z.of_nat n)).
  assert (HN : 1 <= N).
  { unfold N. change 1 with (inject_Z 1). rewrite <- Zle_Qle. lia. }
  assert (HN0 : 0 < N) by lra.
  destruct (round32_rel N HN0) as [Hlo Hhi].
  { pose proof (Qlog2_nonneg N HN). lia. }
  set (f := round32 N) in *.
  set (x := (13421773 # 33554432) * f).
  assert (Hx : 1 # 4 <= x) by (unfold x; nra).
  assert (Hx0 : 0 < x) by lra.
  destruct (round32_rel x Hx0) as [Hlo' Hhi'].
  { assert (H : (-3 < Qlog2 x + 1)%Z); [|lia].
    apply pow2_lt_inv. destruct (Qlog2_spec x Hx0) as [_ H].
    eapply Qle_lt_trans; [|exact H]. change (pow2 (-3)) with (1 # 8). lra. }
  set (p := round32 x) in *.
  assert (Hp0 : 0 <= p) by nra.
  assert (HpN : p < N) by (unfold x in *; nra).
  apply Qle_bool_iff in Hp0 as Hb. rewrite Hb.
  eexists. split; [done|].
  assert (Hfl : (0 <= Qfloor p < Z.of_nat n)%Z).
  { split.
    - change 0%Z with (Qfloor 0). by apply Qfloor_resp_le.
    - rewrite Zlt_Qlt. eapply Qle_lt_trans; [apply Qfloor_le|done]. }
  lia.
Qed.

(** With at least one group, the two numbers a rank contributes are its
    least timestep and one not below it. *)
Lemma timestepRangeGpu_spec dt n :
  (1 <= n <= length dt)%nat ->
  ascending (take n dt) ->
  exists a b, timestepRangeGpu dt n fastFraction_0_4 = Some (a, b) /\
    dt !! 0%nat = Some a /\ b ∈ take n dt /\ a <= b /\
    (forall v, v ∈ take n dt -> a <= v).
Proof.
  intros Hn Hasc. unfold timestepRangeGpu.
  destruct (fastIndex_lt n) as (k & -> & Hk); [lia|].
  destruct (lookup_lt_is_Some_2 dt 0) as [a Ha]; [lia|].
  destruct (lookup_lt_is_Some_2 dt k) as [b Hb]; [lia|].
  rewrite Ha. simpl. rewrite Hb. simpl. exists a, b.
  assert (Ha' : take n dt !! 0%nat = Some a)
    by (apply lookup_take_Some; split; [done|lia]).
  assert (Hb' : take n dt !! k = Some b)
    by (apply lookup_take_Some; split; [done|lia]).
  split; [done|]. split; [done|].
  split; [by eapply list_elem_of_lookup_2|].
  split; [apply (Hasc 0%nat k); [lia|done..]|].
  intros v Hv. apply list_elem_of_lookup in Hv as [i Hi].
  apply (Hasc 0%nat i); [lia|done..].
Qed.

Lemma foldl_insert_seq_lookup (f : nat -> nat) c s (l : list nat) j :
  foldl (fun rr rung => <[rung := f rung]> rr) l (seq s c) !! j =
    if decide ((s <= j < s + c)%nat /\ (j < length l)%nat)
    then Some (f j) else l !! j.
Proof.
  revert s l. induction c as [|c IH]; intros s l; simpl.
  - rewrite decide_False; [done|lia].
  - rewrite IH, length_insert.
    destruct (decide (j = s)) as [->|Hne].
    + rewrite decide_False; [|lia].
      case_decide as H.
      * apply list_lookup_insert_eq. lia.
      * rewrite list_insert_ge; [done|lia].
    + rewrite list_lookup_insert_ne; [|done].
      case_decide as H1; case_decide as H2; try done; lia.
Qed.

Lemma rungLoop_lookup dt n m nr rr0 j :
  rungLoop dt n m nr rr0 !! j =
    if decide ((1 <= j)%nat /\ (Z.of_nat j < nr)%Z /\ (j < length rr0)%nat)
    then Some (lowerBoundGpu dt n (inject_Z (shl1 j) * m))
    else rr0 !! j.
Proof.
  unfold rungLoop.
  rewrite (foldl_insert_seq_lookup
             (fun rung => lowerBoundGpu dt n (inject_Z (shl1 rung) * m))).
  case_decide as H1; case_decide as H2; try done; lia.
Qed.

Lemma rungLoop_length dt n m nr rr0 :
  length (rungLoop dt n m nr rr0) = length rr0.
Proof.
  unfold rungLoop. generalize (seq 1 (Z.to_nat nr - 1)). intros l.
  revert rr0. induction l as [|x l IH]; intros rr0; simpl; [done|].
  by rewrite IH, length_insert.
Qed.

End RungFacts.

Section RungRun.
Import Rungs.
Variable maxNumRungs : nat.

(** The steps of a call that returns. *)
Lemma computeRungTimestep_inv peers n dt idx ts dt' idx' :
  computeRungTimestep maxNumRungs true peers n dt idx = Some (ts, dt', idx') ->
  exists a b q k,
    sortGroupDt dt idx n = Some (dt', idx') /\
    timestepRangeGpu dt' n fastFraction_0_4 = Some (a, b) /\
    float_div (list_min b peers.*2) (list_min a peers.*1) = Some q /\
    int_log2 q = Some k /\
    ts = {| minDt := list_min a peers.*1;
            numRungs := Z.min (k + 1) (Z.of_nat maxNumRungs);
            substep := 0;
            rungRanges :=
              rungLoop dt' n (list_min a peers.*1)
                (Z.min (k + 1) (Z.of_nat maxNumRungs))
                (0%nat :: replicate maxNumRungs n);
            dt_drift := replicate maxNumRungs 0 |}.
Proof.
  unfold computeRungTimestep, mpiAllreduce_min. intros H.
  destruct (sortGroupDt dt idx n) as [[dt1 idx1]|] eqn:Es; [|done].
  simpl in H.
  destruct (timestepRangeGpu dt1 n fastFraction_0_4) as [[a b]|] eqn:Er;
    [|done].
  simpl in H.
  destruct (float_div (list_min b peers.*2) (list_min a peers.*1))
    as [q|] eqn:Eq; [|done].
  simpl in H.
  destruct (int_log2 q) as [k|] eqn:Ek; [|done].
  simpl in H. injection H as <- <- <-.
  exists a, b, q, k. done.
Qed.

Lemma computeRungTimestep_steps peers n dt idx dt' idx' a b q k :
  sortGroupDt dt idx n = Some (dt', idx') ->
  timestepRangeGpu dt' n fastFraction_0_4 = Some (a, b) ->
  float_div (list_min b peers.*2) (list_min a peers.*1) = Some q ->
  int_log2 q = Some k ->
  computeRungTimestep maxNumRungs true peers n dt idx =
    Some ({| minDt := list_min a peers.*1;
             numRungs := Z.min (k + 1) (Z.of_nat maxNumRungs);
             substep := 0;
             rungRanges :=
               rungLoop dt' n (list_min a peers.*1)
                 (Z.min (k + 1) (Z.of_nat maxNumRungs))
                 (0%nat :: replicate maxNumRungs n);
             dt_drift := replicate maxNumRungs 0 |}, dt', idx').
Proof.
  intros Es Er Eq Ek. unfold computeRungTimestep, mpiAllreduce_min.
  rewrite Es. simpl. rewrite Er. simpl. rewrite Eq. simpl. rewrite Ek.
  done.
Qed.

(** The host instantiation reads [minGroupDt] before anything wrote it. *)
Lemma computeRungTimestep_host peers n dt idx :
  computeRungTimestep maxNumRungs false peers n dt idx = None.
Proof. done. Qed.

Lemma localRange_spec rk :
  has_groups rk ->
  exists a b dt' idx',
    sortGroupDt (groupDt rk) (groupIndices rk) (numGroups rk) = Some (dt', idx') /\
    timestepRangeGpu dt' (numGroups rk) fastFraction_0_4 = Some (a, b) /\
    localRange rk = Some (a, b) /\
    a ∈ take (numGroups rk) (groupDt rk) /\
    b ∈ take (numGroups rk) (groupDt rk) /\
    a <= b /\
    (forall v, v ∈ take (numGroups rk) (groupDt rk) -> a <= v).
Proof.
  intros [[Hn1 Hn2] Hn3]. unfold localRange.
  rewrite sortGroupDt_Some by done.
  pose proof (sortGroupDt_Some _ _ _ Hn2 Hn3) as Es.
  destruct (sortGroupDt_spec _ _ _ _ _ Es) as (Hl & _ & Hasc & Hperm & _).
  destruct (timestepRangeGpu_spec _ (numGroups rk) (conj Hn1 Hl) Hasc)
    as (a & b & Er & Ha & Hb & Hab & Hmin).
  exists a, b. eexists. eexists. split; [done|]. simpl.
  split; [done|]. split; [done|].
  split.
  { rewrite <- Hperm. eapply list_elem_of_lookup_2.
    apply lookup_take_Some. split; [done|lia]. }
  split; [by rewrite <- Hperm|]. split; [done|].
  intros v Hv. apply Hmin. by rewrite Hperm.
Qed.

(** A rank contributes the same when it calls again on the buffers the
    first call left. *)
Lemma localRange_again n dt idx dt' idx' :
  sortGroupDt dt idx n = Some (dt', idx') ->
  localRange (mkRank n dt' idx') = localRange (mkRank n dt idx).
Proof.
  intros Es. unfold localRange. simpl.
  destruct (sortGroupDt_again _ _ _ _ _ Es) as [idx'' Es'].
  rewrite Es, Es'. done.
Qed.

Lemma mapM_localRange_elem l peers c :
  mapM localRange l = Some peers -> c ∈ peers ->
  exists rk, rk ∈ l /\ localRange rk = Some c.
Proof.
  intros H Hc. apply mapM_Some_1 in H.
  apply list_elem_of_lookup in Hc as [i Hi].
  destruct (Forall2_lookup_r _ _ _ _ _ H Hi) as (rk & Hrk & Hl).
  exists rk. split; [by eapply list_elem_of_lookup_2|done].
Qed.

Lemma mapM_localRange_Some l :
  Forall has_groups l -> is_Some (mapM localRange l).
Proof.
  intros H. apply mapM_is_Some. eapply Forall_impl; [exact H|].
  intros rk Hrk. simpl.
  destruct (localRange_spec rk Hrk) as (a & b & ? & ? & _ & _ & Hl & _).
  by rewrite Hl.
Qed.

(** Among ranks that all have groups, the reduced numbers are ordered,
    and the reduced minimum is below every timestep of the rank. *)
Lemma reduced_le ranks k peers a b :
  Forall has_groups ranks ->
  mapM localRange (delete k ranks) = Some peers ->
  a <= b ->
  list_min a peers.*1 <= list_min b peers.*2.
Proof.
  intros Hall Hp Hab.
  destruct (list_min_elem b peers.*2) as [->|Hin].
  - eapply Qle_trans; [apply list_min_le_head|done].
  - apply list_elem_of_fmap in Hin as ([a' b'] & Heq & Hc). simpl in Heq.
    rewrite Heq.
    destruct (mapM_localRange_elem _ _ _ Hp Hc) as (rk & Hrk & Hl).
    apply list_elem_of_delete_inv in Hrk.
    rewrite Forall_forall in Hall.
    destruct (localRange_spec rk (Hall rk Hrk))
      as (a0 & b0 & ? & ? & _ & _ & Hl' & _ & _ & Hle & _).
    rewrite Hl in Hl'. injection Hl' as -> ->.
    eapply Qle_trans; [|exact Hle].
    apply list_min_le_elem. apply list_elem_of_fmap.
    exists (a0, b0). done.
Qed.

Lemma reduced_pos ranks k peers a :
  Forall has_groups ranks ->
  Forall positive_dt ranks ->
  mapM localRange (delete k ranks) = Some peers ->
  0 < a ->
  0 < list_min a peers.*1.
Proof.
  intros Hall Hpos Hp Ha.
  destruct (list_min_elem a peers.*1) as [->|Hin]; [done|].
  apply list_elem_of_fmap in Hin as ([a' b'] & Heq & Hc). simpl in Heq.
  rewrite Heq.
  destruct (mapM_localRange_elem _ _ _ Hp Hc) as (rk & Hrk & Hl).
  apply list_elem_of_delete_inv in Hrk.
  rewrite Forall_forall in Hall. rewrite Forall_forall in Hpos.
  destruct (localRange_spec rk (Hall rk Hrk))
    as (a0 & b0 & ? & ? & _ & _ & Hl' & Hin & _).
  rewrite Hl in Hl'. injection Hl' as -> ->.
  specialize (Hpos rk Hrk). unfold positive_dt in Hpos.
  rewrite Forall_forall in Hpos. by apply Hpos.
Qed.

(** The entries of [rungRanges] after the rung loop. *)
Lemma rungRanges_lookup dt n m nr j v :
  rungLoop dt n m nr (0%nat :: replicate maxNumRungs n) !! j = Some v ->
  (j = 0%nat /\ v = 0%nat) \/
  ((1 <= j <= maxNumRungs)%nat /\ (Z.of_nat j < nr)%Z /\
     v = lowerBoundGpu dt n (inject_Z (shl1 j) * m)) \/
  ((1 <= j <= maxNumRungs)%nat /\ (nr <= Z.of_nat j)%Z /\ v = n).
Proof.
  rewrite rungLoop_lookup. simpl. rewrite length_replicate.
  case_decide as H.
  - intros [= <-]. right. left. split; [lia|]. split; [lia|done].
  - destruct j as [|j]; simpl.
    + intros [= <-]. by left.
    + intros Hj. apply lookup_replicate in Hj as [-> Hj].
      right. right. split; [lia|]. split; [lia|done].
Qed.

Lemma rungRanges_lookup_Some dt n m nr j :
  (j <= maxNumRungs)%nat ->
  is_Some (rungLoop dt n m nr (0%nat :: replicate maxNumRungs n) !! j).
Proof.
  intros Hj. apply lookup_lt_is_Some.
  rewrite rungLoop_length. simpl. rewrite length_replicate. lia.
Qed.

End RungRun.

Section RungWorld.
Import Rungs.
Variable maxNumRungs : nat.

Lemma computeRungTimestep_at_inv ranks k ts dt' idx' :
  computeRungTimestep_at maxNumRungs ranks k = Some (ts, dt', idx') ->
  exists rk peers,
    ranks !! k = Some rk /\
    mapM localRange (delete k ranks) = Some peers /\
    computeRungTimestep maxNumRungs true peers
      (numGroups rk) (groupDt rk) (groupIndices rk) = Some (ts, dt', idx').
Proof.
  unfold computeRungTimestep_at. intros H.
  destruct (ranks !! k) as [rk|]; [|done]. simpl in H.
  destruct (mapM localRange (delete k ranks)) as [peers|]; [|done].
  simpl in H. by exists rk, peers.
Qed.

Lemma elem_all_groups ranks v :
  v ∈ all_groups ranks <->
  exists rk, rk ∈ ranks /\ v ∈ take (numGroups rk) (groupDt rk).
Proof.
  unfold all_groups. split.
  - intros H. apply list_elem_of_join in H as (l & Hv & Hl).
    apply list_elem_of_fmap in Hl as (rk & -> & Hrk). by exists rk.
  - intros (rk & Hrk & Hv). apply list_elem_of_join.
    exists (take (numGroups rk) (groupDt rk)). split; [done|].
    apply list_elem_of_fmap. by exists rk.
Qed.

(** The two reduced numbers are timesteps of groups. *)
Lemma reduced_in_groups ranks k rk peers a b :
  Forall has_groups ranks ->
  ranks !! k = Some rk ->
  mapM localRange (delete k ranks) = Some peers ->
  localRange rk = Some (a, b) ->
  list_min a peers.*1 ∈ all_groups ranks /\
  list_min b peers.*2 ∈ all_groups ranks.
Proof.
  intros Hall Hk Hp Hl.
  assert (Hrk : rk ∈ ranks) by (by eapply list_elem_of_lookup_2).
  rewrite Forall_forall in Hall.
  assert (Hpeer : forall c, c ∈ peers ->
    c.1 ∈ all_groups ranks /\ c.2 ∈ all_groups ranks).
  { intros c Hc.
    destruct (mapM_localRange_elem _ _ _ Hp Hc) as (rk' & Hrk' & Hl').
    apply list_elem_of_delete_inv in Hrk'.
    destruct (localRange_spec rk' (Hall rk' Hrk'))
      as (a0 & b0 & ? & ? & _ & _ & Hl0 & Ha0 & Hb0 & _).
    rewrite Hl' in Hl0. injection Hl0 as ->.
    split; apply elem_all_groups; exists rk'; done. }
  destruct (localRange_spec rk (Hall rk Hrk))
    as (a0 & b0 & ? & ? & _ & _ & Hl0 & Ha0 & Hb0 & _).
  rewrite Hl in Hl0. injection Hl0 as <- <-.
  split.
  - destruct (list_min_elem a peers.*1) as [->|Hin].
    + apply elem_all_groups. by exists rk.
    + apply list_elem_of_fmap in Hin as (c & -> & Hc). by apply Hpeer.
  - destruct (list_min_elem b peers.*2) as [->|Hin].
    + apply elem_all_groups. by exists rk.
    + apply list_elem_of_fmap in Hin as (c & -> & Hc). by apply Hpeer.
Qed.

Lemma lookup_delete_elem {A} (l : list A) j k x :
  l !! j = Some x -> j <> k -> x ∈ delete k l.
Proof.
  intros Hj Hne. destruct (decide (j < k)%nat) as [Hlt|Hge].
  - apply (list_elem_of_lookup_2 _ j). by rewrite list_lookup_delete_lt.
  - destruct j as [|j]; [lia|].
    apply (list_elem_of_lookup_2 _ j).
    rewrite list_lookup_delete_ge by lia. done.
Qed.

Lemma mapM_localRange_peer l peers rk :
  mapM localRange l = Some peers -> rk ∈ l ->
  exists c, c ∈ peers /\ localRange rk = Some c.
Proof.
  intros H Hrk. apply mapM_Some_1 in H.
  apply list_elem_of_lookup in Hrk as [i Hi].
  destruct (Forall2_lookup_l _ _ _ _ _ H Hi) as (c & Hc & Hl).
  exists c. split; [by eapply list_elem_of_lookup_2|done].
Qed.



Lemma finite_quotients_elem ranks v w :
  finite_quotients ranks ->
  v ∈ all_groups ranks -> w ∈ all_groups ranks ->
  v < bin32_overflow * w.
Proof.
  unfold finite_quotients. rewrite Forall_forall. intros H Hv Hw.
  specialize (H v Hv). rewrite Forall_forall in H. by apply H.
Qed.

(** A call that returns, when every rank has groups and all timesteps
    are positive: what it went through and what it returns.  The [float]
    quotient [refDt / minDt] is at least 1. *)
Lemma computeRungTimestep_at_shape ranks k rk ts dt' idx' :
  Forall has_groups ranks ->
  Forall positive_dt ranks ->
  ranks !! k = Some rk ->
  computeRungTimestep_at maxNumRungs ranks k = Some (ts, dt', idx') ->
  exists peers a b q,
    mapM localRange (delete k ranks) = Some peers /\
    sortGroupDt (groupDt rk) (groupIndices rk) (numGroups rk)
      = Some (dt', idx') /\
    timestepRangeGpu dt' (numGroups rk) fastFraction_0_4 = Some (a, b) /\
    0 < list_min a peers.*1 /\
    list_min a peers.*1 <= list_min b peers.*2 /\
    q = round32 (list_min b peers.*2 / list_min a peers.*1) /\
    1 <= q /\
    ts = {| minDt := list_min a peers.*1;
            numRungs :=
              Z.min (Z.log2 (Qfloor q) + 1) (Z.of_nat maxNumRungs);
            substep := 0;
            rungRanges :=
              rungLoop dt' (numGroups rk) (list_min a peers.*1)
                (Z.min (Z.log2 (Qfloor q) + 1) (Z.of_nat maxNumRungs))
                (0%nat :: replicate maxNumRungs (numGroups rk));
            dt_drift := replicate maxNumRungs 0 |}.
Proof.
  intros Hall Hpos Hk Hrun.
  apply computeRungTimestep_at_inv in Hrun as (rk' & peers & Hk' & Hp & Hrun).
  rewrite Hk in Hk'. injection Hk' as <-.
  apply computeRungTimestep_inv in Hrun
    as (a & b & q & e & Es & Er & Ed & El & ->).
  assert (Hrk : rk ∈ ranks) by (by eapply list_elem_of_lookup_2).
  pose proof Hall as Hall'. pose proof Hpos as Hpos'.
  rewrite Forall_forall in Hall'. rewrite Forall_forall in Hpos'.
  destruct (localRange_spec rk (Hall' rk Hrk))
    as (a0 & b0 & dt0 & idx0 & Es0 & Er0 & _ & Ha & _ & Hab & _).
  rewrite Es in Es0. injection Es0 as <- <-.
  rewrite Er in Er0. injection Er0 as <- <-.
  assert (H0 : 0 < a).
  { specialize (Hpos' rk Hrk). unfold positive_dt in Hpos'.
    rewrite Forall_forall in Hpos'. by apply Hpos'. }
  assert (Hm : 0 < list_min a peers.*1).
  { by apply (reduced_pos ranks k). }
  assert (Hle : list_min a peers.*1 <= list_min b peers.*2).
  { by apply (reduced_le ranks k). }
  apply float_div_inv in Ed as (_ & _ & ->).
  assert (Hq : 1 <= round32 (list_min b peers.*2 / list_min a peers.*1)).
  { apply round32_ge1. apply Qle_shift_div_l; lra. }
  rewrite (int_log2_ge1 _ Hq) in El. injection El as <-.
  exists peers, a, b. eexists. do 5 (split; [done|]).
  split; [reflexivity|]. split; [exact Hq|]. reflexivity.
Qed.

(** The call returns when every rank has groups, all timesteps are
    positive and their quotients are finite [float]s. *)
Lemma computeRungTimestep_at_good ranks k rk :
  Forall has_groups ranks ->
  Forall positive_dt ranks ->
  finite_quotients ranks ->
  ranks !! k = Some rk ->
  is_Some (computeRungTimestep_at maxNumRungs ranks k).
Proof.
  intros Hall Hpos Hfin Hk.
  assert (Hrk : rk ∈ ranks) by (by eapply list_elem_of_lookup_2).
  destruct (mapM_localRange_Some (delete k ranks)) as [peers Hp];
    [by apply Forall_delete|].
  pose proof Hall as Hall'. pose proof Hpos as Hpos'.
  rewrite Forall_forall in Hall'. rewrite Forall_forall in Hpos'.
  destruct (localRange_spec rk (Hall' rk Hrk))
    as (a & b & dt' & idx' & Es & Er & Hl & Ha & _ & Hab & _).
  assert (H0 : 0 < a).
  { specialize (Hpos' rk Hrk). unfold positive_dt in Hpos'.
    rewrite Forall_forall in Hpos'. by apply Hpos'. }
  assert (Hm : 0 < list_min a peers.*1).
  { by apply (reduced_pos ranks k). }
  assert (Hle : list_min a peers.*1 <= list_min b peers.*2).
  { by apply (reduced_le ranks k). }
  destruct (reduced_in_groups ranks k rk peers a b Hall Hk Hp Hl)
    as [Hmin Href].
  pose proof (finite_quotients_elem ranks _ _ Hfin Href Hmin) as Hlt.
  unfold computeRungTimestep_at. rewrite Hk. simpl. rewrite Hp. simpl.
  erewrite computeRungTimestep_steps; [done|done|done| |].
  - apply float_div_pos; [lra|done|done].
  - apply int_log2_ge1. apply round32_ge1. apply Qle_shift_div_l; lra.
Qed.

End RungWorld.

(** * The claims on [computeRungTimestep] *)

Section RungClaims.
Import Rungs.
Variable maxNumRungs : nat.

(** C1.  Whenever the call of a rank returns, a group that
    [computeRungTimestep] places in rung [r], that is a sorted position
    [p] with [rungRanges[r-1] <= p < rungRanges[r]] for
    [1 <= r <= numRungs], is a group [g = groupIndices[p]] of the rank
    whose timestep before the call, [groupDt[g]], is at least
    [2^(r-1) * minDt].  ([maxNumRungs <= 31] keeps [1 << rung] inside
    [int].) *)
Theorem rung_lower_bound ranks k rk ts dt' idx' r p lo hi :
  (maxNumRungs <= 31)%nat ->
  ranks !! k = Some rk ->
  computeRungTimestep_at maxNumRungs ranks k = Some (ts, dt', idx') ->
  (1 <= r)%nat ->
  (Z.of_nat r <= numRungs ts)%Z ->
  rungRanges ts !! (r - 1)%nat = Some lo ->
  rungRanges ts !! r = Some hi ->
  (lo <= p < hi)%nat ->
  exists g v,
    idx' !! p = Some g /\ (g < numGroups rk)%nat /\
    groupDt rk !! g = Some v /\
    inject_Z (2 ^ (Z.of_nat r - 1)) * minDt ts <= v.
Proof.
  intros Hmax Hk Hrun Hr1 Hr2 Hlo Hhi Hp.
  apply computeRungTimestep_at_inv in Hrun as (rk' & peers & Hk' & Hpeers & Hrun).
  rewrite Hk in Hk'. injection Hk' as <-.
  apply computeRungTimestep_inv in Hrun as (a & b & q & e & Es & Er & _ & _ & ->).
  simpl in *.
  destruct (sortGroupDt_spec _ _ _ _ _ Es) as (Hl & _ & Hasc & _ & Htrack).
  set (n := numGroups rk) in *.
  set (m := list_min a peers.*1) in *.
  set (nr := Z.min (e + 1) (Z.of_nat maxNumRungs)) in *.
  assert (Hhi_n : (hi <= n)%nat).
  { apply rungRanges_lookup in Hhi as [[_ ->]|[(_ & _ & ->)|(_ & _ & ->)]];
      [lia| |lia].
    by apply (lowerBoundGpu_spec dt' n). }
  destruct (Htrack p) as (v & g & Hv & Hg & Horig & Hgn); [lia|].
  exists g, v. do 3 (split; [done|]).
  destruct (decide (r = 1%nat)) as [->|Hr].
  - (* the first rung: the least timestep of all ranks *)
    change (inject_Z (2 ^ (Z.of_nat 1 - 1))) with 1. rewrite Qmult_1_l.
    eapply Qle_trans; [apply list_min_le_head|].
    unfold timestepRangeGpu in Er.
    destruct (dt' !! 0%nat) as [a0|] eqn:E0; [|done]. simpl in Er.
    destruct (fastIndex fastFraction_0_4 n); [|done]. simpl in Er.
    destruct (dt' !! n0); [|done]. simpl in Er. injection Er as -> _.
    apply (Hasc 0%nat p); [lia| |];
      apply lookup_take_Some; (split; [done|lia]).
  - (* a later rung starts where [2^(r-1) * minDt] is exceeded *)
    apply rungRanges_lookup in Hlo as [[Hj _]|[(Hj & Hlt & ->)|(_ & Hge & _)]];
      [lia| |lia].
    destruct (lowerBoundGpu_spec dt' n (inject_Z (shl1 (r - 1)) * m) Hl Hasc)
      as (_ & _ & Hge).
    assert (nr <= Z.of_nat maxNumRungs)%Z by (unfold nr; lia).
    assert (Hs : shl1 (r - 1) = (2 ^ (Z.of_nat r - 1))%Z).
    { rewrite shl1_pow2 by lia. f_equal. lia. }
    rewrite <- Hs. apply Qlt_le_weak. apply (Hge p); [lia|done].
Qed.

End RungClaims.

Lemma rung_lower_bound_witness :
  exists g v,
    ([2; 1; 4; 3; 0]%nat : list nat) !! 3%nat = Some g /\ (g < 5)%nat /\
    ([16; 2; 1; 8; 4] : list Q) !! g = Some v /\
    inject_Z (2 ^ (Z.of_nat 3 - 1)) * 1 <= v.
Proof.
  apply (rung_lower_bound 4
           [Rungs.mkRank 5 [16; 2; 1; 8; 4] [0; 0; 0; 0; 0]%nat] 0
           (Rungs.mkRank 5 [16; 2; 1; 8; 4] [0; 0; 0; 0; 0]%nat)
           (Rungs.mkTimestep 1 3 0 [0; 2; 3; 5; 5]%nat [0; 0; 0; 0])
           [1; 2; 4; 8; 16] [2; 1; 4; 3; 0]%nat 3 3 3 5).
  - lia.
  - reflexivity.
  - vm_compute. reflexivity.
  - lia.
  - simpl. lia.
  - reflexivity.
  - reflexivity.
  - lia.
Defined.

Section RungInvariant.
Import Rungs.
Variable maxNumRungs : nat.
Hypothesis maxNumRungs_range : (1 <= maxNumRungs <= 31)%nat.

Lemma numRungs_range (x : Q) :
  1 <= x ->
  (1 <= Z.min (Z.log2 (Qfloor x) + 1) (Z.of_nat maxNumRungs)
     <= Z.of_nat maxNumRungs)%Z.
Proof.
  intros Hx. destruct (Zlog2_Qfloor_spec x Hx) as [H0 _]. lia.
Qed.

Lemma rungBound_mono (m : Q) i j :
  0 <= m -> (i <= j)%nat -> (j <= 30)%nat ->
  inject_Z (shl1 i) * m <= inject_Z (shl1 j) * m.
Proof.
  intros Hm Hij Hj. pose proof (shl1_mono i j Hij Hj). nra.
Qed.

(** C2 (for positive timesteps).  When every rank has at least one group
    and all timesteps are positive, every call that returns returns a
    [Timestep] whose [rungRanges] has [maxNumRungs + 1] entries, starts
    with 0, never decreases, holds the group count of the rank from index
    [numRungs] on, and whose [numRungs] lies between 1 and
    [maxNumRungs].  The call returns when the quotients of the timesteps
    are finite [float]s. *)
Theorem rungRanges_invariant ranks k rk :
  Forall has_groups ranks ->
  Forall positive_dt ranks ->
  ranks !! k = Some rk ->
  (finite_quotients ranks ->
   is_Some (computeRungTimestep_at maxNumRungs ranks k)) /\
  (forall ts dt' idx',
     computeRungTimestep_at maxNumRungs ranks k = Some (ts, dt', idx') ->
     length (rungRanges ts) = S maxNumRungs /\
     rungRanges ts !! 0%nat = Some 0%nat /\
     (forall i j x y, (i <= j)%nat ->
        rungRanges ts !! i = Some x -> rungRanges ts !! j = Some y ->
        (x <= y)%nat) /\
     (forall j, (numRungs ts <= Z.of_nat j)%Z -> (j <= maxNumRungs)%nat ->
        rungRanges ts !! j = Some (numGroups rk)) /\
     (1 <= numRungs ts <= Z.of_nat maxNumRungs)%Z).
Proof.
  intros Hall Hpos Hk. split.
  { intros Hfin. by eapply computeRungTimestep_at_good. }
  intros ts dt' idx' Hrun.
  destruct (computeRungTimestep_at_shape maxNumRungs ranks k rk ts dt' idx'
              Hall Hpos Hk Hrun)
    as (peers & a & b & q & Hp & Es & Er & Hm & Hle & _ & Hq & ->).
  cbn [rungRanges numRungs minDt].
  destruct (sortGroupDt_spec _ _ _ _ _ Es) as (Hl & _ & Hasc & _ & _).
  set (n := numGroups rk) in *.
  set (m := list_min a peers.*1) in *.
  pose proof (numRungs_range _ Hq) as Hnr.
  set (nr := Z.min (Z.log2 (Qfloor q) + 1) (Z.of_nat maxNumRungs)) in *.
  assert (Hle_n : forall j v,
    rungLoop dt' n m nr (0%nat :: replicate maxNumRungs n) !! j = Some v ->
    (v <= n)%nat).
  { intros j v Hj.
    apply rungRanges_lookup in Hj as [[_ ->]|[(_ & _ & ->)|(_ & _ & ->)]];
      [lia| |lia].
    by apply (lowerBoundGpu_spec dt' n). }
  split; [rewrite rungLoop_length; simpl; by rewrite length_replicate|].
  split; [rewrite rungLoop_lookup; by rewrite decide_False by lia|].
  split; [|split; [|done]].
  - intros i j x y Hij Hi Hj.
    pose proof (Hle_n _ _ Hi) as Hxn.
    apply rungRanges_lookup in Hi as [[_ ->]|[(Hi1 & Hi2 & ->)|(Hi1 & Hi2 & ->)]];
      [lia| |].
    + apply rungRanges_lookup in Hj as [[Hj0 _]|[(Hj1 & Hj2 & ->)|(_ & _ & ->)]];
        [lia| |done].
      apply lowerBoundGpu_mono; [done..|].
      apply rungBound_mono; [lra|done|lia].
    + apply rungRanges_lookup in Hj as [[Hj0 _]|[(Hj1 & Hj2 & ->)|(_ & _ & ->)]];
        [lia|lia|done].
  - intros j Hj1 Hj2.
    destruct (rungRanges_lookup_Some maxNumRungs dt' n m nr j Hj2) as [v Hv].
    rewrite Hv. f_equal.
    apply rungRanges_lookup in Hv as [[-> _]|[(_ & Hlt & _)|(_ & _ & ->)]];
      [lia|lia|done].
Qed.

End RungInvariant.

Lemma rungRanges_invariant_witness :
  (Rungs.finite_quotients
     [Rungs.mkRank 5 [16; 2; 1; 8; 4] [0; 0; 0; 0; 0]%nat] ->
   is_Some (Rungs.computeRungTimestep_at 4
              [Rungs.mkRank 5 [16; 2; 1; 8; 4] [0; 0; 0; 0; 0]%nat] 0)) /\
  (forall ts dt' idx',
     Rungs.computeRungTimestep_at 4
       [Rungs.mkRank 5 [16; 2; 1; 8; 4] [0; 0; 0; 0; 0]%nat] 0
       = Some (ts, dt', idx') ->
     length (Rungs.rungRanges ts) = 5%nat /\
     Rungs.rungRanges ts !! 0%nat = Some 0%nat /\
     (forall i j x y, (i <= j)%nat ->
        Rungs.rungRanges ts !! i = Some x ->
        Rungs.rungRanges ts !! j = Some y ->
        (x <= y)%nat) /\
     (forall j, (Rungs.numRungs ts <= Z.of_nat j)%Z -> (j <= 4)%nat ->
        Rungs.rungRanges ts !! j = Some 5%nat) /\
     (1 <= Rungs.numRungs ts <= 4)%Z).
Proof.
  apply (rungRanges_invariant 4 ltac:(lia)
           [Rungs.mkRank 5 [16; 2; 1; 8; 4] [0; 0; 0; 0; 0]%nat] 0
           (Rungs.mkRank 5 [16; 2; 1; 8; 4] [0; 0; 0; 0; 0]%nat)).
  - constructor; [|constructor]. unfold Rungs.has_groups. simpl. lia.
  - constructor; [|constructor]. unfold Rungs.positive_dt. simpl.
    repeat constructor.
  - reflexivity.
Defined.

(** The timesteps 16, 2, 1, 8, 4 have finite quotients, and the call
    returns three rungs for them. *)
Example rungRanges_of_five :
  Rungs.finite_quotients
    [Rungs.mkRank 5 [16; 2; 1; 8; 4] [0; 0; 0; 0; 0]%nat] /\
  Rungs.computeRungTimestep_at 4
    [Rungs.mkRank 5 [16; 2; 1; 8; 4] [0; 0; 0; 0; 0]%nat] 0
  = Some (Rungs.mkTimestep 1 3 0 [0; 2; 3; 5; 5]%nat [0; 0; 0; 0],
          [1; 2; 4; 8; 16], [2; 1; 4; 3; 0]%nat).
Proof.
  split; [|vm_compute; reflexivity].
  unfold Rungs.finite_quotients, Rungs.all_groups. simpl.
  repeat (constructor; [repeat (constructor; [done|]); constructor|]).
  constructor.
Qed.

(** C2 as stated fails: a single group whose timestep is zero makes the
    quotient [refDt / minDt] a NaN, and no [numRungs] comes out of it. *)
Lemma rungRanges_invariant_counterexample :
  Forall Rungs.has_groups [Rungs.mkRank 1 [0] [0%nat]] /\
  Rungs.computeRungTimestep_at 4 [Rungs.mkRank 1 [0] [0%nat]] 0 = None.
Proof.
  split.
  - constructor; [|constructor]. unfold Rungs.has_groups. simpl. lia.
  - reflexivity.
Qed.

(** Nor does a [numRungs] come out when the quotient leaves the finite
    [float]s: three positive timesteps, [2^-70], [2^70] and [2^70]. *)
Example quotient_overflow :
  Forall Rungs.has_groups
    [Rungs.mkRank 3 [pow2 (-70); pow2 70; pow2 70] [0; 0; 0]%nat] /\
  Forall Rungs.positive_dt
    [Rungs.mkRank 3 [pow2 (-70); pow2 70; pow2 70] [0; 0; 0]%nat] /\
  Rungs.computeRungTimestep_at 4
    [Rungs.mkRank 3 [pow2 (-70); pow2 70; pow2 70] [0; 0; 0]%nat] 0 = None.
Proof.
  split; [repeat constructor; simpl; lia|].
  split; [repeat constructor|].
  vm_compute. reflexivity.
Qed.

Section RungFormula.
Import Rungs.
Variable maxNumRungs : nat.
Hypothesis maxNumRungs_range : (1 <= maxNumRungs <= 31)%nat.

(** C3 (for positive timesteps).  When every rank has at least one group
    and all timesteps are positive [float]s, every call of rank [k] that
    returns returns with [minDt] the reduced minimum [g.1], and with
    [numRungs = min (e + 1) maxNumRungs], where [e] is the floor of the
    binary logarithm of the exact quotient [refDt / minDt]:
    [2^e <= g.2 / g.1 < 2^(e+1)]; the rounding of the [float] quotient
    does not reach the next power of two.  When [refDt <= minDt], and so
    when all groups have the same timestep, [numRungs] is 1 and
    [rungRanges] is 0 followed by the group count: one rung holds all
    groups.  The call returns when the quotients of the timesteps are
    finite [float]s. *)
Theorem numRungs_formula ranks k rk :
  Forall has_groups ranks ->
  Forall positive_dt ranks ->
  binary32_dt ranks ->
  ranks !! k = Some rk ->
  (finite_quotients ranks ->
   is_Some (computeRungTimestep_at maxNumRungs ranks k)) /\
  (forall ts dt' idx',
     computeRungTimestep_at maxNumRungs ranks k = Some (ts, dt', idx') ->
     exists g,
       minDtGlobal_at ranks k = Some g /\
       minDt ts = g.1 /\
       (exists e, (0 <= e)%Z /\
          inject_Z (2 ^ e) <= g.2 / g.1 < inject_Z (2 ^ (e + 1)) /\
          numRungs ts = Z.min (e + 1) (Z.of_nat maxNumRungs)) /\
       (g.2 <= g.1 ->
          numRungs ts = 1%Z /\
          rungRanges ts = 0%nat :: replicate maxNumRungs (numGroups rk)) /\
       ((exists c, Forall (fun x => x == c) (all_groups ranks)) ->
          numRungs ts = 1%Z /\
          rungRanges ts = 0%nat :: replicate maxNumRungs (numGroups rk))).
Proof.
  intros Hall Hpos Hbin Hk. split.
  { intros Hfin. by eapply computeRungTimestep_at_good. }
  intros ts dt' idx' Hrun.
  destruct (computeRungTimestep_at_shape maxNumRungs ranks k rk ts dt' idx'
              Hall Hpos Hk Hrun)
    as (peers & a & b & q & Hp & Es & Er & Hm & Hle & -> & _ & ->).
  assert (Hl : localRange rk = Some (a, b)).
  { unfold localRange. rewrite Es. done. }
  exists (list_min a peers.*1, list_min b peers.*2).
  cbn [rungRanges numRungs minDt fst snd].
  destruct (reduced_in_groups ranks k rk peers a b Hall Hk Hp Hl)
    as [Hmin Href].
  set (m := list_min a peers.*1) in *.
  set (ref := list_min b peers.*2) in *.
  assert (Hq : 1 <= ref / m) by (apply Qle_shift_div_l; lra).
  unfold binary32_dt in Hbin. rewrite Forall_forall in Hbin.
  rewrite (round32_quotient_log2 ref m) by (try lra; by apply Hbin).
  destruct (Zlog2_Qfloor_spec _ Hq) as (He0 & He).
  split.
  { unfold minDtGlobal_at. rewrite Hk. simpl. rewrite Hl. simpl.
    rewrite Hp. done. }
  split; [done|].
  split; [by exists (Z.log2 (Qfloor (ref / m)))|].
  assert (Hone : ref <= m ->
    Z.min (Z.log2 (Qfloor (ref / m)) + 1) (Z.of_nat maxNumRungs) = 1%Z).
  { intros Hrm.
    assert (Heq : ref / m == 1).
    { assert (E : ref == m) by lra. rewrite E. field. lra. }
    rewrite (Qfloor_comp _ _ Heq). change (Qfloor 1) with 1%Z.
    change (Z.log2 1) with 0%Z. lia. }
  split.
  - intros Hrm. rewrite (Hone Hrm). done.
  - intros (c & Hc). rewrite Forall_forall in Hc.
    apply Hc in Hmin. apply Hc in Href.
    assert (Hrm : ref <= m) by lra.
    rewrite (Hone Hrm). done.
Qed.

End RungFormula.

Lemma numRungs_formula_witness :
  (Rungs.finite_quotients
     [Rungs.mkRank 5 [16; 2; 1; 8; 4] [0; 0; 0; 0; 0]%nat;
      Rungs.mkRank 2 [3; 32] [7; 7]%nat] ->
   is_Some (Rungs.computeRungTimestep_at 4
              [Rungs.mkRank 5 [16; 2; 1; 8; 4] [0; 0; 0; 0; 0]%nat;
               Rungs.mkRank 2 [3; 32] [7; 7]%nat] 1)) /\
  (forall ts dt' idx',
     Rungs.computeRungTimestep_at 4
       [Rungs.mkRank 5 [16; 2; 1; 8; 4] [0; 0; 0; 0; 0]%nat;
        Rungs.mkRank 2 [3; 32] [7; 7]%nat] 1
       = Some (ts, dt', idx') ->
     exists g,
       Rungs.minDtGlobal_at
         [Rungs.mkRank 5 [16; 2; 1; 8; 4] [0; 0; 0; 0; 0]%nat;
          Rungs.mkRank 2 [3; 32] [7; 7]%nat] 1
         = Some g /\
       Rungs.minDt ts = g.1 /\
       (exists e, (0 <= e)%Z /\
          inject_Z (2 ^ e) <= g.2 / g.1 < inject_Z (2 ^ (e + 1)) /\
          Rungs.numRungs ts = Z.min (e + 1) (Z.of_nat 4)) /\
       (g.2 <= g.1 ->
          Rungs.numRungs ts = 1%Z /\
          Rungs.rungRanges ts = 0%nat :: replicate 4 2%nat) /\
       ((exists c, Forall (fun x => x == c)
           (Rungs.all_groups
              [Rungs.mkRank 5 [16; 2; 1; 8; 4] [0; 0; 0; 0; 0]%nat;
               Rungs.mkRank 2 [3; 32] [7; 7]%nat])) ->
          Rungs.numRungs ts = 1%Z /\
          Rungs.rungRanges ts = 0%nat :: replicate 4 2%nat)).
Proof.
  apply (numRungs_formula 4 ltac:(lia)
           [Rungs.mkRank 5 [16; 2; 1; 8; 4] [0; 0; 0; 0; 0]%nat;
            Rungs.mkRank 2 [3; 32] [7; 7]%nat] 1
           (Rungs.mkRank 2 [3; 32] [7; 7]%nat)).
  - repeat constructor; simpl; lia.
  - repeat constructor.
  - unfold Rungs.binary32_dt, Rungs.all_groups. simpl.
    repeat (constructor; [bin32_whole|]). constructor.
  - reflexivity.
Defined.

(** The same two ranks evaluated: the reduced pair is [(1, 3)], the
    quotient 3 lies between [2^1] and [2^2], and rank 1 gets two rungs.
    Five equal timesteps on two ranks give one rung. *)
Example numRungs_of_two_ranks :
  Rungs.computeRungTimestep_at 4
    [Rungs.mkRank 5 [16; 2; 1; 8; 4] [0; 0; 0; 0; 0]%nat;
     Rungs.mkRank 2 [3; 32] [7; 7]%nat] 1
  = Some (Rungs.mkTimestep 1 2 0 [0; 0; 2; 2; 2]%nat [0; 0; 0; 0],
          [3; 32], [0; 1]%nat) /\
  Rungs.minDtGlobal_at
    [Rungs.mkRank 5 [16; 2; 1; 8; 4] [0; 0; 0; 0; 0]%nat;
     Rungs.mkRank 2 [3; 32] [7; 7]%nat] 1 = Some (1, 3) /\
  Rungs.computeRungTimestep_at 4
    [Rungs.mkRank 3 [3; 3; 3] [0; 0; 0]%nat;
     Rungs.mkRank 2 [3; 3] [0; 0]%nat] 1
  = Some (Rungs.mkTimestep 3 1 0 [0; 2; 2; 2; 2]%nat [0; 0; 0; 0],
          [3; 3], [0; 1]%nat).
Proof.
  split; [vm_compute; reflexivity|]. split; vm_compute; reflexivity.
Qed.

(** C3 as stated fails: three groups with the same timestep, zero, have
    [refDt <= minDt], and the call yields no [numRungs] at all. *)
Lemma numRungs_formula_counterexample :
  Forall Rungs.has_groups [Rungs.mkRank 3 [0; 0; 0] [0; 0; 0]%nat] /\
  Forall (fun x => x == 0)
    (Rungs.all_groups [Rungs.mkRank 3 [0; 0; 0] [0; 0; 0]%nat]) /\
  Rungs.minDtGlobal_at [Rungs.mkRank 3 [0; 0; 0] [0; 0; 0]%nat] 0
    = Some (0, 0) /\
  Rungs.computeRungTimestep_at 4 [Rungs.mkRank 3 [0; 0; 0] [0; 0; 0]%nat] 0
    = None.
Proof.
  split; [repeat constructor; simpl; lia|].
  split; [repeat constructor|].
  split; reflexivity.
Qed.

Section RungSearch.
Import Rungs.
Variable maxNumRungs : nat.
Hypothesis maxNumRungs_range : (1 <= maxNumRungs <= 31)%nat.


End RungSearch.


(** The timesteps 16, 2, 1, 8, 4 evaluated: [rungRanges[1] = 2] is the
    first position whose timestep exceeds [2^1 * minDt = 2], behind the
    timestep 2 itself, and [rungRanges[2] = 3] the first whose timestep
    exceeds 4. *)
Example rungRanges_of_five_search :
  Rungs.first_exceeding [1; 2; 4; 8; 16] (inject_Z (2 ^ 1) * 1) = 2%nat /\
  Rungs.first_exceeding [1; 2; 4; 8; 16] (inject_Z (2 ^ 2) * 1) = 3%nat.
Proof. split; reflexivity. Qed.

Section RungReduction.
Import Rungs.
Variable maxNumRungs : nat.

Lemma localRange_no_groups dt idx :
  localRange (mkRank 0 dt idx) = (fun x => (x, x)) <$> dt !! 0%nat.
Proof.
  unfold localRange. cbn [numGroups groupDt groupIndices].
  rewrite sortGroupDt_Some by lia. simpl.
  unfold timestepRangeGpu. rewrite drop_0.
  change (fastIndex fastFraction_0_4 0) with (Some 0%nat).
  destruct (dt !! 0%nat) as [x|] eqn:E; simpl; [|done]. by rewrite E.
Qed.

(** C5 (when every rank has groups).  When every rank has at least one
    group, the [minDt] that the call of any rank returns is the least
    timestep of the groups of all ranks: it is one of them and none is
    below it. *)
Theorem reduced_minDt_is_minimum ranks k ts dt' idx' :
  Forall has_groups ranks ->
  computeRungTimestep_at maxNumRungs ranks k = Some (ts, dt', idx') ->
  minDt ts ∈ all_groups ranks /\
  (forall v, v ∈ all_groups ranks -> minDt ts <= v).
Proof.
  intros Hall Hrun.
  apply computeRungTimestep_at_inv in Hrun as (rk & peers & Hk & Hp & Hrun).
  apply computeRungTimestep_inv in Hrun as (a & b & q & e & Es & Er & _ & _ & ->).
  cbn [minDt].
  assert (Hl : localRange rk = Some (a, b)).
  { unfold localRange. rewrite Es. done. }
  split.
  { by destruct (reduced_in_groups ranks k rk peers a b Hall Hk Hp Hl). }
  intros v Hv. apply elem_all_groups in Hv as (rk' & Hrk' & Hv).
  rewrite Forall_forall in Hall.
  destruct (localRange_spec rk' (Hall rk' Hrk'))
    as (a' & b' & ? & ? & _ & _ & Hl' & _ & _ & _ & Hmin).
  apply list_elem_of_lookup in Hrk' as [j Hj].
  destruct (decide (j = k)) as [->|Hne].
  - rewrite Hk in Hj. injection Hj as <-.
    rewrite Hl in Hl'. injection Hl' as <- <-.
    eapply Qle_trans; [apply list_min_le_head|]. by apply Hmin.
  - pose proof (lookup_delete_elem ranks j k rk' Hj Hne) as Hin.
    destruct (mapM_localRange_peer _ _ _ Hp Hin) as (c & Hc & Hlc).
    rewrite Hlc in Hl'. injection Hl' as ->.
    eapply Qle_trans; [|by apply Hmin].
    apply list_min_le_elem. apply list_elem_of_fmap. by exists (a', b').
Qed.

End RungReduction.

Lemma reduced_minDt_is_minimum_witness :
  Rungs.minDt (Rungs.mkTimestep 2 1 0 [0; 2; 2; 2; 2]%nat [0; 0; 0; 0])
    ∈ Rungs.all_groups
        [Rungs.mkRank 2 [5; 3] [0; 0]%nat; Rungs.mkRank 3 [7; 2; 9] [0; 0; 0]%nat] /\
  (forall v,
     v ∈ Rungs.all_groups
           [Rungs.mkRank 2 [5; 3] [0; 0]%nat; Rungs.mkRank 3 [7; 2; 9] [0; 0; 0]%nat] ->
     Rungs.minDt (Rungs.mkTimestep 2 1 0 [0; 2; 2; 2; 2]%nat [0; 0; 0; 0]) <= v).
Proof.
  apply (reduced_minDt_is_minimum 4
           [Rungs.mkRank 2 [5; 3] [0; 0]%nat; Rungs.mkRank 3 [7; 2; 9] [0; 0; 0]%nat]
           0 _ [3; 5] [1; 0]%nat).
  - repeat constructor; simpl; lia.
  - vm_compute. reflexivity.
Defined.

(** C5 as stated fails: the second rank has no group and its buffer still
    holds a 1; it hands that 1 to the reduction, and the first rank,
    whose groups have the timesteps 3 and 5, returns [minDt = 1].  With an
    empty buffer the second rank reads outside it, and the call is
    undefined. *)
Lemma reduced_minDt_is_minimum_counterexample :
  Rungs.computeRungTimestep_at 4
    [Rungs.mkRank 2 [3; 5] [0; 0]%nat; Rungs.mkRank 0 [1] []] 0
    = Some (Rungs.mkTimestep 1 1 0 [0; 2; 2; 2; 2]%nat [0; 0; 0; 0],
            [3; 5], [0; 1]%nat) /\
  Rungs.all_groups [Rungs.mkRank 2 [3; 5] [0; 0]%nat; Rungs.mkRank 0 [1] []]
    = [3; 5] /\
  Rungs.computeRungTimestep_at 4
    [Rungs.mkRank 2 [3; 5] [0; 0]%nat; Rungs.mkRank 0 [] []] 0
    = None.
Proof.
  split; [vm_compute; reflexivity|]. split; reflexivity.
Qed.

Section RungAgain.
Import Rungs.
Variable maxNumRungs : nat.

Lemma mapM_fmap_eq {A A' B} (f : A -> option B) (g : A' -> option B) l l' :
  f <$> l = g <$> l' -> mapM f l = mapM g l'.
Proof.
  revert l'. induction l as [|x l IH]; intros [|x' l'] H; try done.
  simpl in *. injection H as Hx Hl. by rewrite Hx, (IH l' Hl).
Qed.

(** The call of rank [k] again, on the buffers its first call left, next
    to ranks that contribute what they contributed before. *)
Lemma computeRungTimestep_at_again ranks ranks' k rk ts dt' idx' :
  localRange <$> ranks' = localRange <$> ranks ->
  ranks !! k = Some rk ->
  ranks' !! k = Some (mkRank (numGroups rk) dt' idx') ->
  computeRungTimestep_at maxNumRungs ranks k = Some (ts, dt', idx') ->
  exists idx'',
    computeRungTimestep_at maxNumRungs ranks' k = Some (ts, dt', idx'').
Proof.
  intros Hsame Hk Hk' Hrun.
  apply computeRungTimestep_at_inv in Hrun as (rk0 & peers & Hk0 & Hp & Hrun).
  rewrite Hk in Hk0. injection Hk0 as <-.
  apply computeRungTimestep_inv in Hrun as (a & b & q & e & Es & Er & Eq & Ee & ->).
  destruct (sortGroupDt_again _ _ _ _ _ Es) as [idx'' Es'].
  exists idx''. unfold computeRungTimestep_at. rewrite Hk'. simpl.
  assert (Hp' : mapM localRange (delete k ranks') = Some peers).
  { rewrite <- Hp. apply mapM_fmap_eq.
    by rewrite !list_fmap_delete, Hsame. }
  rewrite Hp'. simpl.
  by apply (computeRungTimestep_steps maxNumRungs peers _ _ _ _ _ a b q e).
Qed.

Lemma call_of_inv ranks k ts rk' :
  call_of maxNumRungs ranks k = Some (ts, rk') ->
  exists rk,
    ranks !! k = Some rk /\ numGroups rk' = numGroups rk /\
    computeRungTimestep_at maxNumRungs ranks k
      = Some (ts, groupDt rk', groupIndices rk').
Proof.
  unfold call_of. intros H.
  destruct (ranks !! k) as [rk|]; [|done]. simpl in H.
  destruct (computeRungTimestep_at maxNumRungs ranks k)
    as [[[ts0 dt0] idx0]|]; [|done].
  simpl in H. injection H as <- <-. by exists rk.
Qed.

Lemma computeRungTimestep_all_lookup ranks res :
  computeRungTimestep_all maxNumRungs ranks = Some res ->
  length res = length ranks /\
  (forall k y, res !! k = Some y -> call_of maxNumRungs ranks k = Some y).
Proof.
  unfold computeRungTimestep_all. intros H. apply mapM_Some_1 in H.
  split.
  - apply Forall2_length in H. by rewrite length_seq in H.
  - intros k y Hy.
    destruct (Forall2_lookup_r _ _ _ _ _ H Hy) as (k' & Hk' & Hc).
    apply lookup_seq in Hk' as [-> _]. done.
Qed.

(** After the call on every rank, each rank contributes what it
    contributed before. *)
Lemma localRange_after ranks res :
  computeRungTimestep_all maxNumRungs ranks = Some res ->
  localRange <$> res.*2 = localRange <$> ranks.
Proof.
  intros H. apply computeRungTimestep_all_lookup in H as [Hlen Hres].
  apply list_eq. intros k. rewrite !list_lookup_fmap.
  destruct (res !! k) as [[ts rk']|] eqn:Ek.
  - apply Hres in Ek. apply call_of_inv in Ek as (rk & Hk & Hn & Hrun).
    rewrite Hk. simpl. f_equal.
    apply computeRungTimestep_at_inv in Hrun as (rk0 & peers & Hk0 & _ & Hrun).
    rewrite Hk in Hk0. injection Hk0 as <-.
    apply computeRungTimestep_inv in Hrun as (a & b & q & e & Es & _).
    destruct rk as [n dt idx], rk' as [n' dt' idx']. simpl in *. subst n'.
    by apply localRange_again.
  - apply lookup_ge_None in Ek. rewrite Hlen in Ek.
    apply lookup_ge_None in Ek. by rewrite Ek.
Qed.

(** C8.  When the call on every rank has returned, the call on every rank
    again, on the buffers the first call left (the timesteps sorted, the
    indices permuted), returns the same [Timestep]s, each with the same
    [minDt], [numRungs], [substep], [rungRanges] and [dt_drift], and
    leaves the same sorted timesteps. *)
Theorem computeRungTimestep_idempotent ranks res :
  computeRungTimestep_all maxNumRungs ranks = Some res ->
  exists res',
    computeRungTimestep_all maxNumRungs res.*2 = Some res' /\
    res'.*1 = res.*1 /\
    groupDt <$> res'.*2 = groupDt <$> res.*2.
Proof.
  intros H. pose proof (localRange_after _ _ H) as Hsame.
  apply computeRungTimestep_all_lookup in H as [Hlen Hres].
  assert (Hcall : forall k ts rk', res !! k = Some (ts, rk') ->
    exists idx'',
      call_of maxNumRungs res.*2 k = Some (ts, mkRank (numGroups rk') (groupDt rk') idx'')).
  { intros k ts rk' Hk. pose proof (Hres _ _ Hk) as Hc.
    apply call_of_inv in Hc as (rk & Hrk & Hn & Hrun).
    assert (Hk' : res.*2 !! k
                  = Some (mkRank (numGroups rk) (groupDt rk') (groupIndices rk'))).
    { rewrite list_lookup_fmap, Hk. simpl. destruct rk'. simpl in *.
      by subst. }
    destruct (computeRungTimestep_at_again _ _ _ _ _ _ _ Hsame Hrk Hk' Hrun)
      as [idx'' Hrun'].
    exists idx''. unfold call_of. rewrite Hk'. simpl. rewrite Hrun'. simpl.
    by rewrite Hn. }
  destruct (mapM_is_Some_2 (call_of maxNumRungs res.*2) (seq 0 (length res.*2)))
    as [res' Hres'].
  { apply Forall_forall. intros k Hk. apply elem_of_seq in Hk.
    rewrite length_fmap in Hk.
    destruct (lookup_lt_is_Some_2 res k) as [[ts rk'] Hy]; [lia|].
    destruct (Hcall _ _ _ Hy) as [idx'' Hc]. simpl. by rewrite Hc. }
  exists res'. split; [exact Hres'|].
  apply computeRungTimestep_all_lookup in Hres' as [Hlen' Hres'].
  rewrite length_fmap in Hlen'.
  assert (Hpoint : forall k ts rk' y, res !! k = Some (ts, rk') ->
    res' !! k = Some y -> y.1 = ts /\ groupDt y.2 = groupDt rk').
  { intros k ts rk' y Hk Hy. apply Hres' in Hy.
    destruct (Hcall _ _ _ Hk) as [idx'' Hc].
    rewrite Hc in Hy. injection Hy as <-. done. }
  split; apply list_eq; intros k; rewrite !list_lookup_fmap.
  - destruct (res !! k) as [[ts rk']|] eqn:Ek.
    + destruct (lookup_lt_is_Some_2 res' k) as [y Hy].
      { apply lookup_lt_Some in Ek. lia. }
      rewrite Hy. simpl. f_equal. by apply (Hpoint k ts rk' y).
    + apply lookup_ge_None in Ek. rewrite <- Hlen' in Ek.
      apply lookup_ge_None in Ek. by rewrite Ek.
  - destruct (res !! k) as [[ts rk']|] eqn:Ek.
    + destruct (lookup_lt_is_Some_2 res' k) as [y Hy].
      { apply lookup_lt_Some in Ek. lia. }
      rewrite Hy. simpl. f_equal. by apply (Hpoint k ts rk' y).
    + apply lookup_ge_None in Ek. rewrite <- Hlen' in Ek.
      apply lookup_ge_None in Ek. by rewrite Ek.
Qed.

End RungAgain.

Lemma computeRungTimestep_idempotent_witness :
  exists res',
    Rungs.computeRungTimestep_all 4
      [(Rungs.mkTimestep 1 3 0 [0; 2; 3; 5; 5]%nat [0; 0; 0; 0],
        Rungs.mkRank 5 [1; 2; 4; 8; 16] [2; 1; 4; 3; 0]%nat)].*2
      = Some res' /\
    res'.*1
      = [(Rungs.mkTimestep 1 3 0 [0; 2; 3; 5; 5]%nat [0; 0; 0; 0],
          Rungs.mkRank 5 [1; 2; 4; 8; 16] [2; 1; 4; 3; 0]%nat)].*1 /\
    Rungs.groupDt <$> res'.*2
      = Rungs.groupDt <$>
          [(Rungs.mkTimestep 1 3 0 [0; 2; 3; 5; 5]%nat [0; 0; 0; 0],
            Rungs.mkRank 5 [1; 2; 4; 8; 16] [2; 1; 4; 3; 0]%nat)].*2.
Proof.
  apply (computeRungTimestep_idempotent 4
           [Rungs.mkRank 5 [16; 2; 1; 8; 4] [0; 0; 0; 0; 0]%nat]).
  vm_compute. reflexivity.
Defined.

(** * The claim on [MomentumSquarePatch::compute] *)

Section MomentumFacts.
Import Momentum.

Variable T : Type.
Variables zero one two : T.
Variables add sub mul div : T -> T -> T.
Variable neg : T -> T.
Variable ltb : T -> T -> bool.
Variables sqrt exp abs : T -> T.
Variable pow : T -> T -> T.
Variable artificial_viscosity : T -> T -> T -> T -> T -> T -> T -> T -> T.
Variable wharmonic_derivative : T -> T -> T -> T.

(** The zeroing of [force_i_j_r] comes after its last use: one round of
    the neighbour loop gives the same sums on either side of
    [iteration < init_timesteps]. *)
Lemma neighbor_round_iteration (params : Params T) it1 it2 P i
    ro_i p_i x_i y_i z_i vx_i vy_i vz_i h_i A_i0 momentum nid :
  neighbor_round T zero one two add sub mul div neg ltb sqrt exp abs pow
    artificial_viscosity wharmonic_derivative
    params it1 P i ro_i p_i x_i y_i z_i vx_i vy_i vz_i h_i A_i0 momentum nid
  = neighbor_round T zero one two add sub mul div neg ltb sqrt exp abs pow
      artificial_viscosity wharmonic_derivative
      params it2 P i ro_i p_i x_i y_i z_i vx_i vy_i vz_i h_i A_i0 momentum nid.
Proof.
  unfold neighbor_round. destruct momentum as [[mx my] mz].
  destruct (it1 <? init_timesteps T params)%Z,
           (it2 <? init_timesteps T params)%Z; reflexivity.
Qed.

Lemma neighbor_loop_ext (f g : T * T * T -> Z -> option (T * T * T)) nids :
  (forall momentum nid, f momentum nid = g momentum nid) ->
  forall momentum,
    neighbor_loop T f momentum nids = neighbor_loop T g momentum nids.
Proof.
  intros Hfg. induction nids as [|nid nids IH]; intros momentum; simpl.
  - reflexivity.
  - rewrite Hfg. destruct (g momentum nid) as [momentum'|]; simpl.
    + apply IH.
    + reflexivity.
Qed.

(** C9.  For every particle index [i] and any two values of
    [iteration], [compute(i)] leaves the same [grad_P_x], [grad_P_y] and
    [grad_P_z], and is undefined for the one value exactly when it is for
    the other. *)
Theorem compute_iteration_independent (params : Params T) it1 it2 P G i :
  compute T zero one two add sub mul div neg ltb sqrt exp abs pow
    artificial_viscosity wharmonic_derivative params it1 P G i
  = compute T zero one two add sub mul div neg ltb sqrt exp abs pow
      artificial_viscosity wharmonic_derivative params it2 P G i.
Proof.
  unfold compute.
  destruct (at_ (ro T P) i) as [ro_i|]; [simpl|reflexivity].
  destruct (at_ (p T P) i) as [p_i|]; [simpl|reflexivity].
  destruct (at_ (x T P) i) as [x_i|]; [simpl|reflexivity].
  destruct (at_ (y T P) i) as [y_i|]; [simpl|reflexivity].
  destruct (at_ (z T P) i) as [z_i|]; [simpl|reflexivity].
  destruct (at_ (vx T P) i) as [vx_i|]; [simpl|reflexivity].
  destruct (at_ (vy T P) i) as [vy_i|]; [simpl|reflexivity].
  destruct (at_ (vz T P) i) as [vz_i|]; [simpl|reflexivity].
  destruct (at_ (h T P) i) as [h_i|]; [simpl|reflexivity].
  destruct (at_ (neighbors T P) i) as [nids|]; [simpl|reflexivity].
  rewrite (neighbor_loop_ext _
             (neighbor_round T zero one two add sub mul div neg ltb sqrt exp
                abs pow artificial_viscosity wharmonic_derivative params it2
                P i ro_i p_i x_i y_i z_i vx_i vy_i vz_i h_i
                (if ltb p_i zero then one else A_i T params))).
  - reflexivity.
  - intros momentum nid. apply neighbor_round_iteration.
Qed.

End MomentumFacts.

(** * Facts about buffers and loops *)

Section Loops.
Context {A : Type}.

Lemma store_Some (v : list A) i x :
  (i < length v)%nat -> store v i x = Some (<[i := x]> v).
Proof. intros H. unfold store. by rewrite decide_True. Qed.

(** A loop whose round [i] reads slot [i] and writes it back changed:
    what the slots hold after it. *)
Lemma for_loop_pointwise (body : nat -> list A -> option (list A))
    (g : nat -> A -> option A) :
  (forall i v x, v !! i = Some x ->
     body i v = (y ← g i x; Some (<[i := y]> v))) ->
  forall n i v,
    (i + n <= length v)%nat ->
    (forall j x, (i <= j < i + n)%nat -> v !! j = Some x -> is_Some (g j x)) ->
    exists v',
      for_loop n i body v = Some v' /\
      length v' = length v /\
      (forall j, v' !! j =
         if decide (i <= j < i + n)%nat then (x ← v !! j; g j x) else v !! j).
Proof.
  intros Hbody. induction n as [|n IH]; intros i v Hlen Hg; simpl.
  - exists v. split; [done|]. split; [done|].
    intros j. rewrite decide_False; [done|lia].
  - destruct (lookup_lt_is_Some_2 v i) as [x Hx]; [lia|].
    destruct (Hg i x) as [y Hy]; [lia|done|].
    rewrite (Hbody i v x Hx), Hy. simpl.
    destruct (IH (S i) (<[i := y]> v)) as (v' & Hrun & Hl & Hlook).
    { rewrite length_insert. lia. }
    { intros j z Hj Hz. rewrite list_lookup_insert_ne in Hz by lia.
      apply (Hg j z); [lia|done]. }
    exists v'. split; [done|]. rewrite length_insert in Hl.
    split; [done|]. intros j. rewrite Hlook.
    destruct (decide (j = i)) as [->|Hne].
    + rewrite decide_False by lia. rewrite decide_True by lia.
      rewrite list_lookup_insert_eq by lia. rewrite Hx. simpl. done.
    + rewrite list_lookup_insert_ne by done.
      case_decide as H1; case_decide as H2; try done; lia.
Qed.

End Loops.

(** * The claims on [NbodyProp::step] *)

Section NbodyFacts.
Import Nbody.

(** What [fill] leaves. *)
Lemma fill_spec {A} (v : list A) first last (x : A) :
  (first <= last <= length v)%nat ->
  exists v',
    fill v first last x = Some v' /\
    length v' = length v /\
    (forall j, v' !! j =
       if decide (first <= j < last)%nat then Some x else v !! j).
Proof.
  intros H. unfold fill, for_range. rewrite decide_True by done.
  destruct (for_loop_pointwise (fun i v => store v i x) (fun _ _ => Some x))
    with (n := (last - first)%nat) (i := first) (v := v)
    as (v' & Hrun & Hl & Hlook).
  - intros i w y Hy. simpl. apply store_Some. by eapply lookup_lt_Some.
  - lia.
  - done.
  - exists v'. split; [done|]. split; [done|].
    intros j. rewrite Hlook.
    case_decide as H1; case_decide as H2; try lia; try done.
    destruct (lookup_lt_is_Some_2 v j) as [y Hy]; [lia|]. by rewrite Hy.
Qed.

(** C7.  Resize and pad with the owned range [first, last) inside the
    [n] slots that the arrays have with the halos: it is defined, the
    masses have [n] slots, every slot before [first] and every slot from
    [last] on holds the mass [v] that the resized array had at [first]
    (the mass at [first] before the resize, when the array had that slot),
    and the owned slots hold what they held. *)
Theorem resizeAndPad_boundary (domain : Domain) (d : ParticlesData) :
  (startIndex domain < nParticlesWithHalos domain)%nat ->
  (endIndex domain <= nParticlesWithHalos domain)%nat ->
  exists d' v,
    resizeAndPad domain d = Some d' /\
    m (resizeData (nParticlesWithHalos domain) d) !! startIndex domain = Some v /\
    ((startIndex domain < length (m d))%nat -> m d !! startIndex domain = Some v) /\
    length (m d') = nParticlesWithHalos domain /\
    (forall i,
       (i < startIndex domain)%nat \/
       (endIndex domain <= i < nParticlesWithHalos domain)%nat ->
       m d' !! i = Some v) /\
    (forall i, (startIndex domain <= i < endIndex domain)%nat ->
       m d' !! i = m (resizeData (nParticlesWithHalos domain) d) !! i).
Proof.
  intros Hfirst Hlast. unfold resizeAndPad.
  set (n := nParticlesWithHalos domain) in *.
  set (first := startIndex domain) in *.
  set (last := endIndex domain) in *.
  cbn [resizeData m ax ay az egrav].
  set (m0 := resize n 0 (m d)).
  assert (Hn : length m0 = n) by apply length_resize.
  destruct (lookup_lt_is_Some_2 m0 first) as [v Hv]; [lia|].
  rewrite Hv. simpl.
  destruct (fill_spec m0 0 first v) as (m1 & E1 & L1 & K1); [lia|].
  rewrite E1. simpl.
  assert (Hv1 : m1 !! first = Some v).
  { rewrite K1. by rewrite decide_False by lia. }
  rewrite Hv1. simpl.
  destruct (fill_spec m1 last n v) as (m2 & E2 & L2 & K2); [lia|].
  rewrite E2. simpl.
  eexists. exists v. split; [done|]. simpl.
  split; [done|]. split.
  { intros Hin. rewrite <- Hv. unfold m0. symmetry.
    apply lookup_resize; [lia|done]. }
  split; [lia|]. split.
  - intros i Hi. rewrite K2. case_decide as H2; [done|].
    rewrite K1. rewrite decide_True by lia. done.
  - intros i Hi. rewrite K2. rewrite decide_False by lia.
    rewrite K1. by rewrite decide_False by lia.
Qed.

End NbodyFacts.

Lemma resizeAndPad_boundary_witness :
  exists d' v,
    Nbody.resizeAndPad (Nbody.mkDomain 25 5 20)
      (Nbody.mkData Nbody.twentyMasses [] [] [] 0) = Some d' /\
    Nbody.m (Nbody.resizeData 25 (Nbody.mkData Nbody.twentyMasses [] [] [] 0))
      !! 5%nat = Some v /\
    ((5 < length Nbody.twentyMasses)%nat ->
     Nbody.twentyMasses !! 5%nat = Some v) /\
    length (Nbody.m d') = 25%nat /\
    (forall i, (i < 5)%nat \/ (20 <= i < 25)%nat -> Nbody.m d' !! i = Some v) /\
    (forall i, (5 <= i < 20)%nat ->
       Nbody.m d' !! i =
         Nbody.m (Nbody.resizeData 25
                    (Nbody.mkData Nbody.twentyMasses [] [] [] 0)) !! i).
Proof.
  apply (resizeAndPad_boundary (Nbody.mkDomain 25 5 20)
           (Nbody.mkData Nbody.twentyMasses [] [] [] 0)).
  - simpl. lia.
  - simpl. lia.
Defined.

(** The same run evaluated: the mass at index 5 was 9, and 9 is what the
    five slots in front of the owned range and the five behind it hold. *)
Example resizeAndPad_first5_last20 :
  Nbody.m <$> Nbody.resizeAndPad (Nbody.mkDomain 25 5 20)
                (Nbody.mkData Nbody.twentyMasses [] [] [] 0)
  = Some ([9; 9; 9; 9; 9]
          ++ [9; 2; 6; 5; 3; 5; 8; 9; 7; 9; 3; 2; 3; 8; 4]
          ++ [9; 9; 9; 9; 9]).
Proof. vm_compute. reflexivity. Qed.

Section NbodyReduction.
Import Nbody.

Variable MHolder : Type.
Variable syncGrav : Domain -> ParticlesData -> Domain * ParticlesData.
Variable upsweep : MHolder -> ParticlesData -> Domain -> MHolder.
Variable traverse : MHolder -> ParticlesData -> Domain -> MHolder * ParticlesData.
Variable readStats : MHolder -> Stats.






(** The steps of a [step] that is defined. *)
Lemma step_inv world rank s' g line :
  step MHolder syncGrav upsweep traverse readStats world rank
    = Some (s', g, line) ->
  exists s domain1 d4 mHolder2 locals globalEnergy,
    world !! rank = Some s /\
    stepLocal MHolder syncGrav upsweep traverse s
      = Some (domain1, d4, mHolder2) /\
    mapM (stepLocal MHolder syncGrav upsweep traverse) world = Some locals /\
    mjoin (MPI_Reduce MPI_SUM ((fun l => Some (egrav l.1.2)) <$> locals)
             rootRank rank (Some (Some 0)))
      = Some globalEnergy /\
    s' = (domain1,
          {| m := m d4; ax := ax d4; ay := ay d4; az := az d4;
             egrav := globalEnergy |},
          mHolder2) /\
    g = MPI_Reduce Z.max ((fun l => maxP2P (readStats l.2)) <$> locals)
          rootRank rank None.
Proof.
  unfold step. intros H.
  destruct (world !! rank) as [s|] eqn:Es; [|discriminate H].
  cbn [mbind option_bind] in H.
  destruct (stepLocal MHolder syncGrav upsweep traverse s)
    as [[[domain1 d4] mHolder2]|] eqn:El; [|discriminate H].
  cbn [mbind option_bind] in H.
  destruct (mapM _ world) as [locals|] eqn:Em; [|discriminate H].
  cbn [mbind option_bind] in H.
  destruct (mjoin (MPI_Reduce MPI_SUM _ rootRank rank (Some (Some 0))))
    as [globalEnergy|] eqn:Er; [|discriminate H].
  cbn [mbind option_bind] in H.
  destruct (diagnostics _ _ _) as [line0|]; [|discriminate H].
  cbn [mbind option_bind] in H. injection H as <- <- <-.
  exists s, domain1, d4, mHolder2, locals, globalEnergy.
  repeat split; assumption.
Qed.


(** On every other rank the receive buffers stay as they were: [egrav]
    becomes 0 and nothing writes [maxP2Pglobal]. *)
Lemma step_off_root world rank s' g line :
  rank <> rootRank ->
  step MHolder syncGrav upsweep traverse readStats world rank
    = Some (s', g, line) ->
  egrav s'.1.2 = 0 /\ g = None.
Proof.
  intros Hrank H.
  apply step_inv in H
    as (s & domain1 & d4 & mHolder2 & locals & ge & _ & _ & _ & Hsum & -> & ->).
  unfold MPI_Reduce in *. rewrite decide_False in Hsum by done.
  rewrite decide_False by done. injection Hsum as <-. done.
Qed.

End NbodyReduction.


(** The counts 10, 25 and 7 of three ranks: rank 0 ends with 25 in
    [maxP2Pglobal] and with the sum of the three energies, none of whose
    additions rounds. *)
Example step_three_ranks :
  Nbody.idleStep
    [Nbody.rankOf 0 (-1) 10; Nbody.rankOf 1 (-2) 25; Nbody.rankOf 1 (-3) 7] 0
  = Some ((Nbody.mkDomain 3 0 2,
           Nbody.mkData [1; 1; 1] [0; 0; 0] [0; 0; 0] [0; 0; 0] (-6),
           10%Z),
          Some 25%Z, Some (0, 10, 0, 0, 25)%Z) /\
  exact_sums (-1) [-2; -3].
Proof.
  split; [vm_compute; reflexivity|]. simpl.
  split; [vm_compute; reflexivity|]. split; [vm_compute; reflexivity|done].
Qed.


Lemma step_off_root_witness :
  Nbody.egrav
    (Nbody.mkDomain 3 1 2,
     Nbody.mkData [1; 1; 1] [0; 0; 0] [0; 0; 0] [0; 0; 0] 0,
     25%Z).1.2 = 0 /\
  @None Z = None.
Proof.
  apply (step_off_root Z Nbody.idleSync Nbody.idleUpsweep Nbody.idleTraverse
           Nbody.counterStats
           [Nbody.rankOf 0 (-1) 10; Nbody.rankOf 1 (-2) 25; Nbody.rankOf 1 (-3) 7]
           1
           (Nbody.mkDomain 3 1 2,
            Nbody.mkData [1; 1; 1] [0; 0; 0] [0; 0; 0] [0; 0; 0] 0,
            25%Z)
           None None).
  - unfold Nbody.rootRank. lia.
  - vm_compute. reflexivity.
Defined.

(** * The claim on [computeDensity] *)

Section DensityFacts.
Import Density.

Variable T : Type.
Variable div : T -> T -> T.
Variable Geometry : Type.
Variable xmass : Geometry -> list T -> nat -> nat -> nat -> T.

Lemma for_range_pointwise {A} (body : nat -> list A -> option (list A))
    (g : nat -> A -> option A) first last v :
  (forall i w x, w !! i = Some x ->
     body i w = (y ← g i x; Some (<[i := y]> w))) ->
  (last <= length v)%nat ->
  (forall j x, (first <= j < last)%nat -> v !! j = Some x -> is_Some (g j x)) ->
  exists v',
    for_range first last body v = Some v' /\
    length v' = length v /\
    (forall j, v' !! j =
       if decide (first <= j < last)%nat then (x ← v !! j; g j x) else v !! j).
Proof.
  intros Hbody Hlen Hg. unfold for_range.
  destruct (decide (first < last)%nat) as [Hlt|Hge].
  - destruct (for_loop_pointwise body g Hbody (last - first) first v)
      as (v' & Hrun & Hl & Hlook); [lia| |].
    { intros j x Hj. apply Hg. lia. }
    exists v'. split; [done|]. split; [done|].
    intros j. rewrite Hlook.
    case_decide as H1; case_decide as H2; try done; lia.
  - replace (last - first)%nat with 0%nat by lia. simpl.
    exists v. split; [done|]. split; [done|].
    intros j. rewrite decide_False; [done|lia].
Qed.

(** C10.  With the range inside the arrays, [computeDensity] is defined;
    it leaves [xm] (and the masses) as they were, sets [rho[i]] to
    [m[i] / X[i]] for every [i] of [startIndex, endIndex), [X[i]] being
    the x-mass that [computeXMass], called on this range, computes for
    [i], and leaves every other [rho] entry as it was. *)
Theorem computeDensity_frame startIndex endIndex (d : Dataset T Geometry) :
  (endIndex <= length (rho T Geometry d))%nat ->
  (endIndex <= length (m T Geometry d))%nat ->
  exists d',
    computeDensity T div Geometry xmass startIndex endIndex d = Some d' /\
    xm T Geometry d' = xm T Geometry d /\
    m T Geometry d' = m T Geometry d /\
    geometry T Geometry d' = geometry T Geometry d /\
    length (rho T Geometry d') = length (rho T Geometry d) /\
    (forall i, (startIndex <= i < endIndex)%nat ->
       exists m_i,
         m T Geometry d !! i = Some m_i /\
         rho T Geometry d' !! i =
           Some (div m_i
                   (xmass (geometry T Geometry d) (m T Geometry d)
                      startIndex endIndex i))) /\
    (forall i, ~ (startIndex <= i < endIndex)%nat ->
       rho T Geometry d' !! i = rho T Geometry d !! i).
Proof.
  intros Hrho Hm. destruct d as [ge ms xms rhos]. simpl in *.
  unfold computeDensity, computeXMass, swap_xm_rho. simpl.
  destruct (for_range_pointwise
              (fun i xm0 => store xm0 i (xmass ge ms startIndex endIndex i))
              (fun i _ => Some (xmass ge ms startIndex endIndex i))
              startIndex endIndex rhos)
    as (r1 & E1 & L1 & K1); [|done|done|].
  { intros i w x Hx. simpl. apply store_Some. by eapply lookup_lt_Some. }
  rewrite E1. simpl.
  destruct (for_range_pointwise
              (fun i rho0 =>
                 m_i ← ms !! i; rho_i ← rho0 !! i; store rho0 i (div m_i rho_i))
              (fun i x => m_i ← ms !! i; Some (div m_i x))
              startIndex endIndex r1)
    as (r2 & E2 & L2 & K2); [|lia| |].
  { intros i w x Hx. destruct (ms !! i) as [m_i|]; simpl; [|done].
    rewrite Hx. simpl. apply store_Some. by eapply lookup_lt_Some. }
  { intros j x Hj _.
    destruct (lookup_lt_is_Some_2 ms j) as [m_j Hmj]; [lia|].
    rewrite Hmj. done. }
  rewrite E2. simpl.
  eexists. split; [done|]. simpl.
  do 3 (split; [done|]). split; [lia|]. split.
  - intros i Hi.
    destruct (lookup_lt_is_Some_2 ms i) as [m_i Hmi]; [lia|].
    destruct (lookup_lt_is_Some_2 rhos i) as [r Hr]; [lia|].
    exists m_i. split; [done|].
    rewrite K2, decide_True by done. rewrite K1, decide_True by done.
    rewrite Hr. simpl. rewrite Hmi. done.
  - intros i Hi. rewrite K2, decide_False by done.
    rewrite K1, decide_False by done. done.
Qed.

End DensityFacts.

Lemma computeDensity_frame_witness :
  exists d',
    Density.computeDensity Q Qdiv unit
      (fun _ _ _ _ i => inject_Z (Z.of_nat i) + 1)
      1 3 (Density.mkDataset Q unit tt [2; 4; 6; 8] [9; 9; 9; 9] [5; 5; 5; 5])
      = Some d' /\
    Density.xm Q unit d' = [9; 9; 9; 9] /\
    Density.m Q unit d' = [2; 4; 6; 8] /\
    Density.geometry Q unit d' = tt /\
    length (Density.rho Q unit d') = 4%nat /\
    (forall i, (1 <= i < 3)%nat ->
       exists m_i,
         ([2; 4; 6; 8] : list Q) !! i = Some m_i /\
         Density.rho Q unit d' !! i =
           Some (m_i / (inject_Z (Z.of_nat i) + 1))) /\
    (forall i, ~ (1 <= i < 3)%nat ->
       Density.rho Q unit d' !! i = ([5; 5; 5; 5] : list Q) !! i).
Proof.
  apply (computeDensity_frame Q Qdiv unit
           (fun _ _ _ _ i => inject_Z (Z.of_nat i) + 1) 1 3
           (Density.mkDataset Q unit tt [2; 4; 6; 8] [9; 9; 9; 9] [5; 5; 5; 5])).
  - simpl. lia.
  - simpl. lia.
Defined.

(** * More on ts_rungs.hpp *)

Section RungMore.
Import Rungs.
Variable maxNumRungs : nat.

(** [sortGroupDt] as its callers see it: the buffers keep their lengths
    and what lies behind [numGroups]; the first [numGroups] timesteps are
    the old ones in ascending order; the first [numGroups] indices are
    0, 1, ... in some order, and the index at a sorted position names the
    group whose timestep stands there. *)
Theorem sortGroupDt_sorts dt idx n dt' idx' :
  sortGroupDt dt idx n = Some (dt', idx') ->
  length dt' = length dt /\ length idx' = length idx /\
  drop n dt' = drop n dt /\ drop n idx' = drop n idx /\
  ascending (take n dt') /\
  Permutation (take n dt') (take n dt) /\
  Permutation (take n idx') (seq 0 n) /\
  (forall p g, (p < n)%nat -> idx' !! p = Some g ->
     (g < n)%nat /\ dt' !! p = dt !! g).
Proof.
  intros H. pose proof (sortGroupDt_spec _ _ _ _ _ H)
    as (_ & _ & Hasc & Hperm & Htrack).
  apply sortGroupDt_inv in H as (Hn & Hn' & -> & ->).
  pose proof (sorted_pairs_length dt n Hn) as Hlen.
  set (kv := sortByKeyGpu (zip (take n dt) (seq 0 n))) in *.
  assert (L1 : length kv.*1 = n) by (by rewrite length_fmap).
  assert (L2 : length kv.*2 = n) by (by rewrite length_fmap).
  split.
  { rewrite length_app, L1, length_drop. lia. }
  split.
  { rewrite length_app, L2, length_drop. lia. }
  split; [by rewrite drop_app_length'|].
  split; [by rewrite drop_app_length'|].
  do 2 (split; [done|]). split.
  - rewrite take_app_length' by done. unfold kv.
    rewrite sortByKeyGpu_perm. rewrite snd_zip; [done|].
    rewrite length_take, length_seq. lia.
  - intros p g Hp Hg.
    destruct (Htrack p Hp) as (k & g' & Hk & Hg' & Horig & Hlt).
    rewrite Hg in Hg'. injection Hg' as <-. split; [done|].
    by rewrite Hk, Horig.
Qed.

(** The fast-fraction index: for fewer than [2^23] groups
    [LocalIndex(0.4f * numGroups)] is the whole part of
    [2 * numGroups / 5], and with at least one group it is the index of a
    group.  The conversion of [numGroups] is exact there, and the
    rounding of the product does not reach the next whole number. *)
Theorem fastIndex_two_fifths n :
  (Z.of_nat n < 2 ^ 23)%Z ->
  fastIndex fastFraction_0_4 n = Some (2 * n / 5)%nat /\
  ((1 <= n)%nat -> (2 * n / 5 < n)%nat).
Proof.
  intros Hn. change (2 ^ 23)%Z with 8388608%Z in Hn. split.
  2:{ intros H1. apply Nat.Div0.div_lt_upper_bound. lia. }
  destruct (decide (n = 0)%nat) as [->|Hn0]; [reflexivity|].
  unfold fastIndex, fastFraction_0_4.
  set (z := Z.of_nat n) in *.
  assert (Ez : round32 (inject_Z z) == inject_Z z).
  { apply round32_int. change (2 ^ 24)%Z with 16777216%Z. lia. }
  assert (Ex : (13421773 # 33554432) * round32 (inject_Z z)
               == (13421773 # 33554432) * inject_Z z) by (by rewrite Ez).
  rewrite (round32_comp _ _ Ex).
  set (x := (13421773 # 33554432) * inject_Z z).
  set (K := (2 * z / 5)%Z).
  assert (HK : (5 * K <= 2 * z < 5 * K + 5)%Z).
  { unfold K. pose proof (Z.div_mod (2 * z) 5 ltac:(lia)) as Hdm.
    pose proof (Z.mod_pos_bound (2 * z) 5 ltac:(lia)) as Hb. lia. }
  assert (Hz1 : 1 <= inject_Z z).
  { change 1 with (inject_Z 1). rewrite <- Zle_Qle. lia. }
  assert (Hx0 : 0 < x) by (unfold x; nra).
  assert (HxK : inject_Z K <= x).
  { unfold x. assert (H : inject_Z 5 * inject_Z K <= inject_Z 2 * inject_Z z).
    { rewrite <- !inject_Z_mult, <- Zle_Qle. lia. }
    change (inject_Z 5) with 5 in H. change (inject_Z 2) with 2 in H. lra. }
  assert (HxK' : x < inject_Z K + (7 # 8)).
  { unfold x.
    assert (H : inject_Z 8 * inject_Z 13421773 * inject_Z z
                < (inject_Z 8 * inject_Z K + inject_Z 7) * inject_Z 33554432).
    { rewrite <- !inject_Z_mult, <- inject_Z_plus, <- inject_Z_mult.
      rewrite <- Zlt_Qlt. lia. }
    change (inject_Z 8) with 8 in H. change (inject_Z 7) with 7 in H.
    change (inject_Z 13421773) with 13421773 in H.
    change (inject_Z 33554432) with 33554432 in H.
    lra. }
  assert (HK4 : inject_Z K <= 4194303).
  { change 4194303 with (inject_Z 4194303). rewrite <- Zle_Qle. lia. }
  assert (Hx22 : x < pow2 22) by (change (pow2 22) with 4194304; lra).
  assert (He : (Qlog2 x < 22)%Z).
  { apply pow2_lt_inv. destruct (Qlog2_spec x Hx0) as [H _].
    eapply Qle_lt_trans; done. }
  assert (Hlo : inject_Z K <= round32 x).
  { apply round32_ge_int; [done| |lia|done].
    change (inject_Z (2 ^ 24)) with 16777216. lra. }
  assert (Hhi : round32 x < inject_Z K + 1).
  { destruct (round_to_near 24 (-126) x Hx0) as [_ H].
    fold round32 in H. eapply Qle_lt_trans; [exact H|].
    assert (Hu : pow2 (ulp_exp 24 (-126) x - 1) <= 1 # 8).
    { change (1 # 8) with (pow2 (-3)). apply pow2_le.
      rewrite (ulp_exp_pos _ _ _ Hx0). lia. }
    lra. }
  set (p := round32 x) in *.
  assert (Hp : 0 <= p).
  { eapply Qle_trans; [|exact Hlo]. change 0 with (inject_Z 0).
    rewrite <- Zle_Qle. lia. }
  apply Qle_bool_iff in Hp. rewrite Hp. f_equal.
  assert (Hfl : Qfloor p = K).
  { apply Z.le_antisymm.
    - assert (H : (Qfloor p < K + 1)%Z); [|lia].
      rewrite Zlt_Qlt. eapply Qle_lt_trans; [apply Qfloor_le|].
      by rewrite inject_Z_plus.
    - rewrite <- (Qfloor_Z K). by apply Qfloor_resp_le. }
  rewrite Hfl. unfold K, z. rewrite <- (Nat2Z.id (2 * n / 5)). f_equal.
  rewrite Nat2Z.inj_div. f_equal. lia.
Qed.

(** The other end of a rung: a group at a sorted position below
    [rungRanges[r]], [1 <= r < numRungs], had a timestep of at most
    [2^r * minDt] before the call.  The bound does not depend on which
    way the search treats a timestep equal to [2^r * minDt]. *)
Theorem rung_upper_bound ranks k rk ts dt' idx' r p hi :
  (maxNumRungs <= 31)%nat ->
  ranks !! k = Some rk ->
  computeRungTimestep_at maxNumRungs ranks k = Some (ts, dt', idx') ->
  (1 <= r)%nat ->
  (Z.of_nat r < numRungs ts)%Z ->
  rungRanges ts !! r = Some hi ->
  (p < hi)%nat ->
  exists g v,
    idx' !! p = Some g /\ (g < numGroups rk)%nat /\
    groupDt rk !! g = Some v /\
    v <= inject_Z (2 ^ Z.of_nat r) * minDt ts.
Proof.
  intros Hmax Hk Hrun Hr1 Hr2 Hhi Hp.
  apply computeRungTimestep_at_inv in Hrun as (rk' & peers & Hk' & Hpeers & Hrun).
  rewrite Hk in Hk'. injection Hk' as <-.
  apply computeRungTimestep_inv in Hrun as (a & b & q & e & Es & Er & _ & _ & ->).
  cbn [rungRanges numRungs minDt] in *.
  destruct (sortGroupDt_spec _ _ _ _ _ Es) as (Hl & _ & Hasc & _ & Htrack).
  set (n := numGroups rk) in *.
  set (m := list_min a peers.*1) in *.
  assert (Hnr : (Z.min (e + 1) (Z.of_nat maxNumRungs) <= Z.of_nat maxNumRungs)%Z)
    by lia.
  apply rungRanges_lookup in Hhi as [[Hj _]|[(Hj & Hlt & ->)|(_ & Hge & _)]];
    [lia| |lia].
  destruct (lowerBoundGpu_spec dt' n (inject_Z (shl1 r) * m) Hl Hasc)
    as (Hle & Hbelow & _).
  destruct (Htrack p) as (v & g & Hv & Hg & Horig & Hgn); [lia|].
  exists g, v. do 3 (split; [done|]).
  rewrite <- (shl1_pow2 r) by lia. by apply (Hbelow p).
Qed.

(** What every [Timestep] that the call returns has, whatever the
    timesteps and the other ranks are: [substep] 0, [dt_drift] all zero,
    [maxNumRungs + 1] range entries of which none exceeds the group
    count, and a [minDt] that is not above any timestep of the rank's own
    groups. *)
Theorem computeRungTimestep_returns ranks k rk ts dt' idx' :
  ranks !! k = Some rk ->
  computeRungTimestep_at maxNumRungs ranks k = Some (ts, dt', idx') ->
  substep ts = 0%Z /\
  dt_drift ts = replicate maxNumRungs 0 /\
  length (rungRanges ts) = S maxNumRungs /\
  Forall (fun b => (b <= numGroups rk)%nat) (rungRanges ts) /\
  (forall v, v ∈ take (numGroups rk) (groupDt rk) -> minDt ts <= v).
Proof.
  intros Hk Hrun.
  apply computeRungTimestep_at_inv in Hrun as (rk' & peers & Hk' & Hpeers & Hrun).
  rewrite Hk in Hk'. injection Hk' as <-.
  apply computeRungTimestep_inv in Hrun as (a & b & q & e & Es & Er & _ & _ & ->).
  cbn [rungRanges numRungs minDt substep dt_drift].
  destruct (sortGroupDt_spec _ _ _ _ _ Es) as (Hl & _ & Hasc & Hperm & _).
  set (n := numGroups rk) in *.
  do 2 (split; [done|]).
  split; [rewrite rungLoop_length; simpl; by rewrite length_replicate|].
  split.
  - apply Forall_forall. intros v Hv.
    apply list_elem_of_lookup in Hv as [j Hj].
    apply rungRanges_lookup in Hj as [[_ ->]|[(_ & _ & ->)|(_ & _ & ->)]];
      [lia| |lia].
    by apply (lowerBoundGpu_spec dt' n).
  - intros v Hv. rewrite <- Hperm in Hv.
    apply list_elem_of_lookup in Hv as [i Hi].
    eapply Qle_trans; [apply list_min_le_head|].
    unfold timestepRangeGpu in Er.
    destruct (dt' !! 0%nat) as [a0|] eqn:E0; [|done]. simpl in Er.
    destruct (fastIndex fastFraction_0_4 n); [|done]. simpl in Er.
    destruct (dt' !! n0); [|done]. simpl in Er. injection Er as -> _.
    apply (Hasc 0%nat i); [lia| |done].
    apply lookup_take_Some. split; [done|].
    apply lookup_take_Some in Hi. lia.
Qed.

End RungMore.

Section RungPartition.
Import Rungs.
Variable maxNumRungs : nat.
Hypothesis maxNumRungs_range : (1 <= maxNumRungs <= 31)%nat.

(** The range entries after the rung loop never decrease. *)
Lemma rungLoop_mono dt n m nr i j x y :
  (n <= length dt)%nat -> ascending (take n dt) -> 0 <= m ->
  (nr <= Z.of_nat maxNumRungs)%Z ->
  (i <= j)%nat ->
  rungLoop dt n m nr (0%nat :: replicate maxNumRungs n) !! i = Some x ->
  rungLoop dt n m nr (0%nat :: replicate maxNumRungs n) !! j = Some y ->
  (x <= y)%nat.
Proof.
  intros Hl Hasc Hm Hnr Hij Hi Hj.
  assert (Hxn : (x <= n)%nat).
  { apply rungRanges_lookup in Hi as [[_ ->]|[(_ & _ & ->)|(_ & _ & ->)]];
      [lia| |lia].
    by apply (lowerBoundGpu_spec dt n). }
  apply rungRanges_lookup in Hi as [[_ ->]|[(Hi1 & Hi2 & ->)|(Hi1 & Hi2 & ->)]];
    [lia| |].
  - apply rungRanges_lookup in Hj as [[Hj0 _]|[(Hj1 & Hj2 & ->)|(_ & _ & ->)]];
      [lia| |done].
    apply lowerBoundGpu_mono; [done..|].
    pose proof (shl1_mono i j Hij ltac:(lia)). nra.
  - apply rungRanges_lookup in Hj as [[Hj0 _]|[(Hj1 & Hj2 & ->)|(_ & _ & ->)]];
      [lia|lia|done].
Qed.

Lemma staircase (f : nat -> nat) N p :
  (f 0 <= p)%nat -> (p < f N)%nat ->
  exists r, (1 <= r <= N)%nat /\ (f (r - 1) <= p < f r)%nat.
Proof.
  intros H0. induction N as [|N IH]; intros HN; [lia|].
  destruct (decide (p < f N)%nat) as [Hlt|Hge].
  - destruct (IH Hlt) as (r & Hr & Hp). exists r. split; [lia|done].
  - exists (S N). split; [lia|].
    replace (S N - 1)%nat with N by lia. lia.
Qed.

(** The rungs partition the groups: when every rank has at least one group
    and all timesteps are positive, every call that returns leaves every
    sorted position below the group count in the range
    [rungRanges[r-1], rungRanges[r]) of exactly one rung [r] of
    [1 .. numRungs].  The call returns when the quotients of the
    timesteps are finite [float]s. *)
Theorem rungs_partition_groups ranks k rk :
  Forall has_groups ranks ->
  Forall positive_dt ranks ->
  ranks !! k = Some rk ->
  (finite_quotients ranks ->
   is_Some (computeRungTimestep_at maxNumRungs ranks k)) /\
  (forall ts dt' idx',
     computeRungTimestep_at maxNumRungs ranks k = Some (ts, dt', idx') ->
     forall p, (p < numGroups rk)%nat ->
       exists r lo hi,
         (1 <= r)%nat /\ (Z.of_nat r <= numRungs ts)%Z /\
         rungRanges ts !! (r - 1)%nat = Some lo /\
         rungRanges ts !! r = Some hi /\
         (lo <= p < hi)%nat /\
         (forall r' lo' hi',
            (1 <= r')%nat -> (Z.of_nat r' <= numRungs ts)%Z ->
            rungRanges ts !! (r' - 1)%nat = Some lo' ->
            rungRanges ts !! r' = Some hi' ->
            (lo' <= p < hi')%nat -> r' = r)).
Proof.
  intros Hall Hpos Hk. split.
  { intros Hfin. by eapply computeRungTimestep_at_good. }
  intros ts dt' idx' Hrun.
  destruct (computeRungTimestep_at_shape maxNumRungs ranks k rk ts dt' idx'
              Hall Hpos Hk Hrun)
    as (peers & a & b & q & Hp & Es & Er & Hm & Hle & _ & Hq & ->).
  cbn [rungRanges numRungs minDt].
  destruct (sortGroupDt_spec _ _ _ _ _ Es) as (Hl & _ & Hasc & _ & _).
  set (n := numGroups rk) in *.
  set (m := list_min a peers.*1) in *.
  pose proof (numRungs_range maxNumRungs maxNumRungs_range _ Hq) as Hnr.
  set (nr := Z.min (Z.log2 (Qfloor q) + 1) (Z.of_nat maxNumRungs)) in *.
  set (rr := rungLoop dt' n m nr (0%nat :: replicate maxNumRungs n)).
  assert (Hmono : forall i j x y, (i <= j)%nat ->
    rr !! i = Some x -> rr !! j = Some y -> (x <= y)%nat).
  { intros i j x y. apply rungLoop_mono; [done|done|lra|lia]. }
  assert (H0 : rr !! 0%nat = Some 0%nat).
  { unfold rr. rewrite rungLoop_lookup. by rewrite decide_False by lia. }
  assert (Hlast : rr !! Z.to_nat nr = Some n).
  { unfold rr. rewrite rungLoop_lookup. rewrite decide_False by lia.
    destruct (Z.to_nat nr) as [|j] eqn:E; [lia|]. simpl.
    apply lookup_replicate_2. lia. }
  intros p Hpn.
  destruct (staircase (fun j => default 0%nat (rr !! j)) (Z.to_nat nr) p)
    as (r & Hr & Hin).
  { rewrite H0. simpl. lia. }
  { rewrite Hlast. simpl. lia. }
  destruct (rungRanges_lookup_Some maxNumRungs dt' n m nr (r - 1))
    as [lo Hlo]; [lia|].
  destruct (rungRanges_lookup_Some maxNumRungs dt' n m nr r)
    as [hi Hhi]; [lia|].
  fold rr in Hlo, Hhi. rewrite Hlo, Hhi in Hin. simpl in Hin.
  exists r, lo, hi. split; [lia|]. split; [lia|].
  do 3 (split; [done|]).
  intros r' lo' hi' Hr1 Hr2 Hlo' Hhi' Hin'.
  destruct (decide (r' = r)) as [|Hne]; [done|exfalso].
  destruct (decide (r' < r)%nat) as [Hlt|Hgt].
  - assert (hi' <= lo)%nat by (apply (Hmono r' (r - 1)%nat); [lia|done..]).
    lia.
  - assert (hi <= lo')%nat by (apply (Hmono r (r' - 1)%nat); [lia|done..]).
    lia.
Qed.

Lemma fastIndex_few n :
  (n <= 2)%nat -> fastIndex fastFraction_0_4 n = Some 0%nat.
Proof.
  intros Hn. destruct n as [|[|[|n]]]; [by vm_compute..|lia].
Qed.

(** A rank with one or two groups hands its least timestep over twice. *)
Lemma localRange_few rk c :
  (numGroups rk <= 2)%nat -> localRange rk = Some c -> c.1 = c.2.
Proof.
  intros Hn. unfold localRange, timestepRangeGpu.
  destruct (sortGroupDt _ _ _) as [[dt' idx']|]; [|done]. simpl.
  rewrite (fastIndex_few _ Hn).
  destruct (dt' !! 0%nat) as [a|] eqn:Ea; [|done]. simpl.
  destruct (dt' !! _) as [b|] eqn:Eb; [|done]. simpl.
  intros E. by simplify_eq.
Qed.

(** With no more than two groups on any rank the fast-fraction reference
    is the least timestep itself: for positive timesteps the call
    returns a single rung that holds all groups, however far apart the
    timesteps of the groups are. *)
Theorem few_groups_one_rung ranks k rk :
  Forall has_groups ranks ->
  Forall positive_dt ranks ->
  Forall (fun rk0 => (numGroups rk0 <= 2)%nat) ranks ->
  ranks !! k = Some rk ->
  exists ts dt' idx',
    computeRungTimestep_at maxNumRungs ranks k = Some (ts, dt', idx') /\
    numRungs ts = 1%Z /\
    rungRanges ts = 0%nat :: replicate maxNumRungs (numGroups rk).
Proof.
  intros Hall Hpos Hfew Hk.
  assert (Hrk : rk ∈ ranks) by (by eapply list_elem_of_lookup_2).
  destruct (mapM_localRange_Some (delete k ranks)) as [peers Hp];
    [by apply Forall_delete|].
  pose proof Hall as Hall'. pose proof Hpos as Hpos'.
  rewrite Forall_forall in Hall'. rewrite Forall_forall in Hpos'.
  destruct (localRange_spec rk (Hall' rk Hrk))
    as (a & b & dt' & idx' & Es & Er & _).
  assert (Hloc : localRange rk = Some (a, b)).
  { unfold localRange. by rewrite Es. }
  assert (Hm : 0 < list_min a peers.*1).
  { destruct (reduced_in_groups ranks k rk peers a b Hall Hk Hp Hloc)
      as [Hmin _].
    apply elem_all_groups in Hmin as (rk' & Hrk' & Hin).
    specialize (Hpos' rk' Hrk'). unfold positive_dt in Hpos'.
    rewrite Forall_forall in Hpos'. by apply Hpos'. }
  rewrite Forall_forall in Hfew.
  assert (Hab : a = b).
  { apply (localRange_few rk (a, b)); [by apply Hfew|done]. }
  assert (Hpeers : peers.*1 = peers.*2).
  { apply list_eq. intros i. rewrite !list_lookup_fmap.
    destruct (peers !! i) as [c|] eqn:Ec; [|done]. simpl. f_equal.
    destruct (mapM_localRange_elem _ _ c Hp) as (rk' & Hrk' & Hl').
    { by eapply list_elem_of_lookup_2. }
    apply (localRange_few rk'); [|done].
    apply Hfew. by eapply list_elem_of_delete_inv. }
  subst b.
  set (m := list_min a peers.*1) in *.
  assert (Heq : m / m == 1) by (field; lra).
  assert (Hd : float_div (list_min a peers.*2) m = Some 1).
  { rewrite <- Hpeers. fold m. rewrite float_div_pos; [|lra|done|].
    - by rewrite (round32_comp _ _ Heq).
    - assert (1 < bin32_overflow) by (by vm_compute). nra. }
  eexists. exists dt', idx'. split.
  - unfold computeRungTimestep_at. rewrite Hk. simpl. rewrite Hp. simpl.
    by apply (computeRungTimestep_steps maxNumRungs peers _ _ _ dt' idx' a a
                1 0).
  - cbn [rungRanges numRungs].
    replace (Z.min (0 + 1) (Z.of_nat maxNumRungs)) with 1%Z by lia.
    done.
Qed.

End RungPartition.

Section RungAgreement.
Import Rungs.
Variable maxNumRungs : nat.

(** What the all-reduce leaves on a rank is one of the numbers that the
    ranks handed in, and none of them is smaller. *)
Lemma reduced_least (f : Q * Q -> Q) ranks k rk peers c :
  ranks !! k = Some rk ->
  mapM localRange (delete k ranks) = Some peers ->
  localRange rk = Some c ->
  (exists rk' c', rk' ∈ ranks /\ localRange rk' = Some c' /\
     list_min (f c) (f <$> peers) = f c') /\
  (forall rk' c', rk' ∈ ranks -> localRange rk' = Some c' ->
     list_min (f c) (f <$> peers) <= f c').
Proof.
  intros Hk Hp Hl. split.
  - destruct (list_min_elem (f c) (f <$> peers)) as [->|Hin].
    + exists rk, c. split; [by eapply list_elem_of_lookup_2|done].
    + apply list_elem_of_fmap in Hin as (c' & Heq & Hc).
      destruct (mapM_localRange_elem _ _ _ Hp Hc) as (rk' & Hrk' & Hl').
      exists rk', c'. split; [by eapply list_elem_of_delete_inv|done].
  - intros rk' c' Hrk' Hl'.
    apply list_elem_of_lookup in Hrk' as [j Hj].
    destruct (decide (j = k)) as [->|Hne].
    + rewrite Hk in Hj. injection Hj as <-.
      rewrite Hl in Hl'. injection Hl' as <-. apply list_min_le_head.
    + pose proof (lookup_delete_elem ranks j k rk' Hj Hne) as Hin.
      destruct (mapM_localRange_peer _ _ _ Hp Hin) as (c0 & Hc & Hlc).
      rewrite Hlc in Hl'. injection Hl' as ->.
      apply list_min_le_elem. apply list_elem_of_fmap. by exists c'.
Qed.

Lemma reduced_agree (f : Q * Q -> Q) ranks k1 k2 rk1 rk2 peers1 peers2 c1 c2 :
  ranks !! k1 = Some rk1 -> ranks !! k2 = Some rk2 ->
  mapM localRange (delete k1 ranks) = Some peers1 ->
  mapM localRange (delete k2 ranks) = Some peers2 ->
  localRange rk1 = Some c1 -> localRange rk2 = Some c2 ->
  list_min (f c1) (f <$> peers1) == list_min (f c2) (f <$> peers2).
Proof.
  intros Hk1 Hk2 Hp1 Hp2 Hl1 Hl2.
  destruct (reduced_least f ranks k1 rk1 peers1 c1 Hk1 Hp1 Hl1)
    as [(r1 & d1 & Hr1 & Hd1 & E1) L1].
  destruct (reduced_least f ranks k2 rk2 peers2 c2 Hk2 Hp2 Hl2)
    as [(r2 & d2 & Hr2 & Hd2 & E2) L2].
  apply Qle_antisym.
  - rewrite E2. by apply (L1 r2).
  - rewrite E1. by apply (L2 r1).
Qed.

Lemma Qle_bool_comp x x' y y' :
  x == x' -> y == y' -> Qle_bool x y = Qle_bool x' y'.
Proof.
  intros Hx Hy. apply eq_true_iff_eq. rewrite !Qle_bool_iff.
  by rewrite Hx, Hy.
Qed.

Lemma float_div_comp a a' b b' q :
  a == a' -> b == b' -> float_div a b = Some q ->
  exists q', float_div a' b' = Some q' /\ q == q'.
Proof.
  intros Ha Hb. unfold float_div.
  assert (Hq : a / b == a' / b') by (by rewrite Ha, Hb).
  destruct (Qeq_bool b 0) eqn:E; [done|].
  destruct (Qle_bool bin32_overflow (Qabs (a / b))) eqn:E2; [done|].
  intros [= <-].
  assert (E' : Qeq_bool b' 0 = false).
  { apply not_true_is_false. rewrite Qeq_bool_iff.
    intros H. apply Qeq_bool_neq in E. apply E. by rewrite Hb. }
  assert (E2' : Qle_bool bin32_overflow (Qabs (a' / b')) = false).
  { rewrite <- E2. apply Qle_bool_comp; [reflexivity|by rewrite Hq]. }
  rewrite E', E2'. eexists. split; [done|].
  by rewrite (round32_comp _ _ Hq).
Qed.

Lemma int_log2_comp x y : x == y -> int_log2 x = int_log2 y.
Proof.
  intros H. unfold int_log2.
  rewrite (Qle_bool_comp x y 0 0 H (Qeq_refl 0)).
  rewrite (Qle_bool_comp 1 1 x y (Qeq_refl 1) H).
  rewrite (Qfloor_comp x y H).
  assert (H' : / x == / y) by (by rewrite H).
  by rewrite (Qfloor_comp _ _ H').
Qed.

(** The ranks agree: the calls of two ranks of one run, when both
    return, give the same global minimum timestep and the same number of
    rungs, whatever groups each of the two ranks holds. *)
Theorem ranks_agree ranks k1 k2 ts1 dt1 idx1 ts2 dt2 idx2 :
  computeRungTimestep_at maxNumRungs ranks k1 = Some (ts1, dt1, idx1) ->
  computeRungTimestep_at maxNumRungs ranks k2 = Some (ts2, dt2, idx2) ->
  minDt ts1 == minDt ts2 /\ numRungs ts1 = numRungs ts2.
Proof.
  intros H1 H2.
  apply computeRungTimestep_at_inv in H1 as (rk1 & peers1 & Hk1 & Hp1 & H1).
  apply computeRungTimestep_at_inv in H2 as (rk2 & peers2 & Hk2 & Hp2 & H2).
  apply computeRungTimestep_inv in H1
    as (a1 & b1 & q1 & e1 & Es1 & Er1 & Ed1 & El1 & ->).
  apply computeRungTimestep_inv in H2
    as (a2 & b2 & q2 & e2 & Es2 & Er2 & Ed2 & El2 & ->).
  cbn [minDt numRungs].
  assert (Hl1 : localRange rk1 = Some (a1, b1)).
  { unfold localRange. rewrite Es1. done. }
  assert (Hl2 : localRange rk2 = Some (a2, b2)).
  { unfold localRange. rewrite Es2. done. }
  pose proof (reduced_agree fst ranks k1 k2 _ _ _ _ _ _
                Hk1 Hk2 Hp1 Hp2 Hl1 Hl2) as Hm.
  pose proof (reduced_agree snd ranks k1 k2 _ _ _ _ _ _
                Hk1 Hk2 Hp1 Hp2 Hl1 Hl2) as Hr.
  simpl in Hm, Hr. split; [done|].
  destruct (float_div_comp _ _ _ _ _ Hr Hm Ed1) as (q' & Ed' & Hq).
  rewrite Ed2 in Ed'. injection Ed' as <-.
  rewrite (int_log2_comp _ _ Hq) in El1.
  rewrite El2 in El1. by injection El1 as ->.
Qed.

End RungAgreement.

Section RungZero.
Import Rungs.
Variable maxNumRungs : nat.

(** A timestep of zero anywhere stops every rank.  When no timestep is
    negative and one group of one rank has the timestep zero, the
    reduced minimum is zero, the quotient [refDt / minDt] is an infinity
    or a NaN, and the call is undefined on every rank, also on the
    ranks whose own timesteps are all positive. *)
Theorem zero_timestep_undefined ranks k v :
  Forall has_groups ranks ->
  (forall w, w ∈ all_groups ranks -> 0 <= w) ->
  v ∈ all_groups ranks ->
  v == 0 ->
  computeRungTimestep_at maxNumRungs ranks k = None.
Proof.
  intros Hall Hnn Hv Hv0.
  destruct (computeRungTimestep_at maxNumRungs ranks k)
    as [[[ts dt'] idx']|] eqn:Hrun; [exfalso|done].
  apply computeRungTimestep_at_inv in Hrun as (rk & peers & Hk & Hp & Hrun).
  apply computeRungTimestep_inv in Hrun
    as (a & b & q & e & Es & Er & Ed & _ & _).
  assert (Hl : localRange rk = Some (a, b)).
  { unfold localRange. rewrite Es. done. }
  destruct (reduced_least fst ranks k rk peers (a, b) Hk Hp Hl)
    as [(r1 & c1 & Hr1 & Hc1 & E1) L1].
  simpl in E1, L1.
  rewrite Forall_forall in Hall.
  assert (Hlow : 0 <= list_min a peers.*1).
  { rewrite E1. apply Hnn. apply elem_all_groups. exists r1.
    split; [done|].
    destruct (localRange_spec r1 (Hall r1 Hr1))
      as (a1 & b1 & ? & ? & _ & _ & Hl1 & Ha1 & _).
    rewrite Hc1 in Hl1. by injection Hl1 as ->. }
  apply elem_all_groups in Hv as (r0 & Hr0 & Hv).
  destruct (localRange_spec r0 (Hall r0 Hr0))
    as (a0 & b0 & ? & ? & _ & _ & Hl0 & _ & _ & _ & Hmin0).
  pose proof (L1 r0 (a0, b0) Hr0 Hl0) as Hup. simpl in Hup.
  pose proof (Hmin0 v Hv) as Hav.
  assert (Hz : list_min a peers.*1 == 0) by lra.
  unfold float_div in Ed.
  apply Qeq_bool_iff in Hz. by rewrite Hz in Ed.
Qed.

End RungZero.

(** * More on [computeDensity] *)

Section LoopBounds.
Context {A : Type}.

(** A loop of defined rounds, each of which needs its slot inside the
    buffer and keeps the length, ran on slots inside the buffer only. *)
Lemma for_loop_Some_bound (body : nat -> list A -> option (list A))
    (P : nat -> Prop) :
  (forall i v v', body i v = Some v' ->
     (i < length v)%nat /\ length v' = length v /\ P i) ->
  forall n i v v',
    for_loop n i body v = Some v' ->
    length v' = length v /\
    (forall j, (i <= j < i + n)%nat -> (j < length v)%nat /\ P j).
Proof.
  intros Hbody. induction n as [|n IH]; intros i v v' H; simpl in H.
  - injection H as <-. split; [done|]. intros j Hj. lia.
  - destruct (body i v) as [s|] eqn:Eb; [|done]. simpl in H.
    destruct (Hbody _ _ _ Eb) as (Hi & Hl & HP).
    destruct (IH _ _ _ H) as [Hl' Hj']. split; [congruence|].
    intros j Hj. destruct (decide (j = i)) as [->|Hne]; [done|].
    rewrite <- Hl. apply Hj'. lia.
Qed.

Lemma for_range_Some_bound (body : nat -> list A -> option (list A))
    (P : nat -> Prop) first last v v' :
  (forall i w w', body i w = Some w' ->
     (i < length w)%nat /\ length w' = length w /\ P i) ->
  for_range first last body v = Some v' ->
  length v' = length v /\
  (forall j, (first <= j < last)%nat -> (j < length v)%nat /\ P j).
Proof.
  intros Hbody H. unfold for_range in H.
  destruct (for_loop_Some_bound body P Hbody _ _ _ _ H) as [Hl Hj].
  split; [done|]. intros j Hjr. apply Hj. lia.
Qed.

Lemma for_range_empty {St} (body : nat -> St -> option St) first last s :
  (last <= first)%nat -> for_range first last body s = Some s.
Proof.
  intros H. unfold for_range. by replace (last - first)%nat with 0%nat by lia.
Qed.

Lemma store_inv (v v' : list A) i x :
  store v i x = Some v' -> (i < length v)%nat /\ v' = <[i := x]> v.
Proof.
  unfold store. case_decide; [|done]. by intros [= <-].
Qed.

End LoopBounds.

Section DensityMore.
Import Density.

Variable T : Type.
Variable div : T -> T -> T.
Variable Geometry : Type.
Variable xmass : Geometry -> list T -> nat -> nat -> nat -> T.

(** The data set after a call whose range is empty or lies inside the
    arrays. *)
Lemma computeDensity_run startIndex endIndex ge ms xms rhos :
  (endIndex <= startIndex)%nat \/
    (endIndex <= length rhos)%nat /\ (endIndex <= length ms)%nat ->
  exists rho',
    computeDensity T div Geometry xmass startIndex endIndex
      (mkDataset T Geometry ge ms xms rhos)
      = Some (mkDataset T Geometry ge ms xms rho') /\
    length rho' = length rhos /\
    (forall j, rho' !! j =
       if decide (startIndex <= j < endIndex)%nat
       then (m_j ← ms !! j; _ ← rhos !! j;
            Some (div m_j (xmass ge ms startIndex endIndex j)))
       else rhos !! j).
Proof.
  intros [Hempty|[Hrho Hm]].
  - exists rhos. unfold computeDensity, computeXMass, swap_xm_rho. simpl.
    rewrite for_range_empty by done. simpl.
    rewrite for_range_empty by done. simpl.
    split; [done|]. split; [done|].
    intros j. rewrite decide_False; [done|lia].
  - unfold computeDensity, computeXMass, swap_xm_rho. simpl.
    destruct (for_range_pointwise
                (fun i xm0 => store xm0 i (xmass ge ms startIndex endIndex i))
                (fun i _ => Some (xmass ge ms startIndex endIndex i))
                startIndex endIndex rhos)
      as (r1 & E1 & L1 & K1); [|done|done|].
    { intros i w x Hx. simpl. apply store_Some. by eapply lookup_lt_Some. }
    rewrite E1. simpl.
    destruct (for_range_pointwise
                (fun i rho0 =>
                   m_i ← ms !! i; rho_i ← rho0 !! i;
                   store rho0 i (div m_i rho_i))
                (fun i x => m_i ← ms !! i; Some (div m_i x))
                startIndex endIndex r1)
      as (r2 & E2 & L2 & K2); [|lia| |].
    { intros i w x Hx. destruct (ms !! i) as [m_i|]; simpl; [|done].
      rewrite Hx. simpl. apply store_Some. by eapply lookup_lt_Some. }
    { intros j x Hj _.
      destruct (lookup_lt_is_Some_2 ms j) as [m_j Hmj]; [lia|].
      rewrite Hmj. done. }
    rewrite E2. simpl.
    exists r2. split; [done|]. split; [lia|].
    intros j. rewrite K2. case_decide as Hj; [|by rewrite K1, decide_False].
    rewrite K1, decide_True by done.
    destruct (lookup_lt_is_Some_2 ms j) as [m_j Hmj]; [lia|].
    destruct (lookup_lt_is_Some_2 rhos j) as [r Hr]; [lia|].
    rewrite Hmj, Hr. done.
Qed.

(** A call that is defined had an empty range or one inside [rho] and
    [m]. *)
Lemma computeDensity_Some_inv startIndex endIndex ge ms xms rhos :
  is_Some (computeDensity T div Geometry xmass startIndex endIndex
             (mkDataset T Geometry ge ms xms rhos)) ->
  (endIndex <= startIndex)%nat \/
    (endIndex <= length rhos)%nat /\ (endIndex <= length ms)%nat.
Proof.
  intros [d' H].
  destruct (decide (endIndex <= startIndex)%nat) as [|Hlt]; [by left|right].
  unfold computeDensity, computeXMass, swap_xm_rho in H. simpl in H.
  destruct (for_range startIndex endIndex _ rhos) as [r1|] eqn:E1; [|done].
  simpl in H.
  destruct (for_range startIndex endIndex _ r1) as [r2|] eqn:E2; [|done].
  apply (for_range_Some_bound _ (fun _ => True)) in E1 as [L1 B1].
  2:{ intros i w w' Hs. apply store_inv in Hs as [Hi ->].
      by rewrite length_insert. }
  apply (for_range_Some_bound _ (fun i => i < length ms)%nat) in E2
    as [L2 B2].
  2:{ intros i w w' Hs.
      destruct (ms !! i) as [m_i|] eqn:Em; [|done]. simpl in Hs.
      destruct (w !! i) as [r_i|]; [|done]. simpl in Hs.
      apply store_inv in Hs as [Hi ->]. rewrite length_insert.
      split; [done|]. split; [done|]. by eapply lookup_lt_Some. }
  destruct (B1 (endIndex - 1)%nat) as [H1 _]; [lia|].
  destruct (B2 (endIndex - 1)%nat) as [_ H2]; [lia|].
  lia.
Qed.

(** Where [computeDensity] is defined: exactly when the range is empty or
    ends inside both [rho] and [m].  A range that is not empty and
    reaches behind one of the two arrays reads or writes outside it;
    [xm] may have any length. *)
Theorem computeDensity_defined startIndex endIndex (d : Dataset T Geometry) :
  is_Some (computeDensity T div Geometry xmass startIndex endIndex d) <->
  ((endIndex <= startIndex)%nat \/
   (endIndex <= length (rho T Geometry d))%nat /\
   (endIndex <= length (m T Geometry d))%nat).
Proof.
  destruct d as [ge ms xms rhos]. simpl. split.
  - apply computeDensity_Some_inv.
  - intros H.
    destruct (computeDensity_run startIndex endIndex ge ms xms rhos H)
      as (rho' & E & _). by rewrite E.
Qed.

(** Calling [computeDensity] again on what it returned changes nothing:
    the densities of the range are computed anew from the masses and the
    x-masses, and what [rho] held before is overwritten, not read. *)
Theorem computeDensity_again startIndex endIndex (d d' : Dataset T Geometry) :
  computeDensity T div Geometry xmass startIndex endIndex d = Some d' ->
  computeDensity T div Geometry xmass startIndex endIndex d' = Some d'.
Proof.
  intros H.
  destruct d as [ge ms xms rhos].
  assert (Hd : is_Some (computeDensity T div Geometry xmass
                          startIndex endIndex
                          (mkDataset T Geometry ge ms xms rhos)))
    by (by rewrite H).
  apply computeDensity_Some_inv in Hd.
  destruct (computeDensity_run startIndex endIndex ge ms xms rhos Hd)
    as (r1 & E1 & L1 & K1).
  rewrite E1 in H. injection H as <-.
  destruct (computeDensity_run startIndex endIndex ge ms xms r1)
    as (r2 & E2 & L2 & K2); [rewrite L1; done|].
  rewrite E2. do 2 f_equal. apply list_eq. intros j.
  rewrite K2. case_decide as Hj; [|done].
  rewrite K1, decide_True by done.
  destruct (ms !! j) as [m_j|]; [|done]. simpl.
  destruct (rhos !! j) as [r|]; done.
Qed.

(** A range may be done in two parts when the x-mass of a particle is
    the same in whatever range [computeXMass] computes it:
    [computeDensity] over [startIndex, endIndex) then gives what the call
    over [startIndex, mid) followed by the call over [mid, endIndex)
    gives, and is undefined exactly when one of the two is. *)
Theorem computeDensity_split startIndex mid endIndex (d : Dataset T Geometry) :
  (forall ge ms s e s' e' i, xmass ge ms s e i = xmass ge ms s' e' i) ->
  (startIndex <= mid <= endIndex)%nat ->
  computeDensity T div Geometry xmass startIndex endIndex d =
    (d1 ← computeDensity T div Geometry xmass startIndex mid d;
     computeDensity T div Geometry xmass mid endIndex d1).
Proof.
  intros Hx Hr. destruct d as [ge ms xms rhos].
  destruct (decide ((endIndex <= startIndex)%nat \/
                    (endIndex <= length rhos)%nat /\
                    (endIndex <= length ms)%nat)) as [Hd|Hn].
  - destruct (computeDensity_run startIndex endIndex ge ms xms rhos Hd)
      as (r & E & L & K).
    destruct (computeDensity_run startIndex mid ge ms xms rhos)
      as (r1 & E1 & L1 & K1); [lia|].
    destruct (computeDensity_run mid endIndex ge ms xms r1)
      as (r2 & E2 & L2 & K2); [rewrite L1; lia|].
    rewrite E, E1. simpl. rewrite E2. do 2 f_equal.
    apply list_eq. intros j. rewrite K, K2, K1.
    rewrite (Hx ge ms startIndex mid startIndex endIndex j).
    rewrite (Hx ge ms mid endIndex startIndex endIndex j).
    repeat case_decide; try done; lia.
  - assert (H0 : computeDensity T div Geometry xmass startIndex endIndex
                   (mkDataset T Geometry ge ms xms rhos) = None).
    { apply eq_None_not_Some. intros Hs.
      by apply computeDensity_Some_inv in Hs. }
    rewrite H0. symmetry.
    destruct (computeDensity T div Geometry xmass startIndex mid _)
      as [d1|] eqn:E1; [|done]. simpl.
    assert (Hd1 : is_Some (computeDensity T div Geometry xmass startIndex mid
                (mkDataset T Geometry ge ms xms rhos))) by (by rewrite E1).
    apply computeDensity_Some_inv in Hd1.
    destruct (computeDensity_run startIndex mid ge ms xms rhos Hd1)
      as (r1 & E1' & L1 & K1).
    rewrite E1' in E1. injection E1 as <-.
    apply eq_None_not_Some. intros Hs.
    apply computeDensity_Some_inv in Hs. rewrite L1 in Hs. lia.
Qed.

End DensityMore.

(** * More on [MomentumSquarePatch::compute] *)

Section MomentumMore.
Import Momentum.

Variable T : Type.
Variables zero one two : T.
Variables add sub mul div : T -> T -> T.
Variable neg : T -> T.
Variable ltb : T -> T -> bool.
Variables sqrt exp abs : T -> T.
Variable pow : T -> T -> T.
Variable artificial_viscosity : T -> T -> T -> T -> T -> T -> T -> T -> T.
Variable wharmonic_derivative : T -> T -> T -> T.

Local Abbreviation compute' :=
  (compute T zero one two add sub mul div neg ltb sqrt exp abs pow
     artificial_viscosity wharmonic_derivative).
Local Abbreviation neighbor_round' :=
  (neighbor_round T zero one two add sub mul div neg ltb sqrt exp abs pow
     artificial_viscosity wharmonic_derivative).

Lemma store_at_spec {A} (a : list A) i v :
  store_at a i v =
    if decide (0 <= i < Z.of_nat (length a))%Z
    then Some (<[Z.to_nat i := v]> a) else None.
Proof. unfold store_at, store. repeat case_decide; try done; lia. Qed.

(** [compute(i)] reads the gradient arrays nowhere: it is the three
    stores of values that the particle arrays alone determine. *)
Lemma compute_factor (params : Params T) iteration P i :
  exists val : option (T * T * T), forall G,
    compute' params iteration P G i =
      ('(a, b, c0) ← val;
       gx ← store_at (grad_P_x T G) i a;
       gy ← store_at (grad_P_y T G) i b;
       gz ← store_at (grad_P_z T G) i c0;
       Some (mkGradients T gx gy gz)).
Proof.
  unfold compute.
  destruct (at_ (ro T P) i) as [ro_i|]; [simpl|by exists None].
  destruct (at_ (p T P) i) as [p_i|]; [simpl|by exists None].
  destruct (at_ (x T P) i) as [x_i|]; [simpl|by exists None].
  destruct (at_ (y T P) i) as [y_i|]; [simpl|by exists None].
  destruct (at_ (z T P) i) as [z_i|]; [simpl|by exists None].
  destruct (at_ (vx T P) i) as [vx_i|]; [simpl|by exists None].
  destruct (at_ (vy T P) i) as [vy_i|]; [simpl|by exists None].
  destruct (at_ (vz T P) i) as [vz_i|]; [simpl|by exists None].
  destruct (at_ (h T P) i) as [h_i|]; [simpl|by exists None].
  destruct (at_ (neighbors T P) i) as [nids|]; [simpl|by exists None].
  destruct (neighbor_loop T _ _ nids) as [[[mx my] mz]|];
    [simpl|by exists None].
  destruct (at_ (m T P) i) as [m_i|]; [simpl|by exists None].
  exists (Some (mul mx m_i, mul my m_i, mul mz m_i)). intros G. reflexivity.
Qed.

(** [compute(i)] writes slot [i] of the three gradient arrays and no
    other slot, and what it writes there does not depend on what the
    gradient arrays held. *)
Theorem compute_frame (params : Params T) iteration P G G' i :
  compute' params iteration P G i = Some G' ->
  (0 <= i)%Z /\
  length (grad_P_x T G') = length (grad_P_x T G) /\
  length (grad_P_y T G') = length (grad_P_y T G) /\
  length (grad_P_z T G') = length (grad_P_z T G) /\
  (forall j, j <> Z.to_nat i ->
     grad_P_x T G' !! j = grad_P_x T G !! j /\
     grad_P_y T G' !! j = grad_P_y T G !! j /\
     grad_P_z T G' !! j = grad_P_z T G !! j) /\
  (forall G2 G2',
     compute' params iteration P G2 i = Some G2' ->
     grad_P_x T G2' !! Z.to_nat i = grad_P_x T G' !! Z.to_nat i /\
     grad_P_y T G2' !! Z.to_nat i = grad_P_y T G' !! Z.to_nat i /\
     grad_P_z T G2' !! Z.to_nat i = grad_P_z T G' !! Z.to_nat i).
Proof.
  intros H. destruct (compute_factor params iteration P i) as [val Hv].
  rewrite Hv in H. destruct val as [[[a b] c0]|]; [|done]. simpl in H.
  rewrite !store_at_spec in H.
  destruct G as [gx gy gz]. simpl in H.
  destruct (decide (0 <= i < Z.of_nat (length gx))%Z) as [Hx|]; [|done].
  simpl in H.
  destruct (decide (0 <= i < Z.of_nat (length gy))%Z) as [Hy|]; [|done].
  simpl in H.
  destruct (decide (0 <= i < Z.of_nat (length gz))%Z) as [Hz|]; [|done].
  simpl in H. injection H as <-. simpl.
  split; [lia|]. rewrite !length_insert. do 3 (split; [done|]). split.
  - intros j Hj. by rewrite !list_lookup_insert_ne by done.
  - intros [gx2 gy2 gz2] G2' H2. rewrite Hv in H2. simpl in H2.
    rewrite !store_at_spec in H2.
    destruct (decide (0 <= i < Z.of_nat (length gx2))%Z) as [Hx2|]; [|done].
    simpl in H2.
    destruct (decide (0 <= i < Z.of_nat (length gy2))%Z) as [Hy2|]; [|done].
    simpl in H2.
    destruct (decide (0 <= i < Z.of_nat (length gz2))%Z) as [Hz2|]; [|done].
    simpl in H2. injection H2 as <-. simpl.
    by rewrite !list_lookup_insert_eq by lia.
Qed.

Lemma store_at_commute {A} (a : list A) i j v w :
  i <> j ->
  (a1 ← store_at a i v; store_at a1 j w) =
  (a2 ← store_at a j w; store_at a2 i v).
Proof.
  intros Hij. rewrite !store_at_spec.
  destruct (decide (0 <= i < Z.of_nat (length a))%Z) as [Hi|Hi],
           (decide (0 <= j < Z.of_nat (length a))%Z) as [Hj|Hj]; simpl;
    rewrite ?store_at_spec, ?length_insert;
    rewrite ?decide_True by done; rewrite ?decide_False by done; try done.
  f_equal. apply list_insert_insert_ne. lia.
Qed.

(** The tasks of two particles may run in either order: [compute(i)]
    followed by [compute(j)] leaves the gradient arrays that
    [compute(j)] followed by [compute(i)] leaves, and is undefined
    exactly when that is. *)
Theorem compute_commute (params : Params T) iteration P G i j :
  i <> j ->
  (G1 ← compute' params iteration P G i; compute' params iteration P G1 j) =
  (G2 ← compute' params iteration P G j; compute' params iteration P G2 i).
Proof.
  intros Hij.
  destruct (compute_factor params iteration P i) as [vi Hi].
  destruct (compute_factor params iteration P j) as [vj Hj].
  destruct G as [gx gy gz].
  rewrite (Hi (mkGradients T gx gy gz)), (Hj (mkGradients T gx gy gz)).
  simpl.
  assert (Hnone_i : forall G0, vi = None ->
            compute' params iteration P G0 i = None).
  { intros G0 ->. by rewrite Hi. }
  assert (Hnone_j : forall G0, vj = None ->
            compute' params iteration P G0 j = None).
  { intros G0 ->. by rewrite Hj. }
  destruct vi as [[[a b] c0]|]; simpl.
  2:{ destruct vj as [[[a' b'] c0']|]; simpl; [|done].
      destruct (store_at gx j a'); simpl; [|done].
      destruct (store_at gy j b'); simpl; [|done].
      destruct (store_at gz j c0'); simpl; [|done].
      by rewrite Hnone_i. }
  destruct vj as [[[a' b'] c0']|]; simpl.
  2:{ destruct (store_at gx i a); simpl; [|done].
      destruct (store_at gy i b); simpl; [|done].
      destruct (store_at gz i c0); simpl; [|done].
      by rewrite Hnone_j. }
  rewrite !store_at_spec.
  destruct (decide (0 <= i < Z.of_nat (length gx))%Z) as [Hxi|Hxi],
           (decide (0 <= i < Z.of_nat (length gy))%Z) as [Hyi|Hyi],
           (decide (0 <= i < Z.of_nat (length gz))%Z) as [Hzi|Hzi],
           (decide (0 <= j < Z.of_nat (length gx))%Z) as [Hxj|Hxj],
           (decide (0 <= j < Z.of_nat (length gy))%Z) as [Hyj|Hyj],
           (decide (0 <= j < Z.of_nat (length gz))%Z) as [Hzj|Hzj];
    simpl; rewrite ?Hi, ?Hj; simpl;
    rewrite ?store_at_spec, ?length_insert;
    rewrite ?decide_True by done; simpl;
    repeat (first [rewrite decide_False by done
                  |rewrite decide_True by done]; simpl);
    try done.
  by rewrite (list_insert_insert_ne gx (Z.to_nat i) (Z.to_nat j)),
     (list_insert_insert_ne gy (Z.to_nat i) (Z.to_nat j)),
     (list_insert_insert_ne gz (Z.to_nat i) (Z.to_nat j)) by lia.
Qed.

Lemma neighbor_round_self (params : Params T) iteration P i
    ro_i p_i x_i y_i z_i vx_i vy_i vz_i h_i A_i0 momentum :
  neighbor_round' params iteration P i
    ro_i p_i x_i y_i z_i vx_i vy_i vz_i h_i A_i0 momentum i = Some momentum.
Proof.
  unfold neighbor_round. destruct momentum as [[mx my] mz].
  by rewrite decide_True.
Qed.

Lemma neighbor_loop_skip (round : T * T * T -> Z -> option (T * T * T))
    nids i :
  (forall momentum, round momentum i = Some momentum) ->
  forall momentum,
    neighbor_loop T round momentum nids =
    neighbor_loop T round momentum (filter (fun nid => nid <> i) nids).
Proof.
  intros Hself. induction nids as [|nid nids IH]; intros momentum; [done|].
  destruct (decide (nid = i)) as [->|Hne].
  - rewrite filter_cons_False by (intros H; by apply H).
    simpl. rewrite Hself. simpl. apply IH.
  - rewrite filter_cons_True by done. simpl.
    destruct (round momentum nid) as [momentum'|]; simpl; [apply IH|done].
Qed.

(** Of the neighbour lists [compute(i)] takes the entries of
    [neighbors[i]] other than [i] itself, in their order: the lists of
    the other particles, and where and how often [i] stands in its own
    list, make no difference. *)
Theorem compute_neighbors (params : Params T) iteration P nbrs' G i n1 n2 :
  at_ (neighbors T P) i = Some n1 ->
  at_ nbrs' i = Some n2 ->
  filter (fun nid => nid <> i) n1 = filter (fun nid => nid <> i) n2 ->
  compute' params iteration P G i =
  compute' params iteration
    (mkParticles T (x T P) (y T P) (z T P) (h T P) (vx T P) (vy T P) (vz T P)
       (ro T P) (p T P) (c T P) (m T P) nbrs') G i.
Proof.
  intros H1 H2 Hf. unfold compute. cbn [x y z h vx vy vz ro p c m neighbors].
  rewrite H1, H2.
  destruct (at_ (ro T P) i) as [ro_i|]; [simpl|reflexivity].
  destruct (at_ (p T P) i) as [p_i|]; [simpl|reflexivity].
  destruct (at_ (x T P) i) as [x_i|]; [simpl|reflexivity].
  destruct (at_ (y T P) i) as [y_i|]; [simpl|reflexivity].
  destruct (at_ (z T P) i) as [z_i|]; [simpl|reflexivity].
  destruct (at_ (vx T P) i) as [vx_i|]; [simpl|reflexivity].
  destruct (at_ (vy T P) i) as [vy_i|]; [simpl|reflexivity].
  destruct (at_ (vz T P) i) as [vz_i|]; [simpl|reflexivity].
  destruct (at_ (h T P) i) as [h_i|]; [simpl|reflexivity].
  rewrite (neighbor_loop_skip _ n1 i) by (intros; apply neighbor_round_self).
  rewrite (neighbor_loop_skip _ n2 i) by (intros; apply neighbor_round_self).
  rewrite Hf. reflexivity.
Qed.

Lemma at_Some_inv {A} (a : list A) i v :
  at_ a i = Some v -> (0 <= i < Z.of_nat (length a))%Z.
Proof.
  unfold at_. case_decide as H0; [|done]. intros Hv.
  apply lookup_lt_Some in Hv. lia.
Qed.

Lemma neighbor_loop_Some_inv (round : T * T * T -> Z -> option (T * T * T))
    (R : Z -> Prop) nids :
  (forall momentum nid momentum',
     round momentum nid = Some momentum' -> R nid) ->
  forall momentum momentum',
    neighbor_loop T round momentum nids = Some momentum' ->
    forall nid, nid ∈ nids -> R nid.
Proof.
  intros Hround. induction nids as [|nid0 nids IH];
    intros momentum momentum' H nid Hin.
  - by apply elem_of_nil in Hin.
  - simpl in H. destruct (round momentum nid0) as [momentum1|] eqn:E; [|done].
    simpl in H. apply elem_of_cons in Hin as [->|Hin].
    + by eapply Hround.
    + by eapply IH.
Qed.

(** A round for a neighbour other than [i] read all eleven particle
    arrays at the neighbour, and [c] at [i]. *)
Lemma neighbor_round_Some_inv (params : Params T) iteration P i
    ro_i p_i x_i y_i z_i vx_i vy_i vz_i h_i A_i0 momentum nid momentum' :
  neighbor_round' params iteration P i
    ro_i p_i x_i y_i z_i vx_i vy_i vz_i h_i A_i0 momentum nid
    = Some momentum' ->
  nid <> i ->
  Forall (fun a => (0 <= nid < Z.of_nat (length a))%Z)
    [x T P; y T P; z T P; h T P; vx T P; vy T P; vz T P;
     ro T P; p T P; m T P; c T P] /\
  (0 <= i < Z.of_nat (length (c T P)))%Z.
Proof.
  unfold neighbor_round. destruct momentum as [[mx my] mz].
  intros H Hne. rewrite decide_False in H by done.
  destruct (at_ (ro T P) nid) eqn:Ero; [|done]. simpl in H.
  destruct (at_ (p T P) nid) eqn:Ep; [|done]. simpl in H.
  destruct (at_ (x T P) nid) eqn:Ex; [|done]. simpl in H.
  destruct (at_ (y T P) nid) eqn:Ey; [|done]. simpl in H.
  destruct (at_ (z T P) nid) eqn:Ez; [|done]. simpl in H.
  destruct (at_ (h T P) nid) eqn:Eh; [|done]. simpl in H.
  destruct (at_ (m T P) nid) eqn:Em; [|done]. simpl in H.
  destruct (at_ (vx T P) nid) eqn:Evx; [|done]. simpl in H.
  destruct (at_ (vy T P) nid) eqn:Evy; [|done]. simpl in H.
  destruct (at_ (vz T P) nid) eqn:Evz; [|done]. simpl in H.
  destruct (at_ (h T P) i) eqn:Ehi; [|done]. simpl in H.
  destruct (at_ (c T P) i) eqn:Eci; [|done]. simpl in H.
  destruct (at_ (c T P) nid) eqn:Ec; [|done].
  split; [|by eapply at_Some_inv].
  repeat (constructor; [by eapply at_Some_inv|]). constructor.
Qed.

(** What a defined [compute(i)] read lies inside the arrays: [i] is an
    index of the particle arrays that the task reads at [i] and of the
    three gradient arrays, and every entry of [neighbors[i]] other than
    [i] is an index of all eleven particle arrays.  One neighbour id
    outside the arrays leaves the task undefined. *)
Theorem compute_reads_inside (params : Params T) iteration P G G' i :
  compute' params iteration P G i = Some G' ->
  exists nids,
    at_ (neighbors T P) i = Some nids /\
    Forall (fun a => (0 <= i < Z.of_nat (length a))%Z)
      [x T P; y T P; z T P; h T P; vx T P; vy T P; vz T P;
       ro T P; p T P; m T P;
       grad_P_x T G; grad_P_y T G; grad_P_z T G] /\
    (forall nid, nid ∈ nids -> nid <> i ->
       Forall (fun a => (0 <= nid < Z.of_nat (length a))%Z)
         [x T P; y T P; z T P; h T P; vx T P; vy T P; vz T P;
          ro T P; p T P; m T P; c T P] /\
       (0 <= i < Z.of_nat (length (c T P)))%Z).
Proof.
  unfold compute. intros H.
  destruct (at_ (ro T P) i) as [ro_i|] eqn:Ero; [|done]. simpl in H.
  destruct (at_ (p T P) i) as [p_i|] eqn:Ep; [|done]. simpl in H.
  destruct (at_ (x T P) i) as [x_i|] eqn:Ex; [|done]. simpl in H.
  destruct (at_ (y T P) i) as [y_i|] eqn:Ey; [|done]. simpl in H.
  destruct (at_ (z T P) i) as [z_i|] eqn:Ez; [|done]. simpl in H.
  destruct (at_ (vx T P) i) as [vx_i|] eqn:Evx; [|done]. simpl in H.
  destruct (at_ (vy T P) i) as [vy_i|] eqn:Evy; [|done]. simpl in H.
  destruct (at_ (vz T P) i) as [vz_i|] eqn:Evz; [|done]. simpl in H.
  destruct (at_ (h T P) i) as [h_i|] eqn:Eh; [|done]. simpl in H.
  destruct (at_ (neighbors T P) i) as [nids|] eqn:En; [|done]. simpl in H.
  destruct (neighbor_loop T _ _ nids) as [[[mx my] mz]|] eqn:El; [|done].
  simpl in H.
  destruct (at_ (m T P) i) as [m_i|] eqn:Em; [|done]. simpl in H.
  rewrite !store_at_spec in H.
  destruct (decide (0 <= i < Z.of_nat (length (grad_P_x T G)))%Z); [|done].
  simpl in H.
  destruct (decide (0 <= i < Z.of_nat (length (grad_P_y T G)))%Z); [|done].
  simpl in H.
  destruct (decide (0 <= i < Z.of_nat (length (grad_P_z T G)))%Z); [|done].
  exists nids. split; [done|]. split.
  { repeat (constructor; [by eapply at_Some_inv|]).
    repeat (constructor; [done|]). constructor. }
  intros nid Hin.
  refine (neighbor_loop_Some_inv _
            (fun nid =>
               nid <> i ->
               Forall (fun a => (0 <= nid < Z.of_nat (length a))%Z)
                 [x T P; y T P; z T P; h T P; vx T P; vy T P; vz T P;
                  ro T P; p T P; m T P; c T P] /\
               (0 <= i < Z.of_nat (length (c T P)))%Z)
            nids _ _ _ El nid Hin).
  intros momentum nid0 momentum'. apply neighbor_round_Some_inv.
Qed.

End MomentumMore.

(** * More on [NbodyProp::step] *)

Section NbodyMore.
Import Nbody.

Variable MHolder : Type.
Variable syncGrav : Domain -> ParticlesData -> Domain * ParticlesData.
Variable upsweep : MHolder -> ParticlesData -> Domain -> MHolder.
Variable traverse : MHolder -> ParticlesData -> Domain -> MHolder * ParticlesData.
Variable readStats : MHolder -> Stats.

Lemma fill_inv {A} (v v' : list A) first last (x : A) :
  fill v first last x = Some v' ->
  (first <= last <= length v)%nat /\
  length v' = length v /\
  (forall j, v' !! j =
     if decide (first <= j < last)%nat then Some x else v !! j).
Proof.
  intros H.
  assert (Hr : (first <= last <= length v)%nat).
  { unfold fill in H. by case_decide. }
  split; [done|].
  destruct (fill_spec v first last x Hr) as (v0 & E & L & K).
  rewrite E in H. by injection H as <-.
Qed.

(** What a defined resize and pad needed and what it left beside the
    padding. *)
Lemma resizeAndPad_inv (domain : Domain) (d d' : ParticlesData) :
  resizeAndPad domain d = Some d' ->
  (startIndex domain < nParticlesWithHalos domain)%nat /\
  (endIndex domain <= nParticlesWithHalos domain)%nat /\
  length (m d') = nParticlesWithHalos domain /\
  ax d' = resize (nParticlesWithHalos domain) 0 (ax d) /\
  ay d' = resize (nParticlesWithHalos domain) 0 (ay d) /\
  az d' = resize (nParticlesWithHalos domain) 0 (az d) /\
  egrav d' = egrav d /\
  (forall i, (startIndex domain <= i < endIndex domain)%nat ->
     m d' !! i = resize (nParticlesWithHalos domain) 0 (m d) !! i).
Proof.
  unfold resizeAndPad.
  set (n := nParticlesWithHalos domain).
  set (first := startIndex domain).
  set (last := endIndex domain).
  cbn [resizeData m ax ay az egrav].
  set (m0 := resize n 0 (m d)).
  assert (Hn : length m0 = n) by apply length_resize.
  intros H.
  destruct (m0 !! first) as [v|] eqn:Ev; [|done].
  apply lookup_lt_Some in Ev. cbn [mbind option_bind] in H.
  destruct (fill m0 0 first v) as [m1|] eqn:E1; [|done].
  cbn [mbind option_bind] in H.
  destruct (m1 !! first) as [v'|] eqn:Ev'; [|done].
  cbn [mbind option_bind] in H.
  destruct (fill m1 last n v') as [m2|] eqn:E2; [|done].
  cbn [mbind option_bind] in H. injection H as <-.
  cbn [m ax ay az egrav].
  apply fill_inv in E1 as (R1 & L1 & K1).
  apply fill_inv in E2 as (R2 & L2 & K2).
  split; [lia|]. split; [lia|]. split; [lia|].
  do 4 (split; [done|]).
  intros i Hi. rewrite K2, decide_False by lia.
  by rewrite K1, decide_False by lia.
Qed.

Lemma resetAccelerations_inv (domain : Domain) (d d' : ParticlesData) :
  resetAccelerations domain d = Some d' ->
  (startIndex domain <= endIndex domain)%nat /\
  (endIndex domain <= length (ax d))%nat /\
  (endIndex domain <= length (ay d))%nat /\
  (endIndex domain <= length (az d))%nat /\
  m d' = m d /\ egrav d' = egrav d /\
  length (ax d') = length (ax d) /\
  length (ay d') = length (ay d) /\
  length (az d') = length (az d) /\
  (forall i,
     ax d' !! i = (if decide (startIndex domain <= i < endIndex domain)%nat
                   then Some 0 else ax d !! i) /\
     ay d' !! i = (if decide (startIndex domain <= i < endIndex domain)%nat
                   then Some 0 else ay d !! i) /\
     az d' !! i = (if decide (startIndex domain <= i < endIndex domain)%nat
                   then Some 0 else az d !! i)).
Proof.
  unfold resetAccelerations. intros H.
  destruct (fill (ax d) _ _ 0) as [ax1|] eqn:Ex; [|done].
  cbn [mbind option_bind] in H.
  destruct (fill (ay d) _ _ 0) as [ay1|] eqn:Ey; [|done].
  cbn [mbind option_bind] in H.
  destruct (fill (az d) _ _ 0) as [az1|] eqn:Ez; [|done].
  cbn [mbind option_bind] in H. injection H as <-.
  cbn [m ax ay az egrav].
  apply fill_inv in Ex as (Rx & Lx & Kx).
  apply fill_inv in Ey as (Ry & Ly & Ky).
  apply fill_inv in Ez as (Rz & Lz & Kz).
  split; [lia|]. do 3 (split; [lia|]). do 5 (split; [done|]).
  intros i. by rewrite Kx, Ky, Kz.
Qed.

(** What the gravity solver receives.  When the part of [step] before
    the reductions is defined, the owned range [first, last) lies inside
    the [n] slots of the arrays and [first] is one of the slots, also
    when the rank owns no particle; upsweep and traversal get arrays of
    [n] slots whose accelerations are zero on the owned range and are
    not reset outside it, where they hold what the synchronisation left
    (zero in a slot that the resize added); the owned masses and
    [egrav] are those of the synchronisation. *)
Theorem stepLocal_solver_input (domain domain1 : Domain)
    (d d1 : ParticlesData) (mHolder : MHolder) s' :
  syncGrav domain d = (domain1, d1) ->
  stepLocal MHolder syncGrav upsweep traverse (domain, d, mHolder) = Some s' ->
  exists d3,
    s' = (domain1,
          (traverse (upsweep mHolder d3 domain1) d3 domain1).2,
          (traverse (upsweep mHolder d3 domain1) d3 domain1).1) /\
    (startIndex domain1 < nParticlesWithHalos domain1)%nat /\
    (startIndex domain1 <= endIndex domain1 <= nParticlesWithHalos domain1)%nat /\
    length (m d3) = nParticlesWithHalos domain1 /\
    length (ax d3) = nParticlesWithHalos domain1 /\
    length (ay d3) = nParticlesWithHalos domain1 /\
    length (az d3) = nParticlesWithHalos domain1 /\
    egrav d3 = egrav d1 /\
    (forall i, (startIndex domain1 <= i < endIndex domain1)%nat ->
       ax d3 !! i = Some 0 /\ ay d3 !! i = Some 0 /\ az d3 !! i = Some 0 /\
       m d3 !! i = resize (nParticlesWithHalos domain1) 0 (m d1) !! i) /\
    (forall i, ~ (startIndex domain1 <= i < endIndex domain1)%nat ->
       ax d3 !! i = resize (nParticlesWithHalos domain1) 0 (ax d1) !! i /\
       ay d3 !! i = resize (nParticlesWithHalos domain1) 0 (ay d1) !! i /\
       az d3 !! i = resize (nParticlesWithHalos domain1) 0 (az d1) !! i).
Proof.
  intros Hsync H. unfold stepLocal in H. rewrite Hsync in H.
  destruct (resizeAndPad domain1 d1) as [d2|] eqn:E2; [|done].
  cbn [mbind option_bind] in H.
  destruct (resetAccelerations domain1 d2) as [d3|] eqn:E3; [|done].
  cbn [mbind option_bind] in H.
  destruct (traverse (upsweep mHolder d3 domain1) d3 domain1)
    as [mHolder2 d4] eqn:Et.
  injection H as <-. exists d3. rewrite Et. split; [done|].
  apply resizeAndPad_inv in E2
    as (Hf & Hl & Lm & Eax & Eay & Eaz & Eg & Km).
  apply resetAccelerations_inv in E3
    as (Hfl & _ & _ & _ & Em & Eg3 & Lx & Ly & Lz & Kr).
  rewrite Eax in Lx. rewrite Eay in Ly. rewrite Eaz in Lz.
  rewrite length_resize in Lx, Ly, Lz.
  split; [done|]. split; [lia|]. split; [by rewrite Em|].
  do 3 (split; [done|]). split; [by rewrite Eg3|]. split.
  - intros i Hi. destruct (Kr i) as (Kx & Ky & Kz).
    rewrite decide_True in Kx, Ky, Kz by done.
    do 3 (split; [done|]). rewrite Em. by apply Km.
  - intros i Hi. destruct (Kr i) as (Kx & Ky & Kz).
    rewrite decide_False in Kx, Ky, Kz by done.
    by rewrite Kx, Ky, Kz, Eax, Eay, Eaz.
Qed.

(** The diagnostics of a [step] that is defined. *)
Lemma step_line_inv world rank s' g line :
  step MHolder syncGrav upsweep traverse readStats world rank
    = Some (s', g, line) ->
  diagnostics s'.1.1 (readStats s'.2) g = Some line /\
  (rank <> rootRank -> g = None).
Proof.
  unfold step. intros H.
  destruct (world !! rank) as [s|] eqn:Es; [|discriminate H].
  cbn [mbind option_bind] in H.
  destruct (stepLocal MHolder syncGrav upsweep traverse s)
    as [[[domain1 d4] mHolder2]|] eqn:El; [|discriminate H].
  cbn [mbind option_bind] in H.
  destruct (mapM _ world) as [locals|] eqn:Em; [|discriminate H].
  cbn [mbind option_bind] in H.
  destruct (mjoin (MPI_Reduce MPI_SUM _ rootRank rank (Some (Some 0))))
    as [globalEnergy|] eqn:Er; [|discriminate H].
  cbn [mbind option_bind] in H.
  destruct (diagnostics _ _ _) as [line0|] eqn:Ed; [|discriminate H].
  cbn [mbind option_bind] in H. injection H as <- <- <-.
  split; [exact Ed|].
  intros Hrank. unfold MPI_Reduce. by rewrite decide_False.
Qed.

(** Who prints.  A [step] that is defined printed the line of counters
    exactly when the owned range of the rank starts at local index 0.
    It then ran on the root rank and the owned range is not empty; the
    counts per particle are the quotients by the number of owned
    particles, and the last number of the line is the reduced maximum.
    So on any other rank an owned range that starts at 0 leaves the
    step undefined: the line would show a [maxP2Pglobal] that nothing
    wrote. *)
Theorem step_prints_on_root world rank s' g line :
  step MHolder syncGrav upsweep traverse readStats world rank
    = Some (s', g, line) ->
  (is_Some line <-> startIndex s'.1.1 = 0%nat) /\
  (forall l, line = Some l ->
     rank = rootRank /\
     (0 < endIndex s'.1.1)%nat /\
     exists gmax,
       g = Some gmax /\
       l = ((numP2P (readStats s'.2) / Z.of_nat (endIndex s'.1.1))%Z,
            maxP2P (readStats s'.2),
            (numM2P (readStats s'.2) / Z.of_nat (endIndex s'.1.1))%Z,
            maxM2P (readStats s'.2),
            gmax)).
Proof.
  intros H. apply step_line_inv in H as [Hd Hoff].
  unfold diagnostics in Hd.
  destruct (decide (startIndex s'.1.1 = 0%nat)) as [H0|Hne0].
  - rewrite H0, Nat.sub_0_r in Hd.
    destruct (decide (Z.of_nat (endIndex s'.1.1) = 0%Z)) as [|Hn]; [done|].
    destruct g as [gmax|]; [|done]. simpl in Hd. injection Hd as <-.
    split; [done|]. intros l [= <-]. split.
    { destruct (decide (rank = rootRank)) as [|Hne]; [done|].
      by specialize (Hoff Hne). }
    split; [lia|]. by exists gmax.
  - injection Hd as <-. split; [|done].
    split; [by intros [l Hl]|done].
Qed.

End NbodyMore.

(** * The theorems above at work *)

Lemma sortGroupDt_sorts_witness :
  length ([1; 2; 4; 8; 16; 3] : list Q) = length ([16; 2; 1; 8; 4; 3] : list Q) /\
  length [2; 1; 4; 3; 0; 9]%nat = length [9; 9; 9; 9; 9; 9]%nat /\
  drop 5 ([1; 2; 4; 8; 16; 3] : list Q) = drop 5 [16; 2; 1; 8; 4; 3] /\
  drop 5 [2; 1; 4; 3; 0; 9]%nat = drop 5 [9; 9; 9; 9; 9; 9]%nat /\
  ascending (take 5 [1; 2; 4; 8; 16; 3]) /\
  Permutation (take 5 ([1; 2; 4; 8; 16; 3] : list Q))
    (take 5 [16; 2; 1; 8; 4; 3]) /\
  Permutation (take 5 [2; 1; 4; 3; 0; 9]%nat) (seq 0 5) /\
  (forall p g, (p < 5)%nat -> [2; 1; 4; 3; 0; 9]%nat !! p = Some g ->
     (g < 5)%nat /\
     ([1; 2; 4; 8; 16; 3] : list Q) !! p = ([16; 2; 1; 8; 4; 3] : list Q) !! g).
Proof.
  apply (sortGroupDt_sorts [16; 2; 1; 8; 4; 3] [9; 9; 9; 9; 9; 9]%nat 5
           [1; 2; 4; 8; 16; 3] [2; 1; 4; 3; 0; 9]%nat).
  vm_compute. reflexivity.
Defined.

Lemma fastIndex_two_fifths_witness :
  Rungs.fastIndex Rungs.fastFraction_0_4 13 = Some (2 * 13 / 5)%nat /\
  ((1 <= 13)%nat -> (2 * 13 / 5 < 13)%nat).
Proof.
  apply (fastIndex_two_fifths 13). reflexivity.
Defined.

Lemma rung_upper_bound_witness :
  exists g v,
    ([2; 1; 4; 3; 0]%nat : list nat) !! 2%nat = Some g /\ (g < 5)%nat /\
    ([16; 2; 1; 8; 4] : list Q) !! g = Some v /\
    v <= inject_Z (2 ^ Z.of_nat 2) * 1.
Proof.
  apply (rung_upper_bound 4
           [Rungs.mkRank 5 [16; 2; 1; 8; 4] [0; 0; 0; 0; 0]%nat] 0
           (Rungs.mkRank 5 [16; 2; 1; 8; 4] [0; 0; 0; 0; 0]%nat)
           (Rungs.mkTimestep 1 3 0 [0; 2; 3; 5; 5]%nat [0; 0; 0; 0])
           [1; 2; 4; 8; 16] [2; 1; 4; 3; 0]%nat 2 2 3).
  - lia.
  - reflexivity.
  - vm_compute. reflexivity.
  - lia.
  - simpl. lia.
  - reflexivity.
  - lia.
Defined.

Lemma computeRungTimestep_returns_witness :
  Rungs.substep (Rungs.mkTimestep 1 2 0 [0; 0; 2; 2; 2]%nat [0; 0; 0; 0]) = 0%Z /\
  Rungs.dt_drift (Rungs.mkTimestep 1 2 0 [0; 0; 2; 2; 2]%nat [0; 0; 0; 0])
    = replicate 4 0 /\
  length (Rungs.rungRanges
            (Rungs.mkTimestep 1 2 0 [0; 0; 2; 2; 2]%nat [0; 0; 0; 0])) = 5%nat /\
  Forall (fun b => (b <= 2)%nat)
    (Rungs.rungRanges
       (Rungs.mkTimestep 1 2 0 [0; 0; 2; 2; 2]%nat [0; 0; 0; 0])) /\
  (forall v, v ∈ take 2 ([3; 32] : list Q) -> 1 <= v).
Proof.
  apply (computeRungTimestep_returns 4
           [Rungs.mkRank 5 [16; 2; 1; 8; 4] [0; 0; 0; 0; 0]%nat;
            Rungs.mkRank 2 [3; 32] [7; 7]%nat] 1
           (Rungs.mkRank 2 [3; 32] [7; 7]%nat)
           (Rungs.mkTimestep 1 2 0 [0; 0; 2; 2; 2]%nat [0; 0; 0; 0])
           [3; 32] [0; 1]%nat).
  - reflexivity.
  - vm_compute. reflexivity.
Defined.

Lemma rungs_partition_groups_witness :
  (Rungs.finite_quotients
     [Rungs.mkRank 5 [16; 2; 1; 8; 4] [0; 0; 0; 0; 0]%nat] ->
   is_Some (Rungs.computeRungTimestep_at 4
              [Rungs.mkRank 5 [16; 2; 1; 8; 4] [0; 0; 0; 0; 0]%nat] 0)) /\
  (forall ts dt' idx',
     Rungs.computeRungTimestep_at 4
       [Rungs.mkRank 5 [16; 2; 1; 8; 4] [0; 0; 0; 0; 0]%nat] 0
       = Some (ts, dt', idx') ->
     forall p, (p < 5)%nat ->
       exists r lo hi,
         (1 <= r)%nat /\ (Z.of_nat r <= Rungs.numRungs ts)%Z /\
         Rungs.rungRanges ts !! (r - 1)%nat = Some lo /\
         Rungs.rungRanges ts !! r = Some hi /\
         (lo <= p < hi)%nat /\
         (forall r' lo' hi',
            (1 <= r')%nat -> (Z.of_nat r' <= Rungs.numRungs ts)%Z ->
            Rungs.rungRanges ts !! (r' - 1)%nat = Some lo' ->
            Rungs.rungRanges ts !! r' = Some hi' ->
            (lo' <= p < hi')%nat -> r' = r)).
Proof.
  apply (rungs_partition_groups 4 ltac:(lia)
           [Rungs.mkRank 5 [16; 2; 1; 8; 4] [0; 0; 0; 0; 0]%nat] 0
           (Rungs.mkRank 5 [16; 2; 1; 8; 4] [0; 0; 0; 0; 0]%nat)).
  - constructor; [|constructor]. unfold Rungs.has_groups. simpl. lia.
  - constructor; [|constructor]. unfold Rungs.positive_dt. simpl.
    repeat constructor.
  - reflexivity.
Defined.

Lemma few_groups_one_rung_witness :
  exists ts dt' idx',
    Rungs.computeRungTimestep_at 4
      [Rungs.mkRank 2 [8; 1] [0; 0]%nat; Rungs.mkRank 1 [3] [0]%nat] 0
      = Some (ts, dt', idx') /\
    Rungs.numRungs ts = 1%Z /\
    Rungs.rungRanges ts = 0%nat :: replicate 4 2%nat.
Proof.
  apply (few_groups_one_rung 4 ltac:(lia)
           [Rungs.mkRank 2 [8; 1] [0; 0]%nat; Rungs.mkRank 1 [3] [0]%nat] 0
           (Rungs.mkRank 2 [8; 1] [0; 0]%nat)).
  - repeat constructor; simpl; lia.
  - repeat constructor.
  - repeat constructor; simpl; lia.
  - reflexivity.
Defined.

Lemma ranks_agree_witness :
  Rungs.minDt (Rungs.mkTimestep 1 2 0 [0; 2; 5; 5; 5]%nat [0; 0; 0; 0])
    == Rungs.minDt (Rungs.mkTimestep 1 2 0 [0; 0; 2; 2; 2]%nat [0; 0; 0; 0]) /\
  Rungs.numRungs (Rungs.mkTimestep 1 2 0 [0; 2; 5; 5; 5]%nat [0; 0; 0; 0])
    = Rungs.numRungs (Rungs.mkTimestep 1 2 0 [0; 0; 2; 2; 2]%nat [0; 0; 0; 0]).
Proof.
  apply (ranks_agree 4
           [Rungs.mkRank 5 [16; 2; 1; 8; 4] [0; 0; 0; 0; 0]%nat;
            Rungs.mkRank 2 [3; 32] [7; 7]%nat] 0 1
           (Rungs.mkTimestep 1 2 0 [0; 2; 5; 5; 5]%nat [0; 0; 0; 0])
           [1; 2; 4; 8; 16] [2; 1; 4; 3; 0]%nat
           (Rungs.mkTimestep 1 2 0 [0; 0; 2; 2; 2]%nat [0; 0; 0; 0])
           [3; 32] [0; 1]%nat).
  - vm_compute. reflexivity.
  - vm_compute. reflexivity.
Defined.

Lemma computeDensity_again_witness :
  Density.computeDensity Q Qdiv unit (fun _ _ _ _ i => inject_Z (Z.of_nat i) + 1)
    1 3 (Density.mkDataset Q unit tt [2; 4; 6; 8] [9; 9; 9; 9]
           [5; 4 # 2; 6 # 3; 5])
  = Some (Density.mkDataset Q unit tt [2; 4; 6; 8] [9; 9; 9; 9]
            [5; 4 # 2; 6 # 3; 5]).
Proof.
  apply (computeDensity_again Q Qdiv unit
           (fun _ _ _ _ i => inject_Z (Z.of_nat i) + 1) 1 3
           (Density.mkDataset Q unit tt [2; 4; 6; 8] [9; 9; 9; 9] [5; 5; 5; 5])).
  vm_compute. reflexivity.
Defined.

Lemma computeDensity_split_witness :
  Density.computeDensity Q Qdiv unit (fun _ _ _ _ i => inject_Z (Z.of_nat i) + 1)
    1 3 (Density.mkDataset Q unit tt [2; 4; 6; 8] [9; 9; 9; 9] [5; 5; 5; 5])
  = (d1 ← Density.computeDensity Q Qdiv unit
            (fun _ _ _ _ i => inject_Z (Z.of_nat i) + 1) 1 2
            (Density.mkDataset Q unit tt [2; 4; 6; 8] [9; 9; 9; 9] [5; 5; 5; 5]);
     Density.computeDensity Q Qdiv unit
       (fun _ _ _ _ i => inject_Z (Z.of_nat i) + 1) 2 3 d1).
Proof.
  apply (computeDensity_split Q Qdiv unit
           (fun _ _ _ _ i => inject_Z (Z.of_nat i) + 1) 1 2 3
           (Density.mkDataset Q unit tt [2; 4; 6; 8] [9; 9; 9; 9] [5; 5; 5; 5])).
  - reflexivity.
  - lia.
Defined.

Lemma compute_frame_witness :
  (0 <= 1)%Z /\
  length [7; -2364; 7]%Z = length (Momentum.grad_P_x Z Momentum.sevens) /\
  length [7; 0; 7]%Z = length (Momentum.grad_P_y Z Momentum.sevens) /\
  length [7; 0; 7]%Z = length (Momentum.grad_P_z Z Momentum.sevens) /\
  (forall j, j <> Z.to_nat 1 ->
     [7; -2364; 7]%Z !! j = Momentum.grad_P_x Z Momentum.sevens !! j /\
     [7; 0; 7]%Z !! j = Momentum.grad_P_y Z Momentum.sevens !! j /\
     [7; 0; 7]%Z !! j = Momentum.grad_P_z Z Momentum.sevens !! j) /\
  (forall G2 G2',
     Momentum.wholeCompute Momentum.wholeParams 3 Momentum.threeParticles G2 1
       = Some G2' ->
     Momentum.grad_P_x Z G2' !! Z.to_nat 1 = [7; -2364; 7]%Z !! Z.to_nat 1 /\
     Momentum.grad_P_y Z G2' !! Z.to_nat 1 = [7; 0; 7]%Z !! Z.to_nat 1 /\
     Momentum.grad_P_z Z G2' !! Z.to_nat 1 = [7; 0; 7]%Z !! Z.to_nat 1).
Proof.
  apply (compute_frame Z 0%Z 1%Z 2%Z Z.add Z.sub Z.mul Z.div Z.opp Z.ltb Z.sqrt
           (fun v => (v + 1)%Z) Z.abs Z.pow
           (fun ro_i ro_j h_i h_j c_i c_j rv r_square => (c_i + c_j)%Z)
           (fun v h0 K0 => (v + h0 + K0)%Z)
           Momentum.wholeParams 3 Momentum.threeParticles Momentum.sevens
           (Momentum.mkGradients Z [7; -2364; 7]%Z [7; 0; 7]%Z [7; 0; 7]%Z) 1).
  vm_compute. reflexivity.
Defined.

Lemma compute_commute_witness :
  (G1 ← Momentum.wholeCompute Momentum.wholeParams 3 Momentum.threeParticles
          Momentum.sevens 0;
   Momentum.wholeCompute Momentum.wholeParams 3 Momentum.threeParticles G1 2)
  = (G2 ← Momentum.wholeCompute Momentum.wholeParams 3 Momentum.threeParticles
            Momentum.sevens 2;
     Momentum.wholeCompute Momentum.wholeParams 3 Momentum.threeParticles G2 0).
Proof.
  apply (compute_commute Z 0%Z 1%Z 2%Z Z.add Z.sub Z.mul Z.div Z.opp Z.ltb
           Z.sqrt (fun v => (v + 1)%Z) Z.abs Z.pow
           (fun ro_i ro_j h_i h_j c_i c_j rv r_square => (c_i + c_j)%Z)
           (fun v h0 K0 => (v + h0 + K0)%Z)
           Momentum.wholeParams 3 Momentum.threeParticles Momentum.sevens 0 2).
  lia.
Defined.

Lemma compute_neighbors_witness :
  Momentum.wholeCompute Momentum.wholeParams 3 Momentum.threeParticles
    Momentum.sevens 0
  = Momentum.wholeCompute Momentum.wholeParams 3
      (Momentum.mkParticles Z
         (Momentum.x Z Momentum.threeParticles)
         (Momentum.y Z Momentum.threeParticles)
         (Momentum.z Z Momentum.threeParticles)
         (Momentum.h Z Momentum.threeParticles)
         (Momentum.vx Z Momentum.threeParticles)
         (Momentum.vy Z Momentum.threeParticles)
         (Momentum.vz Z Momentum.threeParticles)
         (Momentum.ro Z Momentum.threeParticles)
         (Momentum.p Z Momentum.threeParticles)
         (Momentum.c Z Momentum.threeParticles)
         (Momentum.m Z Momentum.threeParticles)
         [[1; 0; 0; 2]; []; [5]]%Z)
      Momentum.sevens 0.
Proof.
  apply (compute_neighbors Z 0%Z 1%Z 2%Z Z.add Z.sub Z.mul Z.div Z.opp Z.ltb
           Z.sqrt (fun v => (v + 1)%Z) Z.abs Z.pow
           (fun ro_i ro_j h_i h_j c_i c_j rv r_square => (c_i + c_j)%Z)
           (fun v h0 K0 => (v + h0 + K0)%Z)
           Momentum.wholeParams 3 Momentum.threeParticles
           [[1; 0; 0; 2]; []; [5]]%Z Momentum.sevens 0
           [0; 1; 2]%Z [1; 0; 0; 2]%Z).
  - reflexivity.
  - reflexivity.
  - reflexivity.
Defined.

Lemma stepLocal_solver_input_witness :
  exists d3,
    (Nbody.mkDomain 4 1 3,
     Nbody.mkData [6; 6; 7; 6] [1; 0; 0; 0] [4; 0; 0; 0] [7; 0; 0; 0] (-2),
     25%Z)
    = (Nbody.mkDomain 4 1 3,
       (Nbody.idleTraverse
          (Nbody.idleUpsweep 25%Z d3 (Nbody.mkDomain 4 1 3)) d3
          (Nbody.mkDomain 4 1 3)).2,
       (Nbody.idleTraverse
          (Nbody.idleUpsweep 25%Z d3 (Nbody.mkDomain 4 1 3)) d3
          (Nbody.mkDomain 4 1 3)).1) /\
    (1 < 4)%nat /\ (1 <= 3 <= 4)%nat /\
    length (Nbody.m d3) = 4%nat /\
    length (Nbody.ax d3) = 4%nat /\
    length (Nbody.ay d3) = 4%nat /\
    length (Nbody.az d3) = 4%nat /\
    Nbody.egrav d3 = -2 /\
    (forall i, (1 <= i < 3)%nat ->
       Nbody.ax d3 !! i = Some 0 /\ Nbody.ay d3 !! i = Some 0 /\
       Nbody.az d3 !! i = Some 0 /\
       Nbody.m d3 !! i = resize 4 0 [5; 6; 7] !! i) /\
    (forall i, ~ (1 <= i < 3)%nat ->
       Nbody.ax d3 !! i = resize 4 0 [1; 2; 3] !! i /\
       Nbody.ay d3 !! i = resize 4 0 [4; 5; 6] !! i /\
       Nbody.az d3 !! i = resize 4 0 [7; 8; 9] !! i).
Proof.
  apply (stepLocal_solver_input Z Nbody.idleSync Nbody.idleUpsweep
           Nbody.idleTraverse
           (Nbody.mkDomain 4 1 3) (Nbody.mkDomain 4 1 3)
           (Nbody.mkData [5; 6; 7] [1; 2; 3] [4; 5; 6] [7; 8; 9] (-2))
           (Nbody.mkData [5; 6; 7] [1; 2; 3] [4; 5; 6] [7; 8; 9] (-2))
           25%Z
           (Nbody.mkDomain 4 1 3,
            Nbody.mkData [6; 6; 7; 6] [1; 0; 0; 0] [4; 0; 0; 0] [7; 0; 0; 0] (-2),
            25%Z)).
  - reflexivity.
  - vm_compute. reflexivity.
Defined.

Lemma step_prints_on_root_witness :
  (is_Some (Some (0, 10, 0, 0, 25)%Z) <-> 0%nat = 0%nat) /\
  (forall l, Some (0, 10, 0, 0, 25)%Z = Some l ->
     0%nat = Nbody.rootRank /\
     (0 < 2)%nat /\
     exists gmax,
       Some 25%Z = Some gmax /\
       l = ((0 / Z.of_nat 2)%Z, 10%Z, (0 / Z.of_nat 2)%Z, 0%Z, gmax)).
Proof.
  apply (step_prints_on_root Z Nbody.idleSync Nbody.idleUpsweep
           Nbody.idleTraverse Nbody.counterStats
           [Nbody.rankOf 0 (-1) 10; Nbody.rankOf 1 (-2) 25; Nbody.rankOf 1 (-3) 7]
           0
           (Nbody.mkDomain 3 0 2,
            Nbody.mkData [1; 1; 1] [0; 0; 0] [0; 0; 0] [0; 0; 0] (-6),
            10%Z)
           (Some 25%Z) (Some (0, 10, 0, 0, 25)%Z)).
  vm_compute. reflexivity.
Defined.

Lemma zero_timestep_undefined_witness :
  Rungs.computeRungTimestep_at 4
    [Rungs.mkRank 2 [8; 1] [0; 0]%nat; Rungs.mkRank 2 [3; 0] [0; 0]%nat] 0
  = None.
Proof.
  apply (zero_timestep_undefined 4
           [Rungs.mkRank 2 [8; 1] [0; 0]%nat; Rungs.mkRank 2 [3; 0] [0; 0]%nat]
           0 0).
  - repeat constructor; simpl; lia.
  - apply Forall_forall. unfold Rungs.all_groups. simpl.
    repeat (constructor; [done|]). constructor.
  - apply list_elem_of_lookup. by exists 3%nat.
  - reflexivity.
Defined.

Lemma compute_reads_inside_witness :
  exists nids,
    Momentum.at_ (Momentum.neighbors Z Momentum.threeParticles) 1 = Some nids /\
    Forall (fun a => (0 <= 1 < Z.of_nat (length a))%Z)
      [Momentum.x Z Momentum.threeParticles;
       Momentum.y Z Momentum.threeParticles;
       Momentum.z Z Momentum.threeParticles;
       Momentum.h Z Momentum.threeParticles;
       Momentum.vx Z Momentum.threeParticles;
       Momentum.vy Z Momentum.threeParticles;
       Momentum.vz Z Momentum.threeParticles;
       Momentum.ro Z Momentum.threeParticles;
       Momentum.p Z Momentum.threeParticles;
       Momentum.m Z Momentum.threeParticles;
       Momentum.grad_P_x Z Momentum.sevens;
       Momentum.grad_P_y Z Momentum.sevens;
       Momentum.grad_P_z Z Momentum.sevens] /\
    (forall nid, nid ∈ nids -> nid <> 1%Z ->
       Forall (fun a => (0 <= nid < Z.of_nat (length a))%Z)
         [Momentum.x Z Momentum.threeParticles;
          Momentum.y Z Momentum.threeParticles;
          Momentum.z Z Momentum.threeParticles;
          Momentum.h Z Momentum.threeParticles;
          Momentum.vx Z Momentum.threeParticles;
          Momentum.vy Z Momentum.threeParticles;
          Momentum.vz Z Momentum.threeParticles;
          Momentum.ro Z Momentum.threeParticles;
          Momentum.p Z Momentum.threeParticles;
          Momentum.m Z Momentum.threeParticles;
          Momentum.c Z Momentum.threeParticles] /\
       (0 <= 1 < Z.of_nat (length (Momentum.c Z Momentum.threeParticles)))%Z).
Proof.
  apply (compute_reads_inside Z 0%Z 1%Z 2%Z Z.add Z.sub Z.mul Z.div Z.opp
           Z.ltb Z.sqrt (fun v => (v + 1)%Z) Z.abs Z.pow
           (fun ro_i ro_j h_i h_j c_i c_j rv r_square => (c_i + c_j)%Z)
           (fun v h0 K0 => (v + h0 + K0)%Z)
           Momentum.wholeParams 3 Momentum.threeParticles Momentum.sevens
           (Momentum.mkGradients Z [7; -2364; 7]%Z [7; 0; 7]%Z [7; 0; 7]%Z) 1).
  vm_compute. reflexivity.
Defined.
